(** * Kevoloves25/Chat: the conversation store, the message renderer, the
    typing presenter and the request flow of [public/script.js]
    ([class AdvancedAIChat]), as a shallow embedding.

    JavaScript strings are modelled as sequences of 8-bit code units
    ([list ascii]); a literal is written as a Rocq string and read through
    the coercion [list_ascii_of_string]. *)

From Stdlib Require Import Ascii String List Arith Lia NArith DecimalString Sorted.
From stdpp Require Import base option list strings gmap.

Local Open Scope string_scope.
Local Open Scope list_scope.

Coercion list_ascii_of_string : string >-> list.

Abbreviation str := (list ascii).

(** ** Characters *)

Definition ch_nl : ascii := ascii_of_nat 10.
Definition ch_cr : ascii := ascii_of_nat 13.
Definition ch_dq : ascii := ascii_of_nat 34.

(** [q s] is [s] between double quotes, as in [class="..."]. *)
Definition q (s : str) : str := ch_dq :: s ++ [ch_dq].

Definition ascii_in_range (lo hi : nat) (c : ascii) : bool :=
  Nat.leb lo (nat_of_ascii c) && Nat.leb (nat_of_ascii c) hi.

(** ECMAScript LineTerminator, restricted to the 8-bit range: LF and CR. *)
Definition is_line_terminator (c : ascii) : bool :=
  Ascii.eqb c ch_nl || Ascii.eqb c ch_cr.

(** [\w] without the [u] flag: [A-Za-z0-9_]. *)
Definition is_word_char (c : ascii) : bool :=
  ascii_in_range 65 90 c || ascii_in_range 97 122 c
  || ascii_in_range 48 57 c || Ascii.eqb c "_"%char.

(** WhiteSpace and LineTerminator code units below 256, as stripped by
    [String.prototype.trim]: TAB, LF, VT, FF, CR, SP and NBSP. *)
Definition is_js_space (c : ascii) : bool :=
  ascii_in_range 9 13 c || Ascii.eqb c " "%char
  || Ascii.eqb c (ascii_of_nat 160).

(** ** A backtracking matcher for the regular expressions of the renderer

    The expressions of [formatMessage] only quantify single character
    classes (and one optional group), so the quantifiers take a class. *)

Inductive cls : Type :=
| CChar (c : ascii)        (* the literal character [c] *)
| CNot (c : ascii)         (* [[^c]] *)
| CWord                    (* [\w] *)
| CDot                     (* [.]: anything but a line terminator *)
| CAny.                    (* [[\s\S]] *)

Definition cls_in (k : cls) (c : ascii) : bool :=
  match k with
  | CChar d => Ascii.eqb c d
  | CNot d => negb (Ascii.eqb c d)
  | CWord => is_word_char c
  | CDot => negb (is_line_terminator c)
  | CAny => true
  end.

Inductive regex : Type :=
| REps
| RCls (k : cls)
| RBol                     (* [^] under the [m] flag *)
| REol                     (* [$] under the [m] flag *)
| RSeq (r1 r2 : regex)
| ROpt (r : regex)         (* [r?], greedy *)
| RPlus (k : cls)          (* [k+], greedy *)
| RStar (k : cls)          (* [k*], greedy *)
| RLazy (k : cls)          (* [k*?] *)
| RGroup (n : nat) (r : regex).

(** Captures: group number to captured text; an absent entry is JavaScript's
    [undefined]. *)
Definition caps : Type := list (nat * str).

Fixpoint cap (n : nat) (cs : caps) : option str :=
  match cs with
  | [] => None
  | (m, v) :: cs' => if Nat.eqb n m then Some v else cap n cs'
  end.

(** [$n] in a replacement template: the capture, or the empty string. *)
Definition cap_text (n : nat) (cs : caps) : str := default [] (cap n cs).

(** The matcher threads the previous character (for [^]), the remaining
    input and the captures; [None] is a failed attempt, after which the
    caller backtracks. *)
Definition mres : Type := option (str * caps).
Definition mcont : Type := option ascii -> str -> caps -> mres.

Definition or_else (a : mres) (b : mres) : mres :=
  match a with Some x => Some x | None => b end.

Fixpoint greedy_star (k : cls) (prev : option ascii) (s : str) (cs : caps)
    (kont : mcont) {struct s} : mres :=
  match s with
  | c :: s' =>
      if cls_in k c
      then or_else (greedy_star k (Some c) s' cs kont) (kont prev s cs)
      else kont prev s cs
  | [] => kont prev s cs
  end.

Fixpoint lazy_star (k : cls) (prev : option ascii) (s : str) (cs : caps)
    (kont : mcont) {struct s} : mres :=
  match kont prev s cs with
  | Some x => Some x
  | None =>
      match s with
      | c :: s' => if cls_in k c then lazy_star k (Some c) s' cs kont else None
      | [] => None
      end
  end.

Definition at_line_start (prev : option ascii) : bool :=
  match prev with None => true | Some c => is_line_terminator c end.

Definition at_line_end (s : str) : bool :=
  match s with [] => true | c :: _ => is_line_terminator c end.

Fixpoint rmatch (r : regex) (prev : option ascii) (s : str) (cs : caps)
    (kont : mcont) {struct r} : mres :=
  match r with
  | REps => kont prev s cs
  | RCls k =>
      match s with
      | c :: s' => if cls_in k c then kont (Some c) s' cs else None
      | [] => None
      end
  | RBol => if at_line_start prev then kont prev s cs else None
  | REol => if at_line_end s then kont prev s cs else None
  | RSeq r1 r2 =>
      rmatch r1 prev s cs (fun p s' cs' => rmatch r2 p s' cs' kont)
  | ROpt r1 => or_else (rmatch r1 prev s cs kont) (kont prev s cs)
  | RPlus k =>
      match s with
      | c :: s' => if cls_in k c then greedy_star k (Some c) s' cs kont else None
      | [] => None
      end
  | RStar k => greedy_star k prev s cs kont
  | RLazy k => lazy_star k prev s cs kont
  | RGroup n r1 =>
      rmatch r1 prev s cs
        (fun p s' cs' => kont p s' ((n, take (length s - length s') s) :: cs'))
  end.

(** One attempt at the current position: the length of the match and its
    captures. *)
Definition rexec (r : regex) (prev : option ascii) (s : str)
    : option (nat * caps) :=
  match rmatch r prev s [] (fun _ s' cs => Some (s', cs)) with
  | Some (s', cs) => Some (length s - length s', cs)
  | None => None
  end.

(** [String.prototype.replace] with a [g] regex: scan left to right, replace
    each match, resume after it (one character further after an empty
    match).  [skip] counts the characters of the current match still to be
    passed over; [f] receives the matched text and the captures. *)
Fixpoint replace_from (r : regex) (f : str -> caps -> str)
    (prev : option ascii) (s : str) (skip : nat) {struct s} : str :=
  match skip with
  | S n =>
      match s with
      | [] => []
      | c :: s' => replace_from r f (Some c) s' n
      end
  | O =>
      match rexec r prev s with
      | Some (len, cs) =>
          f (take len s) cs ++
          match s with
          | [] => []
          | c :: s' =>
              match len with
              | O => c :: replace_from r f (Some c) s' 0
              | S n => replace_from r f (Some c) s' n
              end
          end
      | None =>
          match s with
          | [] => []
          | c :: s' => c :: replace_from r f (Some c) s' 0
          end
      end
  end.

Definition replace_all (r : regex) (f : str -> caps -> str) (s : str) : str :=
  replace_from r f None s 0.

(** The literal text [s] as a regex. *)
Fixpoint rlit (s : str) : regex :=
  match s with
  | [] => REps
  | c :: s' => RSeq (RCls (CChar c)) (rlit s')
  end.

Fixpoint rseq (rs : list regex) : regex :=
  match rs with
  | [] => REps
  | [r] => r
  | r :: rs' => RSeq r (rseq rs')
  end.

(** ** The Message Renderer *)

(** [/\*(\*?[^*]+\*?)\*/g] *)
Definition re_bold : regex :=
  rseq [ RCls (CChar "*");
         RGroup 1 (rseq [ ROpt (RCls (CChar "*")); RPlus (CNot "*");
                          ROpt (RCls (CChar "*")) ]);
         RCls (CChar "*") ].

(** [/_([^_]+)_/g] *)
Definition re_italic : regex :=
  rseq [ RCls (CChar "_"); RGroup 1 (RPlus (CNot "_")); RCls (CChar "_") ].

(** [/~([^~]+)~/g] *)
Definition re_strike : regex :=
  rseq [ RCls (CChar "~"); RGroup 1 (RPlus (CNot "~")); RCls (CChar "~") ].

(** [/`([^`]+)`/g] *)
Definition re_inline_code : regex :=
  rseq [ RCls (CChar "`"); RGroup 1 (RPlus (CNot "`")); RCls (CChar "`") ].

(** [/```(\w+)?\n([\s\S]*?)```/g] *)
Definition re_fence : regex :=
  rseq [ rlit "```"; ROpt (RGroup 1 (RPlus CWord)); RCls (CChar ch_nl);
         RGroup 2 (RLazy CAny); rlit "```" ].

(** [/^> (.*$)/gim]; the [i] flag changes nothing for [>] and the space. *)
Definition re_quote : regex :=
  rseq [ RBol; rlit "> "; RGroup 1 (RSeq (RStar CDot) REol) ].

(** [/^- (.*$)/gim] *)
Definition re_list_item : regex :=
  rseq [ RBol; rlit "- "; RGroup 1 (RSeq (RStar CDot) REol) ].

(** [/(<li class="list-item">.*<\/li>)/g] *)
Definition re_list_run : regex :=
  RGroup 1 (rseq [ rlit ("<li class=" ++ q "list-item" ++ ">"); RStar CDot; rlit "</li>" ]).

Definition nl : str := [ch_nl].
Definition spaces (n : nat) : str := repeat " "%char n.

(** [escapeHtml]: the text is assigned to [textContent] of a fresh element
    and read back through [innerHTML]; the HTML fragment serializer escapes
    [&], [<], [>] and the no-break space of a text node. *)
Definition escape_char (c : ascii) : str :=
  if Ascii.eqb c "&" then "&amp;"
  else if Ascii.eqb c "<" then "&lt;"
  else if Ascii.eqb c ">" then "&gt;"
  else if Ascii.eqb c (ascii_of_nat 160) then "&nbsp;"
  else [c].

Definition escapeHtml (text : str) : str := flat_map escape_char text.

Fixpoint trim_start (s : str) : str :=
  match s with
  | c :: s' => if is_js_space c then trim_start s' else s
  | [] => []
  end.

(** [String.prototype.trim] *)
Definition trim (s : str) : str := rev (trim_start (rev (trim_start s))).

Definition tmpl_bold (_ : str) (cs : caps) : str :=
  "<strong class=" ++ q "bold-text" ++ ">" ++ cap_text 1 cs ++ "</strong>".

Definition tmpl_italic (_ : str) (cs : caps) : str :=
  "<em class=" ++ q "italic-text" ++ ">" ++ cap_text 1 cs ++ "</em>".

Definition tmpl_strike (_ : str) (cs : caps) : str :=
  "<del class=" ++ q "strike-text" ++ ">" ++ cap_text 1 cs ++ "</del>".

Definition tmpl_inline_code (_ : str) (cs : caps) : str :=
  "<code class=" ++ q "inline-code" ++ ">" ++ cap_text 1 cs ++ "</code>".

(** The callback of the code-block rule; [language || 'text'] takes the
    fallback when the optional group did not take part in the match. *)
Definition tmpl_code_block (_ : str) (cs : caps) : str :=
  let lang : str :=
    match cap 1 cs with
    | Some (c :: l) => c :: l
    | _ => "text"
    end in
  let code := cap_text 2 cs in
  nl ++ spaces 16 ++ "<div class=" ++ q "code-block" ++ ">" ++
  nl ++ spaces 20 ++ "<div class=" ++ q "code-header" ++ ">" ++
  nl ++ spaces 24 ++ "<span class=" ++ q "language-tag" ++ ">" ++ lang ++ "</span>" ++
  nl ++ spaces 24 ++ "<button class=" ++ q "copy-btn" ++ " onclick=" ++
        q "app.copyCode(this)" ++ ">Copy</button>" ++
  nl ++ spaces 20 ++ "</div>" ++
  nl ++ spaces 20 ++ "<pre><code>" ++ escapeHtml (trim code) ++ "</code></pre>" ++
  nl ++ spaces 16 ++ "</div>" ++
  nl ++ spaces 12.

Definition tmpl_quote (_ : str) (cs : caps) : str :=
  "<blockquote class=" ++ q "quote-block" ++ ">" ++ cap_text 1 cs ++ "</blockquote>".

Definition tmpl_list_item (_ : str) (cs : caps) : str :=
  "<li class=" ++ q "list-item" ++ ">" ++ cap_text 1 cs ++ "</li>".

Definition tmpl_list_run (_ : str) (cs : caps) : str :=
  "<ul class=" ++ q "styled-list" ++ ">" ++ cap_text 1 cs ++ "</ul>".

Definition tmpl_br (_ : str) (_ : caps) : str := "<br>".

(** The stages of [formatMessage], in the order of the source. *)
Definition fmt_bold : str -> str := replace_all re_bold tmpl_bold.
Definition fmt_italic : str -> str := replace_all re_italic tmpl_italic.
Definition fmt_strike : str -> str := replace_all re_strike tmpl_strike.
Definition fmt_inline_code : str -> str := replace_all re_inline_code tmpl_inline_code.
Definition fmt_code_block : str -> str := replace_all re_fence tmpl_code_block.
Definition fmt_quote : str -> str := replace_all re_quote tmpl_quote.
Definition fmt_list_item : str -> str := replace_all re_list_item tmpl_list_item.
Definition fmt_list_run : str -> str := replace_all re_list_run tmpl_list_run.
Definition fmt_br : str -> str := replace_all (RCls (CChar ch_nl)) tmpl_br.

Definition formatMessage (content : str) : str :=
  match content with
  | [] => []
  | _ =>
      let formatted :=
        fmt_inline_code (fmt_strike (fmt_italic (fmt_bold content))) in
      let formatted := fmt_code_block formatted in
      let formatted := fmt_quote formatted in
      let formatted := fmt_list_item formatted in
      let formatted := fmt_list_run formatted in
      let formatted := fmt_br formatted in
      formatted
  end.

(** ** Reading the expressions

    The positions of a subject, each with the character before it; and the
    literal text with which every match of an expression begins. *)

Fixpoint positions (prev : option ascii) (s : str) : list (option ascii * str) :=
  (prev, s) ::
  match s with
  | [] => []
  | c :: s' => positions (Some c) s'
  end.

(** [(p, full)]: every match begins with [p]; [full] when the expression
    is exactly that literal, anchors aside. *)
Fixpoint lit_prefix (r : regex) : str * bool :=
  match r with
  | REps | RBol | REol => ([], true)
  | RCls (CChar c) => ([c], true)
  | RSeq r1 r2 =>
      let '(p1, full1) := lit_prefix r1 in
      if full1
      then let '(p2, full2) := lit_prefix r2 in (p1 ++ p2, full2)
      else (p1, false)
  | RGroup _ r1 => (fst (lit_prefix r1), false)
  | _ => ([], false)
  end.

(** The characters of [s] before the first [c], and [s] from that [c] on. *)
Fixpoint run_before (c : ascii) (s : str) : str :=
  match s with
  | a :: s' => if Ascii.eqb a c then [] else a :: run_before c s'
  | [] => []
  end.

Fixpoint rest_from (c : ascii) (s : str) : str :=
  match s with
  | a :: s' => if Ascii.eqb a c then s else rest_from c s'
  | [] => []
  end.

(** The character before the position reached after reading [t]. *)
Definition prev_after (prev : option ascii) (t : str) : option ascii :=
  match last t with Some c => Some c | None => prev end.

(** What the inline-code rule leaves behind: after a backtick followed by a
    character other than a backtick or [<], no backtick comes any more. *)
Fixpoint settled (o : str) : Prop :=
  match o with
  | [] => True
  | c :: o' =>
      (c = "`"%char ->
       match o' with
       | d :: rest => d <> "`"%char -> d <> "<"%char -> "`"%char ∉ rest
       | [] => True
       end) /\ settled o'
  end.

(** Line breaks made explicit, as the last rule of [formatMessage] does. *)
Definition nl2br (s : str) : str :=
  flat_map (fun c => if Ascii.eqb c ch_nl then "<br>" : str else [c]) s.

(** The characters on which a rule of [formatMessage] can start, the
    angle brackets included. *)
Definition markup_char (c : ascii) : bool :=
  existsb (Ascii.eqb c) (list_ascii_of_string "*_~`<>").

Definition starts_with (p s : str) : bool := bool_decide (take (length p) s = p).

(** Some line of [s] begins with a hyphen and a space. *)
Fixpoint list_line_from (prev : option ascii) (s : str) : bool :=
  (at_line_start prev && starts_with "- " s)
  || match s with
     | [] => false
     | c :: s' => list_line_from (Some c) s'
     end.

(** Plain text: no markup character and no list line; entities such as
    [&amp;] and line breaks are allowed. *)
Definition is_plain (s : str) : bool :=
  forallb (fun c => negb (markup_char c)) s && negb (list_line_from None s).

(** ** Data model *)

Module Msg.
(** A message object [{ role, content, type }], with [caption] on the
    objects pushed by [addImageMessage]. *)
Record t : Type := mk {
  role : str;
  content : str;
  type : str;
  caption : option str
}.
End Msg.

Module Chat.
(** The chat object built by [createNewChat]. *)
Record t : Type := mk {
  id : str;
  title : str;
  messages : list Msg.t;
  mode : str;
  createdAt : str
}.

Definition set_title (v : str) (c : t) : t :=
  mk (id c) v (messages c) (mode c) (createdAt c).
Definition set_messages (v : list Msg.t) (c : t) : t :=
  mk (id c) (title c) v (mode c) (createdAt c).
End Chat.

(** ** The [Map] of chats: keys in insertion order *)

Section JsMap.
Context {V : Type}.

Fixpoint map_get (k : str) (m : list (str * V)) : option V :=
  match m with
  | [] => None
  | (k', v) :: m' => if decide (k = k') then Some v else map_get k m'
  end.

Definition map_has (k : str) (m : list (str * V)) : bool :=
  match map_get k m with Some _ => true | None => false end.

(** [Map.prototype.set]: an existing key keeps its position. *)
Fixpoint map_set (k : str) (v : V) (m : list (str * V)) : list (str * V) :=
  match m with
  | [] => [(k, v)]
  | (k', v') :: m' =>
      if decide (k = k') then (k, v) :: m' else (k', v') :: map_set k v m'
  end.

(** Mutation of the object stored under [k], through the reference that
    [Map.prototype.get] returns. *)
Fixpoint map_alter (f : V -> V) (k : str) (m : list (str * V)) : list (str * V) :=
  match m with
  | [] => []
  | (k', v) :: m' =>
      if decide (k = k') then (k', f v) :: m' else (k', v) :: map_alter f k m'
  end.

Definition map_keys (m : list (str * V)) : list str := map fst m.
Definition map_values (m : list (str * V)) : list V := map snd m.
End JsMap.

(** ** The host environment

    [JSON.stringify], [JSON.parse] and [Date] belong to the JavaScript
    engine, not to the repository.  [JSON_parse] stands for
    [JSON.parse(savedChats)] followed by the [chatsArray.map(...)] of
    [loadChats]; what the two make of a blob is one of three things.
    [Date_parse] is the time value of [new Date(createdAt)], [None] for an
    invalid date (NaN). *)
Inductive parsed : Type :=
| Records (chatsArray : list Chat.t)
    (* an array of chat objects as [saveChats] writes them, [[]] included *)
| Raises
    (* an exception inside the [try] block: a [SyntaxError] of [JSON.parse],
       or the [TypeError] of [chatsArray.map(...)] on a value that is not an
       array or on an element [null] *)
| Foreign.
    (* any other blob: an array that goes into the map with values that are
       not such chat objects, or a text with strings beyond the 8-bit code
       units; [Chat.t] has no value for what the code keeps of them *)

Class Host : Type := {
  JSON_stringify : list Chat.t -> str;
  JSON_parse : str -> parsed;
  Date_parse : str -> option Z
}.

(** ** Application state *)

Record app : Type := mk_app {
  currentChatId : option str;          (* [null] until [loadChats] *)
  chats : list (str * Chat.t);
  isGenerating : bool;
  currentMode : str;
  jsonMode : bool;
  uploadedImage : bool;                (* whether an image is attached *)
  userApiKey : option str;
  localStorage : gmap str str;         (* the browser's key/value store *)
  apiKeyModalOpen : bool;              (* [#apiKeyModal] is displayed *)
  toasts : list str;                   (* texts passed to [showToast] *)
  revealed : str;                      (* [displayedContent] when the typing loop ended *)
  streamHtml : str                     (* [innerHTML] of the streaming element *)
}.

Definition set_currentChatId (v : option str) (a : app) : app :=
  mk_app v (chats a) (isGenerating a) (currentMode a) (jsonMode a)
    (uploadedImage a) (userApiKey a) (localStorage a) (apiKeyModalOpen a)
    (toasts a) (revealed a) (streamHtml a).
Definition set_chats (v : list (str * Chat.t)) (a : app) : app :=
  mk_app (currentChatId a) v (isGenerating a) (currentMode a) (jsonMode a)
    (uploadedImage a) (userApiKey a) (localStorage a) (apiKeyModalOpen a)
    (toasts a) (revealed a) (streamHtml a).
Definition set_isGenerating (v : bool) (a : app) : app :=
  mk_app (currentChatId a) (chats a) v (currentMode a) (jsonMode a)
    (uploadedImage a) (userApiKey a) (localStorage a) (apiKeyModalOpen a)
    (toasts a) (revealed a) (streamHtml a).
Definition set_currentMode (v : str) (a : app) : app :=
  mk_app (currentChatId a) (chats a) (isGenerating a) v (jsonMode a)
    (uploadedImage a) (userApiKey a) (localStorage a) (apiKeyModalOpen a)
    (toasts a) (revealed a) (streamHtml a).
Definition set_jsonMode (v : bool) (a : app) : app :=
  mk_app (currentChatId a) (chats a) (isGenerating a) (currentMode a) v
    (uploadedImage a) (userApiKey a) (localStorage a) (apiKeyModalOpen a)
    (toasts a) (revealed a) (streamHtml a).
Definition set_uploadedImage (v : bool) (a : app) : app :=
  mk_app (currentChatId a) (chats a) (isGenerating a) (currentMode a) (jsonMode a)
    v (userApiKey a) (localStorage a) (apiKeyModalOpen a)
    (toasts a) (revealed a) (streamHtml a).
Definition set_userApiKey (v : option str) (a : app) : app :=
  mk_app (currentChatId a) (chats a) (isGenerating a) (currentMode a) (jsonMode a)
    (uploadedImage a) v (localStorage a) (apiKeyModalOpen a)
    (toasts a) (revealed a) (streamHtml a).
Definition set_localStorage (v : gmap str str) (a : app) : app :=
  mk_app (currentChatId a) (chats a) (isGenerating a) (currentMode a) (jsonMode a)
    (uploadedImage a) (userApiKey a) v (apiKeyModalOpen a)
    (toasts a) (revealed a) (streamHtml a).
Definition set_apiKeyModalOpen (v : bool) (a : app) : app :=
  mk_app (currentChatId a) (chats a) (isGenerating a) (currentMode a) (jsonMode a)
    (uploadedImage a) (userApiKey a) (localStorage a) v
    (toasts a) (revealed a) (streamHtml a).
Definition set_toasts (v : list str) (a : app) : app :=
  mk_app (currentChatId a) (chats a) (isGenerating a) (currentMode a) (jsonMode a)
    (uploadedImage a) (userApiKey a) (localStorage a) (apiKeyModalOpen a)
    v (revealed a) (streamHtml a).
Definition set_stream (shown html : str) (a : app) : app :=
  mk_app (currentChatId a) (chats a) (isGenerating a) (currentMode a) (jsonMode a)
    (uploadedImage a) (userApiKey a) (localStorage a) (apiKeyModalOpen a)
    (toasts a) shown html.

(** ** Exceptions and the state monad of the methods

    A method runs on the application state and either returns or throws;
    the mutations made before a [throw] stay. *)

Inductive exn : Type :=
| TypeError                  (* a property read on [undefined] *)
| Error (message : str).     (* [new Error(message)], or a rejected [fetch] *)

(** [error.message]; the text of a [TypeError] is the engine's (V8's here). *)
Definition exn_message (e : exn) : str :=
  match e with
  | TypeError => "Cannot read properties of undefined"
  | Error m => m
  end.

Inductive res (A : Type) : Type :=
| Ok (a : A)
| Throw (e : exn).
Arguments Ok {A} a.
Arguments Throw {A} e.

Definition M (A : Type) : Type := app -> res A * app.

Definition ret {A} (a : A) : M A := fun st => (Ok a, st).
Definition throw {A} (e : exn) : M A := fun st => (Throw e, st).
Definition bind {A B} (c : M A) (k : A -> M B) : M B :=
  fun st =>
    match c st with
    | (Ok a, st') => k a st'
    | (Throw e, st') => (Throw e, st')
    end.
Definition get : M app := fun st => (Ok st, st).
Definition modify (f : app -> app) : M unit := fun st => (Ok tt, f st).
(** [try { c } catch (error) { h error }] *)
Definition try_catch {A} (c : M A) (h : exn -> M A) : M A :=
  fun st =>
    match c st with
    | (Ok a, st') => (Ok a, st')
    | (Throw e, st') => h e st'
    end.

Declare Scope js_scope.
Delimit Scope js_scope with js.
Notation "x <- c1 ;; c2" := (bind c1 (fun x => c2))
  (at level 100, c1 at next level, right associativity) : js_scope.
Notation "c1 ;; c2" := (bind c1 (fun _ => c2))
  (at level 100, right associativity) : js_scope.
Local Open Scope js_scope.

(** The state a method leaves, whether it returned or threw. *)
Definition exec {A} (c : M A) (st : app) : app := snd (c st).
Definition outcome {A} (c : M A) (st : app) : res A := fst (c st).

(** JavaScript truthiness of a string-or-null value. *)
Definition truthy (v : option str) : bool :=
  match v with
  | Some (_ :: _) => true
  | _ => false
  end.

(** [a || b] on strings. *)
Definition or_str (a : option str) (b : str) : str :=
  match a with
  | Some (c :: s) => c :: s
  | _ => b
  end.

(** ** The methods of [AdvancedAIChat]

    Calls that only touch the DOM ([updateChatHistory], [displayMessages],
    [updateChatTitle], [toggleSidebar], [addMessageToDisplay],
    [autoResizeTextarea]) leave the modelled state alone and are named in
    comments at the place of the call. *)

Section Methods.
Context `{Host}.

Definition key_chats : str := "ai_chats".
Definition key_current : str := "current_chat_id".
Definition key_api : str := "user_api_key".

(** [String(this.currentChatId)], as [localStorage.setItem] stores it. *)
Definition id_string (v : option str) : str :=
  match v with Some s => s | None => "null" end.

Definition saveChats : M unit :=
  modify (fun st =>
    let chatsArray := map_values (chats st) in
    set_localStorage
      (<[key_current := id_string (currentChatId st)]>
         (<[key_chats := JSON_stringify chatsArray]> (localStorage st))) st).

Definition loadUserSettings : M unit :=
  modify (fun st => set_userApiKey (localStorage st !! key_api) st).

Definition saveUserSettings : M unit :=
  modify (fun st =>
    match userApiKey st with
    | Some (c :: k) =>
        set_localStorage (<[key_api := c :: k]> (localStorage st)) st
    | _ => st
    end).

Definition showToast (message : str) : M unit :=
  modify (fun st => set_toasts (toasts st ++ [message]) st).

Definition openApiKeyModal : M unit := modify (set_apiKeyModalOpen true).
Definition closeApiKeyModal : M unit := modify (set_apiKeyModalOpen false).

(** ['chat_' + Date.now()] *)
Definition chat_id_at (now : N) : str :=
  "chat_" ++ list_ascii_of_string (NilEmpty.string_of_uint (N.to_uint now)).

(** [now] is [Date.now()], [iso] is [new Date().toISOString()]. *)
Definition createNewChat (now : N) (iso : str) : M unit :=
  st <- get;;
  let chatId := chat_id_at now in
  let chat := Chat.mk chatId "New Chat" [] (currentMode st) iso in
  modify (fun st => set_chats (map_set chatId chat (chats st)) st);;
  modify (set_currentChatId (Some chatId));;
  saveChats
  (* updateChatHistory(); displayMessages(); updateChatTitle('New Chat');
     toggleSidebar(false) *).

(** [new Map(chatsArray.map(chat => [chat.id, chat]))] *)
Definition map_of_chats (chatsArray : list Chat.t) : list (str * Chat.t) :=
  fold_left (fun m chat => map_set (Chat.id chat) chat m) chatsArray [].

Definition is_foreign (p : parsed) : bool :=
  match p with Foreign => true | _ => false end.

(** On a [Foreign] blob the method returns like on every other: the [try]
    block catches what is thrown inside it and nothing after it throws
    ([has], [size], [keys] and [createNewChat] do not).  What it leaves in
    the map are not chat objects of this model, so the model stops there
    and keeps the state; the properties of the state after [loadChats] are
    stated for the other blobs. *)
Definition loadChats (now : N) (iso : str) : M unit :=
  st <- get;;
  let savedChats := localStorage st !! key_chats in
  let savedCurrentChat := localStorage st !! key_current in
  if truthy savedChats && is_foreign (JSON_parse (default [] savedChats))
  then ret tt
  else
    (if truthy savedChats
     then
       try_catch
         (match JSON_parse (default [] savedChats) with
          | Records chatsArray => modify (set_chats (map_of_chats chatsArray))
          | _ => throw (Error "JSON.parse")
          end)
         (fun e => (* console.error *) modify (set_chats []))
     else ret tt);;
    st <- get;;
    if truthy savedCurrentChat && map_has (default [] savedCurrentChat) (chats st)
    then modify (set_currentChatId savedCurrentChat)
    else
      match map_keys (chats st) with
      | k :: _ => modify (set_currentChatId (Some k))
      | [] => createNewChat now iso
      end.

(** [this.chats.get(id)] followed by a property access on the result. *)
Definition chat_of (id : option str) : M Chat.t :=
  st <- get;;
  match id with
  | Some k =>
      match map_get k (chats st) with
      | Some c => ret c
      | None => throw TypeError
      end
  | None => throw TypeError
  end.

(** A mutation of the current chat object. *)
Definition alter_current (f : Chat.t -> Chat.t) : M unit :=
  modify (fun st =>
    match currentChatId st with
    | Some k => set_chats (map_alter f k (chats st)) st
    | None => st
    end).

Definition switchChat (chatId : str) : M unit :=
  modify (set_currentChatId (Some chatId));;
  saveChats;;
  (* updateChatHistory(); displayMessages() *)
  c <- chat_of (Some chatId);;
  (* updateChatTitle(c.title); toggleSidebar(false) *)
  ret tt.

Definition push_message (m : Msg.t) (c : Chat.t) : Chat.t :=
  Chat.set_messages (Chat.messages c ++ [m]) c.

Definition addMessage (role content type : str) : M unit :=
  st <- get;;
  _ <- chat_of (currentChatId st);;
  alter_current (push_message (Msg.mk role content type None));;
  saveChats
  (* addMessageToDisplay(role, content, type, true) *).

Definition addImageMessage (imageUrl caption role : str) : M unit :=
  st <- get;;
  _ <- chat_of (currentChatId st);;
  alter_current (push_message (Msg.mk role imageUrl "image" (Some caption)));;
  saveChats
  (* addMessageToDisplay(role, imageUrl, 'image', true) *).

Definition truncateText (text : str) (maxLength : nat) : str :=
  if Nat.ltb maxLength (length text)
  then take maxLength text ++ "..."
  else text.

Definition updateChatTitleFromFirstMessage (firstMessage : str) : M unit :=
  st <- get;;
  currentChat <- chat_of (currentChatId st);;
  if Nat.eqb (length (Chat.messages currentChat)) 2
     && bool_decide (Chat.title currentChat = "New Chat")
  then
    let newTitle := truncateText firstMessage 25 in
    alter_current (Chat.set_title newTitle);;
    (* updateChatTitle(newTitle); updateChatHistory() *)
    saveChats
  else ret tt.

(** [this.chats.has(this.currentChatId)] *)
Definition has_current (st : app) : bool :=
  match currentChatId st with
  | Some k => map_has k (chats st)
  | None => false
  end.

Definition clearCurrentChat : M unit :=
  st <- get;;
  if has_current st
  then
    alter_current (Chat.set_messages []);;
    saveChats
    (* displayMessages() *)
  else ret tt.

Definition showTypingIndicator : M unit := modify (set_isGenerating true).
Definition removeTypingIndicator : M unit := modify (set_isGenerating false).

(** *** The typing presenter

    The loop of [typeMessage].  [flag] is [this.isGenerating] as the
    current iteration reads it; [later i] is its value after the [i]-th
    [await this.delay(...)], when other handlers have run.  The result is
    [displayedContent] at the exit of the loop, and the flag then. *)
Fixpoint reveal (flag : bool) (later : nat -> bool) (i : nat)
    (todo displayedContent : str) {struct todo} : str * bool :=
  match todo with
  | [] => (displayedContent, flag)
  | c :: todo' =>
      if flag
      then reveal (later i) later (S i) todo' (displayedContent ++ [c])
      else (displayedContent, flag)
  end.

(** The delay after a revealed character, in milliseconds. *)
Definition delay_after (char : ascii) : nat :=
  if Ascii.eqb char "." || Ascii.eqb char "!" || Ascii.eqb char "?" then 100
  else if Ascii.eqb char ch_nl then 50
  else 10.

Definition typeMessage (content role type : str) (later : nat -> bool) : M unit :=
  if bool_decide (type = "image")
  then addImageMessage content "Generated Image" role
  else
    st <- get;;
    let '(displayedContent, flag) :=
      reveal (isGenerating st) later 0 content [] in
    modify (set_isGenerating flag);;
    modify (set_stream displayedContent (formatMessage content));;
    addMessage role content type.

(** *** The request flow *)

(** The parsed body of a response. *)
Record api_data : Type := mk_data {
  success : bool;
  d_content : str;
  d_error : option str;
  imageUrl : str
}.

(** What [await fetch(...)] and [await response.json()] produce. *)
Inductive fetch_outcome : Type :=
| Rejected (e : exn)
| Response (status : nat) (statusText : str) (data : api_data).

Definition response_ok (status : nat) : bool :=
  Nat.leb 200 status && Nat.leb status 299.

(** The [messages] of the request body. *)
Definition request_messages (c : Chat.t) : list (str * str) :=
  map (fun msg => (Msg.role msg, Msg.content msg))
    (filter (fun msg => Msg.role msg ≠ "system") (Chat.messages c)).

Definition generateAIResponse (userMessage : str) (net : fetch_outcome) : M str :=
  st <- get;;
  currentChat <- chat_of (currentChatId st);;
  let messages := request_messages currentChat in
  try_catch
    (match net with
     | Rejected e => throw e
     | Response status statusText data =>
         if negb (response_ok status)
         then
           if Nat.eqb status 401
           then
             modify (set_userApiKey None);;
             modify (fun st => set_localStorage (delete key_api (localStorage st)) st);;
             openApiKeyModal;;
             throw (Error "API key invalid. Please update your API key.")
           else
             throw (Error (or_str (d_error data) ("Request failed: " ++ statusText)))
         else if negb (success data)
         then throw (Error (or_str (d_error data) "Request failed"))
         else ret (d_content data)
     end)
    (fun error => (* console.error *) throw error).

Definition sendMessage (input : str) (net : fetch_outcome)
    (later : nat -> bool) : M unit :=
  st <- get;;
  if isGenerating st then ret tt
  else if negb (truthy (userApiKey st))
  then showToast "Please configure your API key first";; openApiKeyModal
  else
    let message := trim input in
    match message with
    | [] => ret tt
    | _ =>
        addMessage "user" message "text";;
        (* messageInput.value = ''; autoResizeTextarea() *)
        showTypingIndicator;;
        try_catch
          (response <- generateAIResponse message net;;
           removeTypingIndicator;;
           typeMessage response "assistant" "text" later;;
           updateChatTitleFromFirstMessage message)
          (fun error =>
             removeTypingIndicator;;
             addMessage "assistant" ("Error: " ++ exn_message error) "text")
    end.

Definition generateImage (input : str) (net : fetch_outcome) : M unit :=
  st <- get;;
  if isGenerating st then ret tt
  else if negb (truthy (userApiKey st))
  then showToast "Please configure your API key first";; openApiKeyModal
  else
    let prompt := trim input in
    match prompt with
    | [] => showToast "Please enter an image description"
    | _ =>
        addMessage "user" ("Generate image: " ++ prompt) "image_generation";;
        showTypingIndicator;;
        try_catch
          (match net with
           | Rejected e => throw e
           | Response status statusText data =>
               if negb (response_ok status)
               then throw (Error (or_str (d_error data)
                                    ("Image generation failed: " ++ statusText)))
               else if negb (success data)
               then throw (Error (or_str (d_error data) "Image generation failed"))
               else
                 removeTypingIndicator;;
                 addImageMessage (imageUrl data) prompt "assistant";;
                 updateChatTitleFromFirstMessage ("Image: " ++ prompt)
           end)
          (fun error =>
             removeTypingIndicator;;
             addMessage "assistant"
               ("Image generation failed: " ++ exn_message error) "text")
    end.

Definition editImage (input : str) (net : fetch_outcome) : M unit :=
  st <- get;;
  if isGenerating st || negb (uploadedImage st) then ret tt
  else if negb (truthy (userApiKey st))
  then showToast "Please configure your API key first";; openApiKeyModal
  else
    let prompt := trim input in
    match prompt with
    | [] => showToast "Please describe how to edit the image"
    | _ =>
        addMessage "user" ("Edit image: " ++ prompt) "image_edit";;
        showTypingIndicator;;
        try_catch
          (match net with
           | Rejected e => throw e
           | Response status statusText data =>
               if negb (response_ok status)
               then throw (Error (or_str (d_error data)
                                    ("Image editing failed: " ++ statusText)))
               else if negb (success data)
               then throw (Error (or_str (d_error data) "Image editing failed"))
               else
                 removeTypingIndicator;;
                 addImageMessage (imageUrl data) ("Edited: " ++ prompt) "assistant";;
                 updateChatTitleFromFirstMessage ("Edited: " ++ prompt)
           end)
          (fun error =>
             removeTypingIndicator;;
             addMessage "assistant"
               ("Image editing failed: " ++ exn_message error) "text")
    end.

(** The state after pushing [m] on the current chat [k] and saving. *)
Definition pushed `{Host} (m : Msg.t) (k : str) (st : app) : app :=
  exec saveChats (set_chats (map_alter (push_message m) k (chats st)) st).

(** *** The chat list of the sidebar

    [Array.from(this.chats.values()).sort((a, b) => new Date(b.createdAt) -
    new Date(a.createdAt))]: a stable sort, most recent first; a comparison
    with an invalid date is NaN, which [sort] reads as equal. *)
Definition newer_first (a b : Chat.t) : Z :=
  match Date_parse (Chat.createdAt b), Date_parse (Chat.createdAt a) with
  | Some tb, Some ta => (tb - ta)%Z
  | _, _ => 0%Z
  end.

Fixpoint sort_insert (x : Chat.t) (l : list Chat.t) : list Chat.t :=
  match l with
  | [] => [x]
  | y :: l' =>
      if Z.ltb 0 (newer_first y x) then x :: y :: l'
      else y :: sort_insert x l'
  end.

Definition sort_chats (l : list Chat.t) : list Chat.t :=
  fold_left (fun acc x => sort_insert x acc) l [].

Definition list_chats (st : app) : list Chat.t :=
  sort_chats (map_values (chats st)).

(** *** The entries of the sidebar *)

(** The icon of a conversation in [updateChatHistory]. *)
Definition typeIcon (chat : Chat.t) : str :=
  if existsb (fun m => bool_decide (Msg.type m = "image")) (Chat.messages chat)
  then "fa-image"
  else if existsb (fun m => bool_decide (Msg.type m = "edit")) (Chat.messages chat)
  then "fa-edit"
  else "fa-comment".

(** One [chat-item] element: the conversation that a click switches to,
    whether the element carries the class [active], its icon and its
    label. *)
Record chat_item : Type := mk_item {
  item_id : str;
  item_active : bool;
  item_icon : str;
  item_label : str
}.

Definition updateChatHistory (st : app) : list chat_item :=
  map (fun chat =>
         mk_item (Chat.id chat)
           (bool_decide (Some (Chat.id chat) = currentChatId st))
           (typeIcon chat)
           (truncateText (Chat.title chat) 20))
      (list_chats st).

(** *** Start-up *)

(** The fields set by the constructor, over the browser's storage. *)
Definition new_app (storage : gmap str str) : app :=
  mk_app None [] false "chat" false false None storage false [] [] [].

Definition setMode (mode : str) : M unit := modify (set_currentMode mode).

(** [updateChatHistory()] reads the title, the messages and the creation
    timestamp of every conversation of the map and writes the sidebar; on
    chat objects it raises nothing.  The credential dialog that the
    constructor schedules is opened by a timer, after the method. *)
Definition initializeApp (now : N) (iso : str) : M unit :=
  loadUserSettings;;
  loadChats now iso;;
  (* attachEventListeners() *)
  st <- get;;
  let chatHistory := updateChatHistory st in
  (* checkServerStatus() *)
  setMode "chat".

(** *** Operations on the conversations of a running application *)

Inductive op : Type :=
| OpSend (input : str) (net : fetch_outcome) (later : nat -> bool)
| OpGenerateImage (input : str) (net : fetch_outcome)
| OpEditImage (input : str) (net : fetch_outcome)
| OpUpload
| OpClear
| OpSwitch (chatId : str).

Definition run_op (o : op) : M unit :=
  match o with
  | OpSend input net later => sendMessage input net later
  | OpGenerateImage input net => generateImage input net
  | OpEditImage input net => editImage input net
  | OpUpload => modify (set_uploadedImage true)
  | OpClear => clearCurrentChat
  | OpSwitch chatId => switchChat chatId
  end.

(** The states after each operation of a sequence; an exception ends the
    handler that raised it and leaves its mutations. *)
Fixpoint trace (ops : list op) (st : app) : list app :=
  match ops with
  | [] => []
  | o :: ops' => let st' := exec (run_op o) st in st' :: trace ops' st'
  end.

End Methods.

(** ** A host: JSON text and ISO dates

    An instance of [Host] on which the methods compute: [JSON.stringify]
    without indentation, a recursive-descent [JSON.parse], and the time
    value of the [toISOString] format.  A text with an escape above code
    unit 255 and an array of another shape than [saveChats] writes are
    valid JSON that the 8-bit, typed model has no value for: [parse_chats]
    leaves them to [Foreign]. *)

Module Json.

#[warnings="-register-all"] Inductive value : Type :=
| Null
| Bool (b : bool)
| Num (literal : str)
| Str (s : str)
| Arr (l : list value)
| Obj (l : list (str * value)).

Definition hex_digit (n : nat) : ascii :=
  nth n (list_ascii_of_string "0123456789abcdef") "0"%char.

Definition bs : ascii := ascii_of_nat 92.

(** QuoteJSONString, one code unit. *)
Definition quote_char (c : ascii) : str :=
  let n := nat_of_ascii c in
  if Nat.eqb n 34 then [bs; ch_dq]
  else if Nat.eqb n 92 then [bs; bs]
  else if Nat.eqb n 8 then [bs; "b"%char]
  else if Nat.eqb n 9 then [bs; "t"%char]
  else if Nat.eqb n 10 then [bs; "n"%char]
  else if Nat.eqb n 12 then [bs; "f"%char]
  else if Nat.eqb n 13 then [bs; "r"%char]
  else if Nat.ltb n 32
  then [bs; "u"%char; "0"%char; "0"%char; hex_digit (n / 16); hex_digit (n mod 16)]
  else [c].

Definition quote (s : str) : str := ch_dq :: flat_map quote_char s ++ [ch_dq].

Fixpoint join (sep : str) (l : list str) : str :=
  match l with
  | [] => []
  | [x] => x
  | x :: l' => x ++ sep ++ join sep l'
  end.

Fixpoint stringify (v : value) : str :=
  match v with
  | Null => "null"
  | Bool true => "true"
  | Bool false => "false"
  | Num l => l
  | Str s => quote s
  | Arr l => "[" ++ join "," (map stringify l) ++ "]"
  | Obj l =>
      "{" ++ join "," (map (fun kv => quote (fst kv) ++ ":" ++ stringify (snd kv)) l)
      ++ "}"
  end.

Definition is_ws (c : ascii) : bool :=
  let n := nat_of_ascii c in
  Nat.eqb n 32 || Nat.eqb n 9 || Nat.eqb n 10 || Nat.eqb n 13.

Fixpoint skip_ws (s : str) : str :=
  match s with
  | c :: s' => if is_ws c then skip_ws s' else s
  | [] => []
  end.

Definition is_digit (c : ascii) : bool := ascii_in_range 48 57 c.

Definition hex_value (c : ascii) : option nat :=
  let n := nat_of_ascii c in
  if ascii_in_range 48 57 c then Some (n - 48)
  else if ascii_in_range 97 102 c then Some (n - 87)
  else if ascii_in_range 65 70 c then Some (n - 55)
  else None.

(** The characters of a string literal after its opening quote. *)
Fixpoint parse_chars (s : str) (acc : str) {struct s} : option (str * str) :=
  match s with
  | [] => None
  | c :: s' =>
      if Nat.eqb (nat_of_ascii c) 34 then Some (rev acc, s')
      else if Nat.eqb (nat_of_ascii c) 92 then
        match s' with
        | e :: s'' =>
            let simple (d : ascii) := parse_chars s'' (d :: acc) in
            if Ascii.eqb e ch_dq then simple ch_dq
            else if Ascii.eqb e bs then simple bs
            else if Ascii.eqb e "/" then simple "/"%char
            else if Ascii.eqb e "b" then simple (ascii_of_nat 8)
            else if Ascii.eqb e "f" then simple (ascii_of_nat 12)
            else if Ascii.eqb e "n" then simple (ascii_of_nat 10)
            else if Ascii.eqb e "r" then simple (ascii_of_nat 13)
            else if Ascii.eqb e "t" then simple (ascii_of_nat 9)
            else if Ascii.eqb e "u" then
              match s'' with
              | h1 :: h2 :: h3 :: h4 :: s3 =>
                  match hex_value h1, hex_value h2, hex_value h3, hex_value h4 with
                  | Some 0, Some 0, Some a, Some b =>
                      parse_chars s3 (ascii_of_nat (16 * a + b) :: acc)
                  | _, _, _, _ => None
                  end
              | _ => None
              end
            else None
        | [] => None
        end
      else if Nat.ltb (nat_of_ascii c) 32 then None
      else parse_chars s' (c :: acc)
  end.

Fixpoint take_digits (s : str) (acc : str) : str * str :=
  match s with
  | c :: s' => if is_digit c then take_digits s' (c :: acc) else (rev acc, s)
  | [] => (rev acc, [])
  end.

(** [-? int frac? exp?], kept as its literal text. *)
Definition parse_number (s : str) : option (str * str) :=
  let '(sign, s1) :=
    match s with
    | c :: r => if Ascii.eqb c "-" then (["-"%char], r) else ([], s)
    | [] => ([], s)
    end in
  let '(int, s2) := take_digits s1 [] in
  match int with
  | [] => None
  | d :: ds =>
      if Ascii.eqb d "0" && negb (Nat.eqb (length ds) 0) then None
      else
        let frac :=
          match s2 with
          | c :: r =>
              if Ascii.eqb c "." then
                match take_digits r [] with
                | ([], _) => None
                | (f, r') => Some (c :: f, r')
                end
              else Some ([], s2)
          | [] => Some ([], s2)
          end in
        match frac with
        | None => None
        | Some (f, s3) =>
            match s3 with
            | c :: r =>
                if Ascii.eqb c "e" || Ascii.eqb c "E" then
                  let '(sg, r1) :=
                    match r with
                    | g :: r0 =>
                        if Ascii.eqb g "+" || Ascii.eqb g "-" then ([g], r0)
                        else ([], r)
                    | [] => ([], r)
                    end in
                  match take_digits r1 [] with
                  | ([], _) => None
                  | (e, r2) => Some (sign ++ int ++ f ++ c :: sg ++ e, r2)
                  end
                else Some (sign ++ int ++ f, s3)
            | [] => Some (sign ++ int ++ f, s3)
            end
        end
  end.

Definition expect (word : str) (s : str) : option str :=
  if bool_decide (take (length word) s = word)
  then Some (drop (length word) s) else None.

Fixpoint parse_value (fuel : nat) (s : str) {struct fuel}
    : option (value * str) :=
  match fuel with
  | O => None
  | S n =>
      match skip_ws s with
      | [] => None
      | c :: r =>
          if Ascii.eqb c ch_dq then
            match parse_chars r [] with
            | Some (t, r') => Some (Str t, r')
            | None => None
            end
          else if Ascii.eqb c "[" then
            match skip_ws r with
            | d :: r' =>
                if Ascii.eqb d "]" then Some (Arr [], r')
                else
                  match parse_elements n r [] with
                  | Some (l, r'') => Some (Arr l, r'')
                  | None => None
                  end
            | [] => None
            end
          else if Ascii.eqb c "{" then
            match skip_ws r with
            | d :: r' =>
                if Ascii.eqb d "}" then Some (Obj [], r')
                else
                  match parse_members n r [] with
                  | Some (l, r'') => Some (Obj l, r'')
                  | None => None
                  end
            | [] => None
            end
          else if Ascii.eqb c "n" then
            match expect "ull" r with Some r' => Some (Null, r') | None => None end
          else if Ascii.eqb c "t" then
            match expect "rue" r with Some r' => Some (Bool true, r') | None => None end
          else if Ascii.eqb c "f" then
            match expect "alse" r with Some r' => Some (Bool false, r') | None => None end
          else
            match parse_number (c :: r) with
            | Some (l, r') => Some (Num l, r')
            | None => None
            end
      end
  end
with parse_elements (fuel : nat) (s : str) (acc : list value) {struct fuel}
    : option (list value * str) :=
  match fuel with
  | O => None
  | S n =>
      match parse_value n s with
      | Some (v, r) =>
          match skip_ws r with
          | c :: r' =>
              if Ascii.eqb c "," then parse_elements n r' (v :: acc)
              else if Ascii.eqb c "]" then Some (rev (v :: acc), r')
              else None
          | [] => None
          end
      | None => None
      end
  end
with parse_members (fuel : nat) (s : str) (acc : list (str * value)) {struct fuel}
    : option (list (str * value) * str) :=
  match fuel with
  | O => None
  | S n =>
      match skip_ws s with
      | q0 :: r0 =>
          if Ascii.eqb q0 ch_dq then
            match parse_chars r0 [] with
            | Some (k, r1) =>
                match skip_ws r1 with
                | c1 :: r2 =>
                    if Ascii.eqb c1 ":" then
                      match parse_value n r2 with
                      | Some (v, r3) =>
                          match skip_ws r3 with
                          | c :: r' =>
                              if Ascii.eqb c "," then parse_members n r' ((k, v) :: acc)
                              else if Ascii.eqb c "}" then Some (rev ((k, v) :: acc), r')
                              else None
                          | [] => None
                          end
                      | None => None
                      end
                    else None
                | [] => None
                end
            | None => None
            end
          else None
      | [] => None
      end
  end.

Definition parse (s : str) : option value :=
  match parse_value (S (length s)) s with
  | Some (v, r) => match skip_ws r with [] => Some v | _ => None end
  | None => None
  end.

(** Property read on a parsed object; the last duplicate wins. *)
Fixpoint field (k : str) (l : list (str * value)) : option value :=
  match l with
  | [] => None
  | (k', v) :: l' =>
      match field k l' with
      | Some v' => Some v'
      | None => if decide (k = k') then Some v else None
      end
  end.

Definition field_str (k : str) (l : list (str * value)) : option str :=
  match field k l with Some (Str s) => Some s | _ => None end.

Definition of_msg (m : Msg.t) : value :=
  Obj ([("role" : str, Str (Msg.role m)); ("content" : str, Str (Msg.content m));
        ("type" : str, Str (Msg.type m))]
       ++ match Msg.caption m with
          | Some c => [("caption" : str, Str c)]
          | None => []
          end).

Definition of_chat (c : Chat.t) : value :=
  Obj [("id" : str, Str (Chat.id c)); ("title" : str, Str (Chat.title c));
       ("messages" : str, Arr (map of_msg (Chat.messages c)));
       ("mode" : str, Str (Chat.mode c));
       ("createdAt" : str, Str (Chat.createdAt c))].

Definition to_msg (v : value) : option Msg.t :=
  match v with
  | Obj l =>
      match field_str "role" l, field_str "content" l, field_str "type" l with
      | Some r, Some c, Some t =>
          match field "caption" l with
          | None => Some (Msg.mk r c t None)
          | Some (Str cap) => Some (Msg.mk r c t (Some cap))
          | Some _ => None
          end
      | _, _, _ => None
      end
  | _ => None
  end.

Fixpoint all_some {A} (l : list (option A)) : option (list A) :=
  match l with
  | [] => Some []
  | Some x :: l' =>
      match all_some l' with Some r => Some (x :: r) | None => None end
  | None :: _ => None
  end.

Definition to_chat (v : value) : option Chat.t :=
  match v with
  | Obj l =>
      match field_str "id" l, field_str "title" l, field "messages" l,
            field_str "mode" l, field_str "createdAt" l with
      | Some i, Some t, Some (Arr ms), Some m, Some c =>
          match all_some (map to_msg ms) with
          | Some ms' => Some (Chat.mk i t ms' m c)
          | None => None
          end
      | _, _, _, _, _ => None
      end
  | _ => None
  end.

(** One member of an object, as [stringify] writes it. *)
Definition member (kv : str * value) : str :=
  quote (fst kv) ++ ":" ++ stringify (snd kv).

(** The text of [v] followed by [rest] parses to [v], leaving [rest], with
    fuel for the text of [v]. *)
Definition parses (v : value) : Prop :=
  forall fuel rest,
    length (stringify v) <= fuel ->
    parse_value fuel (stringify v ++ rest) = Some (v, rest).

Definition stringify_chats (cs : list Chat.t) : str :=
  stringify (Arr (map of_chat cs)).

(** Whether a string literal of the text holds an escape [\uXXXX] above
    code unit 255, which [parse_chars] cannot read. *)
Fixpoint beyond_8bit (inside : bool) (s : str) {struct s} : bool :=
  match s with
  | [] => false
  | c :: s' =>
      if inside then
        if Ascii.eqb c bs then
          match s' with
          | e :: s'' =>
              (Ascii.eqb e "u" && negb (bool_decide (take 2 s'' = "00")))
              || beyond_8bit true s''
          | [] => false
          end
        else beyond_8bit (negb (Ascii.eqb c ch_dq)) s'
      else beyond_8bit (Ascii.eqb c ch_dq) s'
  end.

(** The text of [v] holds no escape above code unit 255, whatever
    follows. *)
Definition within_8bit (v : value) : Prop :=
  forall rest, beyond_8bit false (stringify v ++ rest) = beyond_8bit false rest.

Definition is_null (v : value) : bool :=
  match v with Null => true | _ => false end.

(** [JSON.parse(savedChats)] and [chatsArray.map(chat => [chat.id, chat])].
    A text that does not parse raises a [SyntaxError]; on a value that is
    not an array [chatsArray.map] is not a function, and on an element
    [null] the read of [chat.id] fails: a [TypeError] each.  Every other
    array goes into the map.  Its elements are chat objects when they have
    the fields of [to_chat] and nothing else, so that [JSON.stringify]
    writes them back as [stringify_chats] does. *)
Definition parse_chats (s : str) : parsed :=
  if beyond_8bit false s then Foreign
  else
    match parse s with
    | None => Raises
    | Some (Arr l) =>
        if existsb is_null l then Raises
        else
          match all_some (map to_chat l) with
          | Some cs =>
              if bool_decide (stringify (Arr l) = stringify_chats cs)
              then Records cs else Foreign
          | None => Foreign
          end
    | Some _ => Raises
    end.

End Json.

Module IsoDate.

Definition digit (c : ascii) : option Z :=
  if ascii_in_range 48 57 c then Some (Z.of_nat (nat_of_ascii c) - 48)%Z else None.

Fixpoint number (s : str) (acc : Z) : option Z :=
  match s with
  | [] => Some acc
  | c :: s' =>
      match digit c with
      | Some d => number s' (10 * acc + d)%Z
      | None => None
      end
  end.

(** Days from 1970-01-01 to a date of the proleptic Gregorian calendar. *)
Definition days_from_civil (y m d : Z) : Z :=
  let y' := if (m <=? 2)%Z then (y - 1)%Z else y in
  let era := (y' / 400)%Z in
  let yoe := (y' - era * 400)%Z in
  let mp := ((m + 9) mod 12)%Z in
  let doy := ((153 * mp + 2) / 5 + d - 1)%Z in
  let doe := (yoe * 365 + yoe / 4 - yoe / 100 + doy)%Z in
  (era * 146097 + doe - 719468)%Z.

(** The time value of [YYYY-MM-DDTHH:mm:ss.sssZ]. *)
Definition parse (s : str) : option Z :=
  let part (from len : nat) := number (take len (drop from s)) 0 in
  let sep (at_ : nat) (c : ascii) := bool_decide (s !! at_ = Some c) in
  if Nat.eqb (length s) 24
     && sep 4 "-"%char && sep 7 "-"%char && sep 10 "T"%char && sep 13 ":"%char
     && sep 16 ":"%char && sep 19 "."%char && sep 23 "Z"%char
  then
    match part 0 4, part 5 2, part 8 2, part 11 2, part 14 2, part 17 2, part 20 3 with
    | Some y, Some mo, Some d, Some h, Some mi, Some sec, Some ms =>
        Some ((((days_from_civil y mo d * 24 + h) * 60 + mi) * 60 + sec) * 1000 + ms)%Z
    | _, _, _, _, _, _, _ => None
    end
  else None.

End IsoDate.

#[local] Instance browser : Host := {
  JSON_stringify := Json.stringify_chats;
  JSON_parse := Json.parse_chats;
  Date_parse := IsoDate.parse
}.

(** ** Sample data *)

Definition demo_now : N := 1700000000000.
Definition demo_iso : str := "2023-11-14T22:13:20.000Z".
Definition demo_id : str := "chat_1700000000000".

(** A browser with a stored credential and no history, after start-up. *)
Definition demo_app : app :=
  exec (initializeApp demo_now demo_iso) (new_app (<[key_api := "sk-demo" : str]> ∅)).

Definition demo_reply (text : str) : fetch_outcome :=
  Response 200 "OK" (mk_data true text None []).

Definition demo_failure (status : nat) (statusText : str) : fetch_outcome :=
  Response status statusText (mk_data false [] None []).

(** After one successful exchange. *)
Definition demo_app2 : app :=
  exec (sendMessage "Hello" (demo_reply "Hi there") (fun _ => false)) demo_app.

Definition msg_401 : str := "API key invalid. Please update your API key.".

(** The credential dropped from memory and from the local store, and the
    credential dialog opened. *)
Definition credential_cleared (st : app) : app :=
  set_apiKeyModalOpen true
    (set_localStorage (delete key_api (localStorage st)) (set_userApiKey None st)).

(** ** Titles along a run *)

Definition title_of (k : str) (st : app) : option str :=
  Chat.title <$> map_get k (chats st).


(** No conversation is retitled between [st] and [st']. *)
Definition same_titles (st st' : app) : Prop :=
  forall k, title_of k st' = title_of k st.

(** The method [c] retitles no conversation. *)
Definition keeps_titles {A} (c : M A) : Prop :=
  forall st, same_titles st (exec c st).









(** ** Persistence *)

(** The map as [createNewChat] and [loadChats] build it: every chat under
    its own identifier, once. *)
Definition wf_chats (m : list (str * Chat.t)) : Prop :=
  NoDup (map_keys m) /\ Forall (fun kv => kv.1 = Chat.id kv.2) m.

(** The chat that [createNewChat] makes. *)
Definition fresh_chat (now : N) (iso mode : str) : Chat.t :=
  Chat.mk (chat_id_at now) "New Chat" [] mode iso.

(** The local store holds no conversation: the entry is missing or empty,
    it raises in the [try] block of [loadChats], or it is the empty
    array. *)
Definition no_history `{Host} (storage : gmap str str) : Prop :=
  storage !! key_chats = None \/
  storage !! key_chats = Some [] \/
  exists blob, storage !! key_chats = Some blob /\
    (JSON_parse blob = Raises \/ JSON_parse blob = Records []).

(** The chat entry of the local store is one that the model follows. *)
Definition followed `{Host} (storage : gmap str str) : Prop :=
  match storage !! key_chats with
  | Some (c :: blob) => is_foreign (JSON_parse (c :: blob)) = false
  | _ => True
  end.

(** [createNewChat] and two [addMessage], then the title step of the flows
    when [retitle] is set. *)
Definition two_appends `{Host} (now : N) (iso : str)
    (role1 content1 type1 role2 content2 type2 : str) (retitle : bool) : M unit :=
  createNewChat now iso;;
  addMessage role1 content1 type1;;
  addMessage role2 content2 type2;;
  if retitle then updateChatTitleFromFirstMessage content1 else ret tt.

(** ** Further definitions

    The rest of the script: the credential dialog, the sidebar, the
    formatting toolbar, and the predicates in which the properties of the
    handlers are stated. *)

(** ** Invariants of the handlers *)

(** [I] holds after [c] whenever it holds before, whether [c] returns or
    throws. *)
Definition invariant {A} (I : app -> Prop) (c : M A) : Prop :=
  forall st, I st -> I (exec c st).

(** From [st] to [st'] the map holds the same identifiers in the same
    order, and each conversation keeps its identifier, mode tag and
    creation timestamp; [Rm] relates its messages before and after. *)
Definition evolves (Rm : list Msg.t -> list Msg.t -> Prop) (st st' : app) : Prop :=
  map_keys (chats st') = map_keys (chats st) /\
  forall k c, map_get k (chats st) = Some c ->
    exists c', map_get k (chats st') = Some c' /\
      Chat.id c' = Chat.id c /\ Chat.mode c' = Chat.mode c /\
      Chat.createdAt c' = Chat.createdAt c /\
      Rm (Chat.messages c) (Chat.messages c').

Definition any_messages (_ _ : list Msg.t) : Prop := True.

(** The messages that the handlers build: a role of the two, a type of the
    four, and a caption on [image] messages only. *)
Definition msg_ok (m : Msg.t) : Prop :=
  Msg.role m ∈ [("user" : str); ("assistant" : str)] /\
  Msg.type m ∈ [("text" : str); ("image" : str); ("image_generation" : str);
                ("image_edit" : str)] /\
  (is_Some (Msg.caption m) -> Msg.type m = "image").

Definition messages_ok (st : app) : Prop :=
  forall k c, map_get k (chats st) = Some c -> Forall msg_ok (Chat.messages c).

(** Well-formed messages stay so. *)
Definition keeps_ok (l l' : list Msg.t) : Prop := Forall msg_ok l -> Forall msg_ok l'.

(** The local store holds what [saveChats] writes for the current state. *)
Definition synced `{Host} (st : app) : Prop :=
  localStorage st !! key_chats = Some (JSON_stringify (map_values (chats st))) /\
  localStorage st !! key_current = Some (id_string (currentChatId st)).

(** The generation flag after [c]: cleared whatever [c] did, or cleared
    when [c] returns. *)
Definition clears {A} (c : M A) : Prop :=
  forall st, isGenerating (exec c st) = false.


Definition flag_clear (st : app) : Prop := isGenerating st = false.

(** The guards at the head of the three flows: a request is outstanding,
    no credential is configured, or the input is blank. *)
Definition gated (st : app) (input : str) : Prop :=
  isGenerating st = true \/ truthy (userApiKey st) = false \/ trim input = [].

(** The conversations, the local store, the pointer, the credential and
    the flag are as before. *)
Definition untouched (st st' : app) : Prop :=
  chats st' = chats st /\ localStorage st' = localStorage st /\
  currentChatId st' = currentChatId st /\ userApiKey st' = userApiKey st /\
  isGenerating st' = isGenerating st.





(** The title after a flow that appended two messages and then ran the
    title step on [text]. *)
Definition title_after (text : str) (c : Chat.t) : str :=
  if bool_decide (Chat.messages c = [] /\ Chat.title c = "New Chat")
  then truncateText text 25 else Chat.title c.

Section Credential.
Context `{Host}.

(** [saveApiKey]: [input] is the value of the key field, [net] what the
    validation request produces.  The two marks of the toasts lie outside
    the 8-bit range and stand here as their UTF-8 bytes. *)
Definition saveApiKey (input : str) (net : fetch_outcome) : M unit :=
  let apiKey := trim input in
  match apiKey with
  | [] => showToast "Please enter your API key"
  | _ =>
      showToast "Validating API key...";;
      try_catch
        (match net with
         | Rejected e => throw e
         | Response _ _ data =>
             if success data
             then
               modify (set_userApiKey (Some apiKey));;
               saveUserSettings;;
               closeApiKeyModal;;
               showToast "✅ API key validated and saved!"
               (* updateServerStatus() *)
             else throw (Error (or_str (d_error data) "Invalid API key"))
         end)
        (fun error => showToast ("❌ " ++ exn_message error))
  end.

End Credential.

(** The key field holds a key and the validation answers [success]. *)
Definition validated (input : str) (net : fetch_outcome) : bool :=
  match trim input, net with
  | _ :: _, Response _ _ data => success data
  | _, _ => false
  end.

(** *** The order of the sidebar *)

(** The time value of the creation timestamp, for a valid date. *)
Definition time_of `{Host} (c : Chat.t) : Z :=
  default 0%Z (Date_parse (Chat.createdAt c)).

Definition dated `{Host} (c : Chat.t) : Prop :=
  is_Some (Date_parse (Chat.createdAt c)).

(** The shape of the italic, strike and inline-code expressions: [d],
    a group of one or more characters other than [d], and [d]. *)
Definition re_wrap (d : ascii) : regex :=
  rseq [ RCls (CChar d); RGroup 1 (RPlus (CNot d)); RCls (CChar d) ].

(** A position at which neither the quote rule, nor the list-item rule,
    nor the list rule can match. *)
Definition calm (pt : option ascii * str) : Prop :=
  at_line_start pt.1 && starts_with "> " pt.2 = false /\
  at_line_start pt.1 && starts_with "- " pt.2 = false /\
  starts_with "<l" pt.2 = false.

(** The characters on which an inline rule or the code-block rule starts. *)
Definition emph_char (c : ascii) : bool :=
  existsb (Ascii.eqb c) (list_ascii_of_string "*_~`").

(** An opening or closing tag as the templates write them. *)
Definition is_tag (tag : str) : Prop :=
  exists c rest, tag = "<"%char :: c :: rest /\ c <> "l"%char /\
    Forall (fun a => is_line_terminator a = false /\ a <> "<"%char /\
                     emph_char a = false) (c :: rest).

(** *** The formatting toolbar *)

(** The message field: its text and its selection.  The DOM keeps
    [selectionStart <= selectionEnd <= value.length]. *)
Module Textarea.

Record t : Type := mk {
  value : str;
  selectionStart : nat;
  selectionEnd : nat
}.

End Textarea.

(** The keys of [wrappers], which are the formats of the toolbar buttons. *)
Inductive format : Type := FBold | FItalic | FCode | FQuote.

Definition wrappers (type : format) : str * str :=
  match type with
  | FBold => ("*" : str, "*" : str)
  | FItalic => ("_" : str, "_" : str)
  | FCode => ("`" : str, "`" : str)
  | FQuote => ("> " : str, [])
  end.

(** [String.prototype.substring(a, b)]: the indices are clamped to the
    length and swapped when they come in the wrong order. *)
Definition substring (s : str) (a b : nat) : str :=
  let a := Nat.min a (length s) in
  let b := Nat.min b (length s) in
  take (Nat.max a b - Nat.min a b) (drop (Nat.min a b) s).

(** [applyFormatting(type)] on one of the four formats; the new selection
    is the caret that [setSelectionRange] places, clamped to the text. *)
Definition applyFormatting (type : format) (textarea : Textarea.t) : Textarea.t :=
  let start := Textarea.selectionStart textarea in
  let end_ := Textarea.selectionEnd textarea in
  let selectedText := substring (Textarea.value textarea) start end_ in
  let '(startWrapper, endWrapper) := wrappers type in
  let formattedText := startWrapper ++ selectedText ++ endWrapper in
  let value :=
    substring (Textarea.value textarea) 0 start ++ formattedText
    ++ drop end_ (Textarea.value textarea) in
  let caret := Nat.min (start + length formattedText) (length value) in
  Textarea.mk value caret caret.

(** The field with [t] selected between [u] and [v]. *)
Definition selected (u t v : str) : Textarea.t :=
  Textarea.mk (u ++ t ++ v) (length u) (length u + length t).

(** The shape of the quote and list-item expressions: a line start, the
    two characters of the marker, and the rest of the line as group. *)
Definition re_line (a b : ascii) : regex :=
  rseq [ RBol; rlit [a; b]; RGroup 1 (RSeq (RStar CDot) REol) ].

(** One line: no line terminator. *)
Definition one_line (t : str) : Prop :=
  Forall (fun c => is_line_terminator c = false) t.

(** The elements that the line rules build around a line. *)
Definition blockquote_of (t : str) : str :=
  ("<blockquote class=" ++ q "quote-block" ++ ">") ++ t ++ "</blockquote>".

Definition li_of (t : str) : str :=
  ("<li class=" ++ q "list-item" ++ ">") ++ t ++ "</li>".

Definition ul_of (t : str) : str :=
  ("<ul class=" ++ q "styled-list" ++ ">") ++ t ++ "</ul>".

(** A line of plain text. *)
Definition plain_line (t : str) : Prop := is_plain t = true /\ one_line t.




(** * Properties *)

(** ** The chat map *)

Section JsMapFacts.
Context {V : Type}.
Implicit Types (m : list (str * V)) (k : str).

Lemma map_get_alter_eq f k m :
  map_get k (map_alter f k m) = f <$> map_get k m.
Proof.
  induction m as [|[k' v] m IH]; simpl; [done|].
  destruct (decide (k = k')) as [->|Hne]; simpl.
  - by rewrite decide_True.
  - by rewrite decide_False.
Qed.

Lemma map_get_alter_ne f k k' m :
  k' ≠ k -> map_get k' (map_alter f k m) = map_get k' m.
Proof.
  intros Hne. induction m as [|[k0 v] m IH]; simpl; [done|].
  destruct (decide (k = k0)) as [->|Hne0]; simpl.
  - by rewrite !decide_False.
  - destruct (decide (k' = k0)); [done|apply IH].
Qed.

Lemma map_keys_alter f k m : map_keys (map_alter f k m) = map_keys m.
Proof.
  induction m as [|[k0 v] m IH]; simpl; [done|].
  destruct (decide (k = k0)); simpl; [done|]. by rewrite <- IH.
Qed.

Lemma map_alter_absent f k m : map_get k m = None -> map_alter f k m = m.
Proof.
  induction m as [|[k0 v] m IH]; simpl; [done|].
  destruct (decide (k = k0)); [done|]. intros Hn. by rewrite IH.
Qed.

Lemma map_get_set_eq k v m : map_get k (map_set k v m) = Some v.
Proof.
  induction m as [|[k0 v0] m IH]; simpl.
  - by rewrite decide_True.
  - destruct (decide (k = k0)) as [->|Hne]; simpl.
    + by rewrite decide_True.
    + by rewrite decide_False.
Qed.

Lemma map_get_set_ne k k' v m :
  k' ≠ k -> map_get k' (map_set k v m) = map_get k' m.
Proof.
  intros Hne. induction m as [|[k0 v0] m IH]; simpl.
  - by rewrite decide_False.
  - destruct (decide (k = k0)) as [->|Hne0]; simpl.
    + by rewrite !decide_False.
    + destruct (decide (k' = k0)); [done|apply IH].
Qed.

Lemma map_get_In k v m : map_get k m = Some v -> In v (map_values m).
Proof.
  induction m as [|[k0 v0] m IH]; simpl; [done|].
  destruct (decide (k = k0)); [intros [= ->]; by left|]. intros Hg. right. by apply IH.
Qed.
End JsMapFacts.

(** Unfolding of the monad. *)
Ltac munfold :=
  unfold exec, outcome, bind, ret, throw, get, modify, try_catch in *.

(** ** Clearing a conversation *)

(** C10.  When the active conversation exists, [clearCurrentChat] returns
    normally; it replaces the message sequence of that conversation by the
    empty one and keeps its identifier, title, mode tag and creation
    timestamp; every other conversation, the order of the map and the
    active pointer are unchanged, and the result is written through. *)
Theorem clearCurrentChat_frame `{Host} (st : app) (k : str) (c : Chat.t) :
  currentChatId st = Some k ->
  map_get k (chats st) = Some c ->
  let st' := exec clearCurrentChat st in
  outcome clearCurrentChat st = Ok tt /\
  map_get k (chats st') =
    Some (Chat.mk (Chat.id c) (Chat.title c) [] (Chat.mode c) (Chat.createdAt c)) /\
  (forall k', k' ≠ k -> map_get k' (chats st') = map_get k' (chats st)) /\
  map_keys (chats st') = map_keys (chats st) /\
  currentChatId st' = currentChatId st /\
  localStorage st' !! key_chats = Some (JSON_stringify (map_values (chats st'))).
Proof.
  intros Hcur Hget.
  unfold clearCurrentChat, has_current, alter_current, saveChats, map_has.
  munfold. rewrite Hcur, Hget. simpl. rewrite Hcur. simpl.
  split_and!; trivial.
  - by rewrite map_get_alter_eq, Hget.
  - intros k' Hne. by apply map_get_alter_ne.
  - apply map_keys_alter.
  - rewrite lookup_insert_ne by done. by rewrite lookup_insert_eq.
Qed.

Lemma saveChats_spec `{Host} (st : app) :
  saveChats st =
    (Ok tt,
     set_localStorage
       (<[key_current := id_string (currentChatId st)]>
          (<[key_chats := JSON_stringify (map_values (chats st))]> (localStorage st)))
       st).
Proof. reflexivity. Qed.

(** ** Switching the active conversation *)

(** C5, as the code has it.  [switchChat] sets the active pointer to the
    given identifier and persists the chat set and the pointer whatever the
    identifier; it returns normally exactly when the identifier is in the
    map, and otherwise ends with a TypeError after these writes: there is no
    NotFound result. *)
Theorem switchChat_effect `{Host} (st : app) (chatId : str) :
  let st' := exec (switchChat chatId) st in
  currentChatId st' = Some chatId /\
  localStorage st' !! key_current = Some chatId /\
  localStorage st' !! key_chats = Some (JSON_stringify (map_values (chats st))) /\
  chats st' = chats st /\
  outcome (switchChat chatId) st =
    (if map_has chatId (chats st) then Ok tt else Throw TypeError).
Proof.
  unfold switchChat, chat_of, map_has. munfold. rewrite saveChats_spec. simpl.
  destruct (map_get chatId (chats st)) as [c|]; simpl.
  all: split_and!; trivial.
  all: try (by rewrite lookup_insert_eq).
  all: rewrite lookup_insert_ne by done; by rewrite lookup_insert_eq.
Qed.

(** C5, counterexample: an identifier that is not in the map is not refused
    with the state left alone; the pointer and the persisted pointer are
    overwritten before the method ends with a TypeError. *)
Lemma switchChat_absent_counterexample :
  map_has "chat_0" (chats demo_app) = false /\
  outcome (switchChat "chat_0") demo_app = Throw TypeError /\
  currentChatId demo_app = Some demo_id /\
  currentChatId (exec (switchChat "chat_0") demo_app) = Some ("chat_0" : str) /\
  localStorage demo_app !! key_current = Some demo_id /\
  localStorage (exec (switchChat "chat_0") demo_app) !! key_current
    = Some ("chat_0" : str).
Proof. vm_compute. split_and!; reflexivity. Qed.

(** ** Appending *)

Lemma addMessage_ok `{Host} (st : app) (k : str) (c : Chat.t) (role content type : str) :
  currentChatId st = Some k ->
  map_get k (chats st) = Some c ->
  addMessage role content type st =
    (Ok tt, pushed (Msg.mk role content type None) k st).
Proof.
  intros Hcur Hget. unfold addMessage, chat_of, alter_current, pushed. munfold.
  repeat (simpl; rewrite ?Hcur, ?Hget, ?saveChats_spec). reflexivity.
Qed.

Lemma addImageMessage_ok `{Host} (st : app) (k : str) (c : Chat.t) (url caption role : str) :
  currentChatId st = Some k ->
  map_get k (chats st) = Some c ->
  addImageMessage url caption role st =
    (Ok tt, pushed (Msg.mk role url "image" (Some caption)) k st).
Proof.
  intros Hcur Hget. unfold addImageMessage, chat_of, alter_current, pushed. munfold.
  repeat (simpl; rewrite ?Hcur, ?Hget, ?saveChats_spec). reflexivity.
Qed.

Lemma addMessage_absent `{Host} (st : app) (role content type : str) :
  match currentChatId st with
  | Some k => map_get k (chats st) = None
  | None => True
  end ->
  addMessage role content type st = (Throw TypeError, st).
Proof.
  intros Habs. unfold addMessage, chat_of. munfold.
  destruct (currentChatId st) as [k|]; [|done]. by rewrite Habs.
Qed.

Lemma pushed_get `{Host} (m : Msg.t) (k : str) (c : Chat.t) (st : app) :
  map_get k (chats st) = Some c ->
  map_get k (chats (pushed m k st)) = Some (push_message m c).
Proof. intros Hget. unfold pushed. simpl. by rewrite map_get_alter_eq, Hget. Qed.

Lemma pushed_saved `{Host} (m : Msg.t) (k : str) (st : app) :
  localStorage (pushed m k st) !! key_chats
  = Some (JSON_stringify (map_values (chats (pushed m k st)))).
Proof.
  unfold pushed. simpl. rewrite lookup_insert_ne by done. by rewrite lookup_insert_eq.
Qed.

(** ** The typing presenter *)

Lemma reveal_take (flag : bool) (later : nat -> bool) (i : nat) (todo shown : str) :
  exists n, fst (reveal flag later i todo shown) = shown ++ take n todo.
Proof.
  revert flag i shown. induction todo as [|c todo IH]; intros flag i shown; simpl.
  - exists 0. by rewrite app_nil_r.
  - destruct flag; simpl.
    + destruct (IH (later i) (S i) (shown ++ [c])) as [n Hn].
      exists (S n). rewrite Hn. simpl. by rewrite <- app_assoc.
    + exists 0. by rewrite app_nil_r.
Qed.

(** The loop runs to the end when the flag is never found cleared. *)
Lemma reveal_uncancelled (later : nat -> bool) (i : nat) (todo shown : str) :
  (forall j, later j = true) ->
  fst (reveal true later i todo shown) = shown ++ todo.
Proof.
  intros Hl. revert i shown. induction todo as [|c todo IH]; intros i shown; simpl.
  - by rewrite app_nil_r.
  - rewrite Hl, IH. by rewrite <- app_assoc.
Qed.

(** C6.  Whatever the response text and whenever the generation flag is
    found cleared, the text shown when the typing loop stops is a prefix of
    the response, and the message that [typeMessage] then appends to the
    current conversation and persists carries the whole response. *)
Theorem typeMessage_persists_full_text `{Host}
    (st : app) (k : str) (c : Chat.t) (content role type : str) (later : nat -> bool) :
  currentChatId st = Some k ->
  map_get k (chats st) = Some c ->
  let st' := exec (typeMessage content role type later) st in
  fst (reveal (isGenerating st) later 0 content []) `prefix_of` content /\
  outcome (typeMessage content role type later) st = Ok tt /\
  (exists m, Msg.content m = content /\ Msg.role m = role /\
             map_get k (chats st') = Some (push_message m c)) /\
  localStorage st' !! key_chats = Some (JSON_stringify (map_values (chats st'))) /\
  (type ≠ "image" ->
     revealed st' = fst (reveal (isGenerating st) later 0 content []) /\
     streamHtml st' = formatMessage content /\
     map_get k (chats st') = Some (push_message (Msg.mk role content type None) c)).
Proof.
  intros Hcur Hget. split.
  { destruct (reveal_take (isGenerating st) later 0 content []) as [n ->].
    simpl. exists (drop n content). by rewrite take_drop. }
  unfold typeMessage. case_bool_decide as Hty.
  - unfold exec, outcome. rewrite (addImageMessage_ok st k c) by done. simpl.
    split_and!; trivial.
    + eexists. split_and!; [| |by apply pushed_get]; done.
    + apply pushed_saved.
    + done.
  - destruct (reveal (isGenerating st) later 0 content []) as [shown flag] eqn:Hrev.
    unfold exec, outcome, bind, get, modify. simpl.
    rewrite Hrev. simpl.
    erewrite addMessage_ok; [|done..]. simpl.
    split_and!; trivial.
    + eexists. split_and!; [| |by apply pushed_get]; done.
    + apply pushed_saved.
    + intros _. split_and!; trivial. by apply pushed_get.
Qed.

(** ** The request flow on HTTP 401 *)

Lemma pushed_fields `{Host} (m : Msg.t) (k : str) (st : app) :
  currentChatId (pushed m k st) = currentChatId st /\
  isGenerating (pushed m k st) = isGenerating st /\
  userApiKey (pushed m k st) = userApiKey st /\
  apiKeyModalOpen (pushed m k st) = apiKeyModalOpen st /\
  chats (pushed m k st) = map_alter (push_message m) k (chats st) /\
  localStorage (pushed m k st) !! key_api = localStorage st !! key_api.
Proof.
  unfold pushed. simpl. split_and!; trivial.
  by rewrite !lookup_insert_ne.
Qed.

Lemma generateAIResponse_401 `{Host}
    (st : app) (k : str) (c : Chat.t) (m statusText : str) (data : api_data) :
  currentChatId st = Some k ->
  map_get k (chats st) = Some c ->
  generateAIResponse m (Response 401 statusText data) st
  = (Throw (Error msg_401), credential_cleared st).
Proof.
  intros Hcur Hget. unfold generateAIResponse, chat_of. munfold.
  by rewrite Hcur, Hget.
Qed.

Lemma sendMessage_401_eq `{Host}
    (st : app) (k : str) (c : Chat.t) (input statusText : str) (data : api_data)
    (later : nat -> bool) :
  isGenerating st = false ->
  truthy (userApiKey st) = true ->
  trim input ≠ [] ->
  currentChatId st = Some k ->
  map_get k (chats st) = Some c ->
  sendMessage input (Response 401 statusText data) later st =
    (Ok tt,
     pushed (Msg.mk "assistant" ("Error: " ++ msg_401) "text" None) k
       (set_isGenerating false
          (credential_cleared
             (set_isGenerating true
                (pushed (Msg.mk "user" (trim input) "text" None) k st))))).
Proof.
  intros Hgen Hkey Htrim Hcur Hget.
  unfold sendMessage. destruct (trim input) as [|a m] eqn:Em; [done|].
  unfold bind at 1. unfold get at 1. rewrite Hgen, Hkey. cbn [negb].
  unfold bind at 1. rewrite (addMessage_ok st k c) by done.
  unfold bind at 1. unfold showTypingIndicator, modify at 1.
  set (st1 := pushed _ k st).
  assert (Hcur1 : currentChatId (set_isGenerating true st1) = Some k) by done.
  assert (Hget1 : map_get k (chats (set_isGenerating true st1))
                  = Some (push_message (Msg.mk "user" (a :: m) "text" None) c)).
  { simpl. by rewrite map_get_alter_eq, Hget. }
  unfold try_catch. unfold bind at 1.
  rewrite (generateAIResponse_401 _ k _ _ _ _ Hcur1 Hget1).
  unfold bind at 1. unfold removeTypingIndicator, modify at 1.
  erewrite addMessage_ok; [reflexivity|done|].
  simpl. by rewrite map_get_alter_eq, Hget.
Qed.

(** C4, as the code has it.  On HTTP 401 [generateAIResponse] clears the
    credential in memory and in the local store, opens the credential
    dialog and throws, without touching the conversations; its caller
    [sendMessage] has appended the user's message before the request and
    appends the failure as an assistant message in its handler. *)
Theorem sendMessage_on_401 `{Host}
    (st : app) (k : str) (c : Chat.t) (input statusText : str) (data : api_data)
    (later : nat -> bool) :
  isGenerating st = false ->
  truthy (userApiKey st) = true ->
  trim input ≠ [] ->
  currentChatId st = Some k ->
  map_get k (chats st) = Some c ->
  let net := Response 401 statusText data in
  let st' := exec (sendMessage input net later) st in
  outcome (generateAIResponse (trim input) net) st = Throw (Error msg_401) /\
  chats (exec (generateAIResponse (trim input) net) st) = chats st /\
  outcome (sendMessage input net later) st = Ok tt /\
  userApiKey st' = None /\
  localStorage st' !! key_api = None /\
  apiKeyModalOpen st' = true /\
  isGenerating st' = false /\
  map_get k (chats st') =
    Some (Chat.set_messages
            (Chat.messages c ++
               [Msg.mk "user" (trim input) "text" None;
                Msg.mk "assistant" ("Error: " ++ msg_401) "text" None]) c).
Proof.
  intros Hgen Hkey Htrim Hcur Hget net st'.
  subst st' net. unfold exec, outcome.
  rewrite (generateAIResponse_401 st k c) by done.
  rewrite (sendMessage_401_eq st k c) by done.
  split_and!; trivial.
  - unfold pushed, credential_cleared. simpl.
    rewrite !lookup_insert_ne by done. apply lookup_delete_eq.
  - unfold pushed, credential_cleared. simpl.
    rewrite !map_get_alter_eq, Hget. simpl.
    unfold push_message, Chat.set_messages. simpl. by rewrite <- app_assoc.
Qed.

(** C4, counterexample: after a 401 the conversation has grown by two
    messages, the second one being the failure reported by the handler of
    [sendMessage]. *)
Lemma sendMessage_401_counterexample :
  let st' := exec (sendMessage "Hello" (demo_failure 401 "Unauthorized") (fun _ => true))
               demo_app in
  Chat.messages <$> map_get demo_id (chats demo_app) = Some [] /\
  Chat.messages <$> map_get demo_id (chats st') =
    Some [Msg.mk "user" "Hello" "text" None;
          Msg.mk "assistant" "Error: API key invalid. Please update your API key."
            "text" None] /\
  userApiKey st' = None.
Proof. vm_compute. split_and!; reflexivity. Qed.

(** ** Titles *)

Section Titles.
Context `{Host}.

Lemma same_titles_refl st : same_titles st st.
Proof. by intros k. Qed.

Lemma same_titles_trans st1 st2 st3 :
  same_titles st1 st2 -> same_titles st2 st3 -> same_titles st1 st3.
Proof. intros H12 H23 k. by rewrite H23, H12. Qed.

Lemma same_titles_chats st st' : chats st' = chats st -> same_titles st st'.
Proof. intros Hc k. unfold title_of. by rewrite Hc. Qed.

Lemma keeps_ret {A} (a : A) : keeps_titles (ret a).
Proof. intros st. apply same_titles_refl. Qed.

Lemma keeps_throw {A} (e : exn) : keeps_titles (@throw A e).
Proof. intros st. apply same_titles_refl. Qed.

Lemma keeps_get : keeps_titles get.
Proof. intros st. apply same_titles_refl. Qed.

Lemma keeps_bind {A B} (c : M A) (k : A -> M B) :
  keeps_titles c -> (forall a, keeps_titles (k a)) -> keeps_titles (bind c k).
Proof.
  intros Hc Hk st. unfold exec, bind. specialize (Hc st). unfold exec in Hc.
  destruct (c st) as [[a|e] st1]; simpl in *; [|done].
  eapply same_titles_trans; [exact Hc|]. apply Hk.
Qed.

Lemma keeps_try {A} (c : M A) (h : exn -> M A) :
  keeps_titles c -> (forall e, keeps_titles (h e)) -> keeps_titles (try_catch c h).
Proof.
  intros Hc Hh st. unfold exec, try_catch. specialize (Hc st). unfold exec in Hc.
  destruct (c st) as [[a|e] st1]; simpl in *; [done|].
  eapply same_titles_trans; [exact Hc|]. apply Hh.
Qed.

Lemma keeps_modify (f : app -> app) :
  (forall st, chats (f st) = chats st) -> keeps_titles (modify f).
Proof. intros Hf st. by apply same_titles_chats. Qed.

Lemma keeps_alter (f : Chat.t -> Chat.t) :
  (forall c, Chat.title (f c) = Chat.title c) -> keeps_titles (alter_current f).
Proof.
  intros Hf st k. unfold exec, alter_current, modify, title_of. simpl.
  destruct (currentChatId st) as [k0|]; [|done]. simpl.
  destruct (decide (k = k0)) as [->|Hne].
  - rewrite map_get_alter_eq. destruct (map_get k0 (chats st)); simpl; [|done].
    by rewrite Hf.
  - by rewrite map_get_alter_ne.
Qed.

Lemma keeps_saveChats : keeps_titles saveChats.
Proof. by apply keeps_modify. Qed.

Lemma keeps_chat_of id : keeps_titles (chat_of id).
Proof.
  intros st. unfold exec, chat_of, bind, get. simpl.
  destruct id as [k|]; [destruct (map_get k (chats st))|]; apply same_titles_refl.
Qed.

Ltac keeps :=
  repeat first
    [ progress intros
    | apply keeps_bind | apply keeps_try
    | apply keeps_ret | apply keeps_throw | apply keeps_get
    | apply keeps_saveChats | apply keeps_chat_of
    | apply keeps_alter; done
    | apply keeps_modify; done
    | match goal with |- keeps_titles (match ?x with _ => _ end) => destruct x end
    | match goal with |- keeps_titles (if ?x then _ else _) => destruct x end ].


Lemma keeps_addImageMessage url caption role :
  keeps_titles (addImageMessage url caption role).
Proof. unfold addImageMessage. keeps. Qed.

Lemma keeps_typeMessage content role type later :
  keeps_titles (typeMessage content role type later).
Proof.
  unfold typeMessage. case_bool_decide; [apply keeps_addImageMessage|].
  apply keeps_bind; [apply keeps_get|]. intros st.
  destruct (reveal _ _ _ _ _). keeps.
Qed.



























End Titles.

(** ** Start-up and persistence *)

Section Persistence.
Context `{Host}.

Lemma createNewChat_spec (now : N) (iso : str) (st : app) :
  createNewChat now iso st =
    (Ok tt,
     exec saveChats
       (set_currentChatId (Some (chat_id_at now))
          (set_chats
             (map_set (chat_id_at now) (fresh_chat now iso (currentMode st)) (chats st))
             st))).
Proof. reflexivity. Qed.

Lemma sort_chats_single (c : Chat.t) : sort_chats [c] = [c].
Proof. reflexivity. Qed.

Lemma loadChats_bootstrap (now : N) (iso : str) (st : app) :
  chats st = [] ->
  no_history (localStorage st) ->
  loadChats now iso st = createNewChat now iso st.
Proof.
  intros Hempty Hno. unfold loadChats. unfold bind at 1. unfold get at 1.
  assert (Hguard :
    truthy (localStorage st !! key_chats)
    && is_foreign (JSON_parse (default [] (localStorage st !! key_chats))) = false).
  { destruct Hno as [Hn|[Hn|(blob & Hb & [Hp|Hp])]].
    - by rewrite Hn.
    - by rewrite Hn.
    - rewrite Hb. simpl. rewrite Hp. apply andb_false_r.
    - rewrite Hb. simpl. rewrite Hp. apply andb_false_r. }
  rewrite Hguard.
  assert (Hfirst :
    (if truthy (localStorage st !! key_chats)
     then try_catch
            match JSON_parse (default [] (localStorage st !! key_chats)) with
            | Records chatsArray => modify (set_chats (map_of_chats chatsArray))
            | _ => throw (Error "JSON.parse")
            end (fun _ => modify (set_chats []))
     else ret ()) st = (Ok tt, st)).
  { assert (Hst : set_chats [] st = st) by (destruct st; simpl in *; by subst).
    destruct Hno as [Hn|[Hn|(blob & Hb & [Hp|Hp])]]; try (by rewrite Hn).
    - rewrite Hb. simpl. rewrite Hp. destruct blob; [done|]. simpl.
      unfold try_catch, throw, modify. by rewrite Hst.
    - rewrite Hb. simpl. rewrite Hp. destruct blob; [done|]. simpl.
      unfold try_catch, modify. simpl.
      change (map_of_chats []) with (@nil (str * Chat.t)). by rewrite Hst. }
  unfold bind at 1. rewrite Hfirst.
  unfold bind at 1. unfold get at 1. rewrite Hempty.
  rewrite andb_comm. reflexivity.
Qed.

(** [loadChats] never throws. *)
Lemma loadChats_returns (now : N) (iso : str) (st : app) :
  outcome (loadChats now iso) st = Ok tt.
Proof.
  unfold loadChats, outcome. unfold bind at 1. unfold get at 1.
  destruct (truthy (localStorage st !! key_chats)); simpl.
  - destruct (JSON_parse _); simpl; [| |done].
    + unfold bind, try_catch, get. simpl. destruct (_ && _); [done|].
      destruct (map_keys _); done.
    + unfold bind, try_catch, get. simpl. by rewrite andb_comm.
  - unfold ret, bind, get. simpl. destruct (_ && _); [done|].
    destruct (map_keys _); done.
Qed.

End Persistence.

(** C7.  [loadChats] returns normally from every state, whatever the local
    store holds.  Started on an empty map with a chat entry that is
    missing, is the empty string, raises in the [try] block (text that does
    not parse, or a value that [chatsArray.map(...)] fails on) or is the
    empty array, it creates exactly one conversation, empty and under the
    sentinel title, makes it the active one, and the chat list then
    consists of it; the state is the one reached from a store without the
    entry. *)
Theorem loadChats_never_throws_and_bootstraps `{Host}
    (st : app) (now : N) (iso : str) :
  outcome (loadChats now iso) st = Ok tt /\
  (chats st = [] ->
   no_history (localStorage st) ->
   let st' := exec (loadChats now iso) st in
   let c := fresh_chat now iso (currentMode st) in
   chats st' = [(chat_id_at now, c)] /\
   currentChatId st' = Some (chat_id_at now) /\
   list_chats st' = [c] /\
   st' = exec (loadChats now iso)
           (set_localStorage (delete key_chats (localStorage st)) st)).
Proof.
  split; [apply loadChats_returns|].
  intros Hempty Hno st' c. subst st'. unfold exec.
  rewrite loadChats_bootstrap by done.
  rewrite loadChats_bootstrap; [|done|left; apply lookup_delete_eq].
  rewrite !createNewChat_spec. unfold exec. rewrite !saveChats_spec. simpl.
  rewrite Hempty. simpl. split_and!; trivial.
  by rewrite insert_delete_eq.
Qed.

(** C7, witness: a store whose chat entry is not JSON, and one whose chat
    entry is the empty array. *)
Lemma loadChats_bootstrap_witness :
  let malformed := new_app (<[key_chats := "{oops" : str]> ∅) in
  let emptied := new_app (<[key_chats := "[]" : str]> ∅) in
  (JSON_parse "{oops" = Raises /\
   no_history (localStorage malformed) /\
   list_chats (exec (loadChats demo_now demo_iso) malformed)
   = [fresh_chat demo_now demo_iso "chat"]) /\
  (JSON_parse "[]" = Records [] /\
   no_history (localStorage emptied) /\
   list_chats (exec (loadChats demo_now demo_iso) emptied)
   = [fresh_chat demo_now demo_iso "chat"]).
Proof.
  intros malformed emptied.
  assert (Hp1 : JSON_parse "{oops" = Raises) by (vm_compute; reflexivity).
  assert (Hp2 : JSON_parse "[]" = Records []) by (vm_compute; reflexivity).
  assert (Hno1 : no_history (localStorage malformed)).
  { right. right. exists ("{oops" : str). split; [vm_compute; reflexivity|by left]. }
  assert (Hno2 : no_history (localStorage emptied)).
  { right. right. exists ("[]" : str). split; [vm_compute; reflexivity|by right]. }
  split; (split; [done|]); (split; [done|]).
  - exact (proj1 (proj2 (proj2 (proj2 (loadChats_never_throws_and_bootstraps
             malformed demo_now demo_iso) eq_refl Hno1)))).
  - exact (proj1 (proj2 (proj2 (proj2 (loadChats_never_throws_and_bootstraps
             emptied demo_now demo_iso) eq_refl Hno2)))).
Defined.

(** ** The round trip through the local store *)

Section RoundTrip.
Context `{Host}.

Lemma map_set_fresh {V} (k : str) (v : V) (m : list (str * V)) :
  k ∉ map_keys m -> map_set k v m = m ++ [(k, v)].
Proof.
  induction m as [|[k0 v0] m IH]; simpl; [done|].
  intros Hnotin. apply not_elem_of_cons in Hnotin as [Hne Hnotin].
  rewrite decide_False by done. by rewrite IH.
Qed.

Lemma map_keys_set {V} (k : str) (v : V) (m : list (str * V)) :
  map_keys (map_set k v m) = if map_has k m then map_keys m else map_keys m ++ [k].
Proof.
  unfold map_has. induction m as [|[k0 v0] m IH]; simpl; [done|].
  destruct (decide (k = k0)) as [->|Hne]; simpl; [done|].
  rewrite IH. by destruct (map_get k m).
Qed.

Lemma map_get_None_keys {V} (k : str) (m : list (str * V)) :
  map_get k m = None <-> k ∉ map_keys m.
Proof.
  induction m as [|[k0 v0] m IH]; simpl.
  - split; [intros _; apply not_elem_of_nil|done].
  - rewrite not_elem_of_cons. destruct (decide (k = k0)); [|tauto].
    split; [done|tauto].
Qed.

Lemma wf_map_set (c : Chat.t) (m : list (str * Chat.t)) :
  wf_chats m -> wf_chats (map_set (Chat.id c) c m).
Proof.
  intros [Hnd Hid]. split.
  - rewrite map_keys_set. unfold map_has.
    destruct (map_get (Chat.id c) m) eqn:Hg; [done|].
    apply NoDup_app. split_and!; [done| |apply NoDup_singleton].
    intros k Hk ->%list_elem_of_singleton. by apply map_get_None_keys in Hg.
  - clear Hnd. induction Hid as [|[k0 v0] m Hk Hid IH]; simpl.
    + by repeat constructor.
    + destruct (decide (Chat.id c = k0)); constructor; done.
Qed.

Lemma wf_map_alter (f : Chat.t -> Chat.t) (k : str) (m : list (str * Chat.t)) :
  (forall c, Chat.id (f c) = Chat.id c) -> wf_chats m -> wf_chats (map_alter f k m).
Proof.
  intros Hf [Hnd Hid]. split; [by rewrite map_keys_alter|].
  clear Hnd. induction Hid as [|[k0 v0] m Hk Hid IH]; simpl; [constructor|].
  destruct (decide (k = k0)); constructor; simpl in *; try done.
  by rewrite Hf.
Qed.

(** Rebuilding the map from its values gives the map back. *)
Lemma map_of_chats_app (m1 m2 : list (str * Chat.t)) :
  wf_chats (m1 ++ m2) ->
  fold_left (fun m chat => map_set (Chat.id chat) chat m) (map_values m2) m1 = m1 ++ m2.
Proof.
  revert m1. induction m2 as [|[k c] m2 IH]; intros m1 Hwf; simpl.
  - by rewrite app_nil_r.
  - assert (Hk : k = Chat.id c).
    { destruct Hwf as [_ Hid]. rewrite Forall_app in Hid. destruct Hid as [_ Hid].
      by inversion Hid. }
    subst k. rewrite map_set_fresh.
    + rewrite IH; rewrite <- app_assoc; done.
    + destruct Hwf as [Hnd _]. unfold map_keys in *. rewrite map_app in Hnd.
      apply NoDup_app in Hnd as (_ & Hdisj & _). intros Hin.
      apply (Hdisj _ Hin). simpl. left.
Qed.

Lemma map_of_chats_values (m : list (str * Chat.t)) :
  wf_chats m -> map_of_chats (map_values m) = m.
Proof. intros Hwf. unfold map_of_chats. by rewrite map_of_chats_app. Qed.

Lemma sort_insert_perm (x : Chat.t) (l : list Chat.t) :
  Permutation (sort_insert x l) (x :: l).
Proof.
  induction l as [|y l IH]; simpl; [done|].
  destruct (Z.ltb 0 (newer_first y x)); [done|].
  rewrite IH. apply perm_swap.
Qed.

Lemma sort_chats_perm (l : list Chat.t) : Permutation (sort_chats l) l.
Proof.
  unfold sort_chats. rewrite <- (app_nil_l l) at 2. generalize (@nil Chat.t) as acc.
  induction l as [|x l IH]; intros acc; simpl.
  - by rewrite app_nil_r.
  - rewrite IH, sort_insert_perm. simpl. apply Permutation_middle.
Qed.

(** Hydrating a fresh instance from a store that holds the array of a map
    and a pointer into it restores both, when the host's JSON reads the
    array back. *)
Lemma loadChats_from_saved (chs : list (str * Chat.t)) (k blob : str)
    (storage : gmap str str) (now : N) (iso : str) :
  wf_chats chs ->
  k ≠ [] ->
  map_has k chs = true ->
  storage !! key_chats = Some blob ->
  storage !! key_current = Some k ->
  blob ≠ [] ->
  JSON_parse blob = Records (map_values chs) ->
  loadChats now iso (new_app storage) =
    (Ok tt, set_currentChatId (Some k) (set_chats chs (new_app storage))).
Proof.
  intros Hwf Hk Hhas Hc Hp Hne Hrt.
  unfold loadChats. unfold bind at 1. unfold get at 1.
  change (localStorage (new_app storage)) with storage. rewrite Hc, Hp.
  destruct blob as [|b blob]; [done|]. destruct k as [|a k]; [done|].
  cbn [truthy default from_option id]. rewrite Hrt.
  unfold bind, try_catch, modify, get. cbn [fst snd chats set_chats].
  rewrite map_of_chats_values by done. rewrite Hhas. reflexivity.
Qed.

Lemma saved_fields (st : app) :
  chats (exec saveChats st) = chats st /\
  currentChatId (exec saveChats st) = currentChatId st /\
  currentMode (exec saveChats st) = currentMode st /\
  localStorage (exec saveChats st) !! key_chats
    = Some (JSON_stringify (map_values (chats st))) /\
  localStorage (exec saveChats st) !! key_current
    = Some (id_string (currentChatId st)).
Proof.
  unfold exec. rewrite saveChats_spec. simpl. split_and!; trivial.
  - rewrite lookup_insert_ne by done. by rewrite lookup_insert_eq.
  - by rewrite lookup_insert_eq.
Qed.

Lemma bind_ok {A B} (c : M A) (k : A -> M B) (st st1 : app) (a : A) :
  c st = (Ok a, st1) -> bind c k st = k a st1.
Proof. intros Hc. unfold bind. by rewrite Hc. Qed.

Lemma updateChatTitle_fires (text : str) (st : app) (k : str) (c : Chat.t) :
  currentChatId st = Some k ->
  map_get k (chats st) = Some c ->
  length (Chat.messages c) = 2 ->
  Chat.title c = "New Chat" ->
  updateChatTitleFromFirstMessage text st =
    (Ok tt,
     exec saveChats
       (set_chats (map_alter (Chat.set_title (truncateText text 25)) k (chats st)) st)).
Proof.
  intros Hcur Hget Hlen Htitle.
  unfold updateChatTitleFromFirstMessage, chat_of, alter_current.
  unfold bind at 1. unfold get at 1.
  unfold bind at 1. unfold bind at 1. unfold get at 1. rewrite Hcur, Hget. cbn [ret].
  rewrite Hlen, Htitle. cbn [Nat.eqb andb]. rewrite bool_decide_eq_true_2 by done.
  unfold bind, modify. by rewrite Hcur.
Qed.

Lemma two_appends_spec (now : N) (iso : str)
    (role1 content1 type1 role2 content2 type2 : str) (retitle : bool) (st0 : app) :
  wf_chats (chats st0) ->
  let flow := two_appends now iso role1 content1 type1 role2 content2 type2 retitle in
  let st := exec flow st0 in
  outcome flow st0 = Ok tt /\
  wf_chats (chats st) /\
  currentChatId st = Some (chat_id_at now) /\
  map_get (chat_id_at now) (chats st) =
    Some (Chat.mk (chat_id_at now)
            (if retitle then truncateText content1 25 else "New Chat")
            [Msg.mk role1 content1 type1 None; Msg.mk role2 content2 type2 None]
            (currentMode st0) iso) /\
  localStorage st !! key_chats = Some (JSON_stringify (map_values (chats st))) /\
  localStorage st !! key_current = Some (chat_id_at now).
Proof.
  intros Hwf flow st. subst st. unfold exec, outcome.
  destruct (flow st0) as [r st] eqn:Hflow. cbn [fst snd].
  subst flow. unfold two_appends in Hflow.
  erewrite bind_ok in Hflow by apply createNewChat_spec.
  set (st1 := exec saveChats _) in Hflow.
  assert (Hcur1 : currentChatId st1 = Some (chat_id_at now)) by done.
  assert (Hget1 : map_get (chat_id_at now) (chats st1)
                  = Some (fresh_chat now iso (currentMode st0))).
  { subst st1. simpl. apply map_get_set_eq. }
  assert (Hwf1 : wf_chats (chats st1)).
  { subst st1. simpl. by apply (wf_map_set (fresh_chat now iso (currentMode st0))). }
  clearbody st1.
  erewrite bind_ok in Hflow by (by apply (addMessage_ok st1 _ _ _ _ _ Hcur1 Hget1)).
  set (m1 := Msg.mk role1 content1 type1 None) in *.
  pose proof (pushed_get m1 _ _ st1 Hget1) as Hget2.
  assert (Hcur2 : currentChatId (pushed m1 (chat_id_at now) st1) = Some (chat_id_at now)) by done.
  assert (Hwf2 : wf_chats (chats (pushed m1 (chat_id_at now) st1))).
  { unfold pushed. simpl. by apply wf_map_alter. }
  set (st2 := pushed m1 _ st1) in *. clearbody st2.
  erewrite bind_ok in Hflow by (by apply (addMessage_ok st2 _ _ _ _ _ Hcur2 Hget2)).
  set (m2 := Msg.mk role2 content2 type2 None) in *.
  pose proof (pushed_get m2 _ _ st2 Hget2) as Hget3.
  assert (Hcur3 : currentChatId (pushed m2 (chat_id_at now) st2) = Some (chat_id_at now)) by done.
  assert (Hwf3 : wf_chats (chats (pushed m2 (chat_id_at now) st2))).
  { unfold pushed. simpl. by apply wf_map_alter. }
  pose proof (pushed_saved m2 (chat_id_at now) st2) as Hsaved3.
  assert (Hptr3 : localStorage (pushed m2 (chat_id_at now) st2) !! key_current
                  = Some (chat_id_at now)).
  { unfold pushed. destruct (saved_fields (set_chats (map_alter (push_message m2)
      (chat_id_at now) (chats st2)) st2)) as (_ & _ & _ & _ & ->). simpl. by rewrite Hcur2. }
  set (st3 := pushed m2 _ st2) in *. clearbody st3.
  destruct retitle.
  - rewrite (updateChatTitle_fires _ st3 _ _ Hcur3 Hget3) in Hflow by done.
    injection Hflow as <- <-.
    set (st4 := set_chats _ st3).
    destruct (saved_fields st4) as (Hc & Hp & _ & Hsc & Hsp).
    rewrite Hc, Hp, Hsc, Hsp.
    subst st4. simpl. rewrite map_get_alter_eq, Hget3, Hcur3. simpl.
    split_and!; trivial. by apply wf_map_alter.
  - injection Hflow as <- <-. split_and!; trivial.
Qed.

End RoundTrip.

(** ** A successful exchange *)

Section Exchange.
Context `{Host}.

Lemma generateAIResponse_ok (st : app) (k : str) (c : Chat.t)
    (m statusText : str) (status : nat) (data : api_data) :
  currentChatId st = Some k ->
  map_get k (chats st) = Some c ->
  response_ok status = true ->
  success data = true ->
  generateAIResponse m (Response status statusText data) st = (Ok (d_content data), st).
Proof.
  intros Hcur Hget Hok Hsucc. unfold generateAIResponse, chat_of. munfold.
  by rewrite Hcur, Hget, Hok, Hsucc.
Qed.

Lemma typeMessage_text_eq (st : app) (k : str) (c : Chat.t)
    (content role : str) (later : nat -> bool) :
  currentChatId st = Some k ->
  map_get k (chats st) = Some c ->
  typeMessage content role "text" later st =
    (Ok tt,
     pushed (Msg.mk role content "text" None) k
       (set_stream (reveal (isGenerating st) later 0 content []).1
          (formatMessage content)
          (set_isGenerating (reveal (isGenerating st) later 0 content []).2 st))).
Proof.
  intros Hcur Hget. unfold typeMessage. rewrite bool_decide_eq_false_2 by done.
  unfold bind at 1. unfold get at 1.
  destruct (reveal (isGenerating st) later 0 content []) as [shown flag].
  unfold bind, modify. cbn [fst snd].
  by erewrite addMessage_ok.
Qed.

Lemma updateChatTitle_skips (text : str) (st : app) (k : str) (c : Chat.t) :
  currentChatId st = Some k ->
  map_get k (chats st) = Some c ->
  length (Chat.messages c) <> 2 \/ Chat.title c <> "New Chat" ->
  updateChatTitleFromFirstMessage text st = (Ok tt, st).
Proof.
  intros Hcur Hget Hskip.
  unfold updateChatTitleFromFirstMessage, chat_of.
  unfold bind at 1. unfold get at 1.
  unfold bind at 1. unfold bind at 1. unfold get at 1. rewrite Hcur, Hget. cbn [ret].
  destruct Hskip as [Hlen|Htitle].
  - apply Nat.eqb_neq in Hlen. by rewrite Hlen.
  - rewrite (bool_decide_eq_false_2 _ Htitle). by rewrite andb_false_r.
Qed.


End Exchange.




(** C8, as the code has it.  After [createNewChat] and two [addMessage],
    whatever the messages, a fresh instance hydrated from the local store
    holds the same map and the same active pointer, and its chat list
    contains the conversation with the two messages in the order of the
    calls, provided the host's JSON reads back the array that it wrote.  The
    title that comes back is the stored one: the sentinel after the two
    appends alone, and [truncateText] at 25 of the first message's content
    once the title step of a successful flow has run. *)
Theorem persistence_round_trip `{Host}
    (st0 : app) (now : N) (iso : str)
    (role1 content1 type1 role2 content2 type2 : str) (retitle : bool)
    (now' : N) (iso' : str) :
  wf_chats (chats st0) ->
  let st := exec (two_appends now iso role1 content1 type1 role2 content2 type2 retitle) st0 in
  let saved := JSON_stringify (map_values (chats st)) in
  saved ≠ [] ->
  JSON_parse saved = Records (map_values (chats st)) ->
  let st' := exec (loadChats now' iso') (new_app (localStorage st)) in
  chats st' = chats st /\
  currentChatId st' = Some (chat_id_at now) /\
  Chat.mk (chat_id_at now)
    (if retitle then truncateText content1 25 else "New Chat")
    [Msg.mk role1 content1 type1 None; Msg.mk role2 content2 type2 None]
    (currentMode st0) iso ∈ list_chats st'.
Proof.
  intros Hwf st saved Hne Hrt st'.
  destruct (two_appends_spec now iso role1 content1 type1 role2 content2 type2
              retitle st0 Hwf) as (_ & Hwf' & Hcur & Hget & Hsaved & Hptr).
  fold st in Hwf', Hcur, Hget, Hsaved, Hptr.
  assert (Hload : loadChats now' iso' (new_app (localStorage st)) =
    (Ok tt, set_currentChatId (Some (chat_id_at now))
              (set_chats (chats st) (new_app (localStorage st))))).
  { apply (loadChats_from_saved _ _ saved); try done.
    unfold map_has. by rewrite Hget. }
  subst st'. unfold exec at 1 2 3. rewrite Hload. cbn [snd].
  split_and!; trivial.
  unfold list_chats. rewrite sort_chats_perm. simpl.
  apply list_elem_of_In. eapply map_get_In. exact Hget.
Qed.

(** C8, witness: two text messages and the title step, on the JSON host. *)
Lemma persistence_round_trip_witness :
  let st := exec (two_appends demo_now demo_iso "user" "Hello" "text"
                    "assistant" "Hi there" "text" true) (new_app ∅) in
  wf_chats (chats (new_app ∅)) /\
  JSON_parse (JSON_stringify (map_values (chats st))) = Records (map_values (chats st)) /\
  Chat.mk demo_id "Hello"
    [Msg.mk "user" "Hello" "text" None; Msg.mk "assistant" "Hi there" "text" None]
    "chat" demo_iso
  ∈ list_chats (exec (loadChats 0 []) (new_app (localStorage st))).
Proof.
  assert (Hwf : wf_chats (chats (new_app ∅))).
  { split; [apply NoDup_nil_2|apply Forall_nil_2]. }
  split; [exact Hwf|]. split; [vm_compute; reflexivity|].
  apply (persistence_round_trip (new_app ∅) demo_now demo_iso "user" "Hello" "text"
           "assistant" "Hi there" "text" true 0 [] Hwf).
  - vm_compute. discriminate.
  - vm_compute. reflexivity.
Defined.

(** C8, counterexample: the two appends of a failed first exchange are
    stored and come back in order, under the sentinel title and not under a
    title derived from the first message. *)
Lemma persistence_title_counterexample :
  let st := exec (sendMessage "Hello" (demo_failure 500 "Server Error") (fun _ => true))
              demo_app in
  let st' := exec (loadChats 0 []) (new_app (localStorage st)) in
  map_get demo_id (chats st') =
    Some (Chat.mk demo_id "New Chat"
            [Msg.mk "user" "Hello" "text" None;
             Msg.mk "assistant" "Error: Request failed: Server Error" "text" None]
            "chat" demo_iso) /\
  truncateText "Hello" 25 = ("Hello" : str).
Proof. vm_compute. split; reflexivity. Qed.

(** ** The matcher *)

Lemma replace_from_no_match (r : regex) (f : str -> caps -> str)
    (prev : option ascii) (s : str) :
  Forall (fun pt => rexec r pt.1 pt.2 = None) (positions prev s) ->
  replace_from r f prev s 0 = s.
Proof.
  revert prev. induction s as [|c s IH]; intros prev Hall.
  - simpl in *. inversion Hall as [|? ? Hhd _]. simpl in Hhd. by rewrite Hhd.
  - cbn [positions] in Hall. inversion Hall as [|? ? Hhd Htl]. simpl in Hhd.
    cbn [replace_from]. rewrite Hhd. f_equal. by apply IH.
Qed.

Lemma replace_all_no_match (r : regex) (f : str -> caps -> str) (s : str) :
  Forall (fun pt => rexec r pt.1 pt.2 = None) (positions None s) ->
  replace_all r f s = s.
Proof. apply replace_from_no_match. Qed.

Lemma rmatch_lit_prefix (r : regex) (prev : option ascii) (s : str) (cs : caps)
    (kont : mcont) (res : str * caps) :
  rmatch r prev s cs kont = Some res ->
  exists s', s = (lit_prefix r).1 ++ s' /\
    ((lit_prefix r).2 = true -> exists prev' cs', kont prev' s' cs' = Some res).
Proof.
  revert prev s cs kont res.
  induction r as [| k | | | r1 IH1 r2 IH2 | r1 IH1 | k | k | k | n r1 IH1];
    intros prev s cs kont res Hm; cbn [rmatch lit_prefix] in *.
  - exists s. split; [done|]. intros _. by exists prev, cs.
  - destruct k; try (exists s; split; [done|]; intros [=]).
    destruct s as [|a s]; [done|]. simpl in Hm.
    destruct (Ascii.eqb_spec a c) as [->|]; [|done].
    exists s. split; [done|]. intros _. by exists (Some c), cs.
  - destruct (at_line_start prev); [|done].
    exists s. split; [done|]. intros _. by exists prev, cs.
  - destruct (at_line_end s); [|done].
    exists s. split; [done|]. intros _. by exists prev, cs.
  - apply IH1 in Hm as (s1 & -> & Hfull1).
    destruct (lit_prefix r1) as [p1 full1]. simpl in *.
    destruct full1; [|exists s1; split; [done|]; intros [=]].
    destruct (Hfull1 eq_refl) as (prev' & cs' & Hk).
    apply IH2 in Hk as (s2 & -> & Hfull2).
    destruct (lit_prefix r2) as [p2 full2]. simpl in *.
    exists s2. split; [by rewrite app_assoc|done].
  - exists s. split; [done|]. intros [=].
  - exists s. split; [done|]. intros [=].
  - exists s. split; [done|]. intros [=].
  - exists s. split; [done|]. intros [=].
  - apply IH1 in Hm as (s1 & -> & _). exists s1. split; [done|]. intros [=].
Qed.

Lemma rexec_lit_prefix (r : regex) (prev : option ascii) (s : str) :
  (lit_prefix r).1 <> take (length (lit_prefix r).1) s -> rexec r prev s = None.
Proof.
  intros Hne. unfold rexec.
  destruct (rmatch r prev s [] _) as [res|] eqn:Hm; [|done].
  apply rmatch_lit_prefix in Hm as (s' & -> & _).
  rewrite take_app_length in Hne. done.
Qed.

Lemma no_match_without_first_char (r : regex) (c : ascii) (p : str)
    (prev : option ascii) (s : str) :
  (lit_prefix r).1 = c :: p ->
  c ∉ s ->
  Forall (fun pt => rexec r pt.1 pt.2 = None) (positions prev s).
Proof.
  intros Hp. revert prev. induction s as [|a s IH]; intros prev Hc.
  - constructor; [|constructor]. apply rexec_lit_prefix. by rewrite Hp.
  - apply not_elem_of_cons in Hc as [Hne Hc]. cbn [positions]. constructor; [|by apply IH].
    apply rexec_lit_prefix. rewrite Hp. simpl. congruence.
Qed.

(** A rule whose matches begin with a character that the subject does not
    contain leaves the subject as it is. *)
Lemma replace_all_without_first_char (r : regex) (f : str -> caps -> str)
    (c : ascii) (p : str) (s : str) :
  (lit_prefix r).1 = c :: p -> c ∉ s -> replace_all r f s = s.
Proof.
  intros Hp Hc. apply replace_from_no_match. by eapply no_match_without_first_char.
Qed.

Lemma fmt_br_nl2br (s : str) : fmt_br s = nl2br s.
Proof.
  unfold fmt_br, replace_all. generalize (@None ascii) as prev.
  induction s as [|c s IH]; intros prev; [reflexivity|].
  cbn [replace_from nl2br flat_map]. unfold rexec. cbn [rmatch cls_in].
  destruct (Ascii.eqb c ch_nl).
  - cbn [length]. rewrite Nat.sub_succ_l by lia. rewrite Nat.sub_diag.
    rewrite IH. reflexivity.
  - by rewrite IH.
Qed.

Lemma nl2br_no_nl (s : str) : ch_nl ∉ s -> nl2br s = s.
Proof.
  induction s as [|c s IH]; [done|]. intros [Hne Hs]%not_elem_of_cons.
  simpl. destruct (Ascii.eqb_spec c ch_nl); [congruence|]. simpl. by rewrite IH.
Qed.

(** The stages that start on a markup character. *)
Lemma first_chars :
  (lit_prefix re_bold).1 = ["*"%char] /\
  (lit_prefix re_italic).1 = ["_"%char] /\
  (lit_prefix re_strike).1 = ["~"%char] /\
  (lit_prefix re_inline_code).1 = ["`"%char] /\
  (lit_prefix re_fence).1 = list_ascii_of_string "```" /\
  (lit_prefix re_quote).1 = list_ascii_of_string "> " /\
  (lit_prefix re_list_item).1 = list_ascii_of_string "- " /\
  (lit_prefix re_list_run).1 = "<li class=" ++ q "list-item" ++ ">".
Proof. repeat split. Qed.

Lemma rexec_bol_fail (r : regex) (prev : option ascii) (s : str) :
  at_line_start prev = false -> rexec (RSeq RBol r) prev s = None.
Proof. intros Hb. unfold rexec. cbn [rmatch]. by rewrite Hb. Qed.

Lemma starts_with_false (p s : str) :
  starts_with p s = false -> p <> take (length p) s.
Proof. unfold starts_with. intros Hs%bool_decide_eq_false. congruence. Qed.

(** A rule anchored at a line start, on a position that is no line start or
    does not carry its literal. *)
Lemma rexec_line_rule (r : regex) (prev : option ascii) (s : str) :
  at_line_start prev && starts_with (lit_prefix (RSeq RBol r)).1 s = false ->
  rexec (RSeq RBol r) prev s = None.
Proof.
  intros [Hb|Hs]%andb_false_iff; [by apply rexec_bol_fail|].
  apply rexec_lit_prefix. by apply starts_with_false.
Qed.


Lemma plain_chars (x : str) :
  is_plain x = true ->
  (forall c, c ∈ x -> markup_char c = false) /\ list_line_from None x = false.
Proof.
  unfold is_plain. intros [Hall Hl]%andb_true_iff. split.
  - intros c Hc. rewrite forallb_forall in Hall.
    apply negb_true_iff, Hall. by apply list_elem_of_In.
  - by apply negb_true_iff.
Qed.

Lemma not_markup (x : str) (c : ascii) :
  (forall a, a ∈ x -> markup_char a = false) -> markup_char c = true -> c ∉ x.
Proof. intros Hall Hc Hin. apply Hall in Hin. congruence. Qed.


Lemma nl2br_chars (x : str) (c : ascii) :
  c ∈ nl2br x -> (c ∈ x /\ c <> ch_nl) \/ c ∈ list_ascii_of_string "<br>".
Proof.
  induction x as [|a x IH]; simpl; [by intros ?%elem_of_nil|].
  destruct (Ascii.eqb_spec a ch_nl) as [->|Hne].
  - intros [Hbr|Hin]%elem_of_app; [by right|].
    destruct (IH Hin) as [[? ?]|?]; [left; split; [by right|done]|by right].
  - simpl. intros [->|Hin]%elem_of_cons; [left; split; [by left|done]|].
    destruct (IH Hin) as [[? ?]|?]; [left; split; [by right|done]|by right].
Qed.

Lemma markup_char_false (c : ascii) :
  markup_char c = false ->
  c <> "*"%char /\ c <> "_"%char /\ c <> "~"%char /\ c <> "`"%char /\
  c <> "<"%char /\ c <> ">"%char.
Proof.
  unfold markup_char. simpl. intros Hm. split_and!; intros ->; done.
Qed.

Lemma take_mismatch (p1 p2 t : str) :
  p1 <> take (length p1) t -> p1 ++ p2 <> take (length (p1 ++ p2)) t.
Proof.
  intros Hne Heq. apply Hne.
  apply (f_equal (take (length p1))) in Heq.
  rewrite take_app_length, take_take, length_app in Heq.
  by rewrite Nat.min_l in Heq by lia.
Qed.



(** ** The code-block rule after the inline-code rule *)

Lemma run_rest (c : ascii) (s : str) : run_before c s ++ rest_from c s = s.
Proof.
  induction s as [|a s IH]; [done|]. simpl.
  destruct (Ascii.eqb a c); [done|]. simpl. by rewrite IH.
Qed.

Lemma run_before_free (c : ascii) (s : str) : c ∉ run_before c s.
Proof.
  induction s as [|a s IH]; simpl; [apply not_elem_of_nil|].
  destruct (Ascii.eqb_spec a c); [apply not_elem_of_nil|].
  apply not_elem_of_cons. split; [congruence|done].
Qed.

Lemma rest_from_cases (c : ascii) (s : str) :
  (rest_from c s = [] /\ c ∉ s) \/ exists r, rest_from c s = c :: r.
Proof.
  induction s as [|a s IH]; simpl; [left; split; [done|apply not_elem_of_nil]|].
  destruct (Ascii.eqb_spec a c) as [->|Hne]; [right; by eexists|].
  destruct IH as [[Hr Hc]|Hr]; [|by right].
  left. split; [done|]. apply not_elem_of_cons. split; [congruence|done].
Qed.

Lemma prev_after_cons (prev : option ascii) (a : ascii) (t : str) :
  prev_after prev (a :: t) = prev_after (Some a) t.
Proof.
  unfold prev_after. destruct t as [|b t]; [done|].
  change (last (a :: b :: t)) with (last (b :: t)).
  destruct (last (b :: t)) eqn:Hl; [done|].
  by apply last_None in Hl.
Qed.

(** The greedy run of [[^c]] before a continuation that wants [c] next stops
    at the first [c]; backtracking into the run cannot help. *)
Lemma greedy_star_not (c : ascii) (prev : option ascii) (s : str) (cs : caps)
    (kont : mcont) :
  (forall p s' cs', head s' <> Some c -> kont p s' cs' = None) ->
  greedy_star (CNot c) prev s cs kont
  = kont (prev_after prev (run_before c s)) (rest_from c s) cs.
Proof.
  intros Hk. revert prev. induction s as [|a s IH]; intros prev; [done|].
  cbn [greedy_star cls_in run_before rest_from].
  destruct (Ascii.eqb_spec a c) as [->|Hne]; cbn [negb]; [done|].
  rewrite IH, prev_after_cons.
  rewrite (Hk prev (a :: s) cs) by (simpl; congruence).
  by destruct (kont _ _ _).
Qed.

(** The inline-code rule at one position. *)
Lemma rexec_inline_code (prev : option ascii) (s : str) :
  rexec re_inline_code prev s =
    match s with
    | a :: b :: s2 =>
        if Ascii.eqb a "`" && negb (Ascii.eqb b "`")
        then
          match rest_from "`" s2 with
          | _ :: _ =>
              Some (3 + length (run_before "`" s2), [(1, b :: run_before "`" s2)])
          | [] => None
          end
        else None
    | _ => None
    end.
Proof.
  unfold rexec, re_inline_code. cbn [rseq rmatch cls_in].
  destruct s as [|a [|b s2]]; [done| |].
  - by destruct (Ascii.eqb a "`").
  - destruct (Ascii.eqb a "`"); [|done]. cbn [andb negb].
    destruct (Ascii.eqb b "`"); [done|]. cbn [negb].
    rewrite greedy_star_not.
    2:{ intros p s' cs' Hhd. destruct s' as [|d s']; [done|].
        simpl. destruct (Ascii.eqb_spec d "`") as [->|]; [done|done]. }
    pose proof (run_rest "`" s2) as Hsplit.
    destruct (rest_from "`" s2) as [|d r] eqn:Hrest; [done|].
    destruct (rest_from_cases "`" s2) as [[Hr _]|[r' Hr]]; [congruence|].
    rewrite Hrest in Hr. injection Hr as -> ->.
    rewrite Ascii.eqb_refl. f_equal. f_equal.
    + rewrite <- Hsplit at 1. cbn [length]. rewrite length_app. cbn [length]. lia.
    + f_equal. f_equal. rewrite <- Hsplit at 1 2. cbn [length].
      rewrite length_app. cbn [length].
      replace (S (length (run_before "`" s2) + S (length r')) - S (length r'))
        with (S (length (run_before "`" s2))) by lia.
      cbn [take]. f_equal. by rewrite take_app_length.
Qed.

Lemma replace_from_skip (r : regex) (f : str -> caps -> str) (n : nat)
    (prev : option ascii) (s : str) :
  n <= length s ->
  exists prev', replace_from r f prev s n = replace_from r f prev' (drop n s) 0.
Proof.
  revert prev s. induction n as [|n IH]; intros prev s Hn; [by exists prev|].
  destruct s as [|c s]; [simpl in Hn; lia|]. apply (IH (Some c) s). simpl in Hn. lia.
Qed.

Lemma settled_app (a o : str) : "`"%char ∉ a -> settled o -> settled (a ++ o).
Proof.
  induction a as [|c a IH]; [done|].
  intros [Hc Ha]%not_elem_of_cons Ho. simpl. split; [congruence|by apply IH].
Qed.

Lemma settled_free (o : str) : "`"%char ∉ o -> settled o.
Proof. intros Ho. rewrite <- (app_nil_r o). by apply settled_app. Qed.

Lemma inline_code_free_id (prev : option ascii) (s : str) :
  "`"%char ∉ s -> replace_from re_inline_code tmpl_inline_code prev s 0 = s.
Proof.
  intros Hs. apply replace_from_no_match.
  apply (no_match_without_first_char re_inline_code "`" []); [reflexivity|done].
Qed.

Lemma settled_cons (c : ascii) (o : str) :
  (c = "`"%char ->
   match o with
   | d :: rest => d <> "`"%char -> d <> "<"%char -> "`"%char ∉ rest
   | [] => True
   end) ->
  settled o -> settled (c :: o).
Proof. by split. Qed.

Lemma tmpl_inline_code_head (m : str) (cs : caps) :
  exists rest, tmpl_inline_code m cs = "<"%char :: rest.
Proof. by eexists. Qed.

(** The output of the inline-code rule is settled. *)
Lemma inline_code_settled (n : nat) (s : str) (prev : option ascii) :
  length s <= n ->
  settled (replace_from re_inline_code tmpl_inline_code prev s 0).
Proof.
  revert s prev. induction n as [|n IH]; intros s prev Hlen.
  { destruct s; [|simpl in Hlen; lia]. cbn [replace_from]. by rewrite rexec_inline_code. }
  destruct s as [|a s]; [cbn [replace_from]; by rewrite rexec_inline_code|].
  simpl in Hlen. cbn [replace_from]. rewrite rexec_inline_code.
  destruct s as [|b s2].
  { cbn [replace_from]. rewrite rexec_inline_code. by apply settled_cons. }
  destruct (Ascii.eqb_spec a "`") as [->|Ha]; cbn [andb].
  2:{ apply settled_cons; [done|]. apply IH. lia. }
  destruct (Ascii.eqb_spec b "`") as [->|Hb]; cbn [negb].
  { (* a second backtick follows: what comes next starts with a backtick or
       with the markup of a match *)
    apply settled_cons; [|apply IH; lia].
    intros _. cbn [replace_from]. rewrite rexec_inline_code.
    destruct s2 as [|c s3]; [done|].
    destruct (Ascii.eqb "`" "`" && negb (Ascii.eqb c "`")); [|done].
    destruct (rest_from "`" s3); [done|].
    destruct (tmpl_inline_code_head
                (take (3 + length (run_before "`" s3)) ("`"%char :: c :: s3))
                [(1, c :: run_before "`" s3)]) as [rest ->].
    simpl. done. }
  pose proof (run_rest "`" s2) as Hsplit.
  destruct (rest_from_cases "`" s2) as [[Hr Hfree]|[r Hr]]; rewrite Hr.
  - (* no closing backtick: the rest is copied *)
    rewrite inline_code_free_id
      by (apply not_elem_of_cons; split; [congruence|done]).
    apply settled_cons; [intros _ _ _; done|].
    apply settled_free. apply not_elem_of_cons. split; [congruence|done].
  - (* a match: its markup, then the rest *)
    destruct (replace_from_skip re_inline_code tmpl_inline_code
                (2 + length (run_before "`" s2)) (Some "`"%char) (b :: s2))
      as [prev' Hskip].
    { rewrite <- Hsplit at 2. rewrite Hr. cbn [length]. rewrite length_app.
      cbn [length]. lia. }
    change (3 + length (run_before "`" s2)) with (S (2 + length (run_before "`" s2))).
    cbn iota. rewrite Hskip.
    apply settled_app.
    + unfold tmpl_inline_code, cap_text. simpl.
      rewrite !not_elem_of_cons, not_elem_of_app.
      split_and!; try done.
      * apply run_before_free.
      * rewrite !not_elem_of_cons. split_and!; try done. apply not_elem_of_nil.
    + apply IH. rewrite length_drop. cbn [length] in *. lia.
Qed.

(** A match hands some suffix of the subject to its continuation. *)
Lemma greedy_star_reaches (k : cls) (prev : option ascii) (s : str) (cs : caps)
    (kont : mcont) (res : str * caps) :
  greedy_star k prev s cs kont = Some res ->
  exists p' s', s' `suffix_of` s /\ kont p' s' cs = Some res.
Proof.
  revert prev. induction s as [|c s IH]; intros prev; cbn [greedy_star].
  - intros Hk. by exists prev, [].
  - destruct (cls_in k c); [|intros Hk; by exists prev, (c :: s)].
    destruct (greedy_star k (Some c) s cs kont) as [r|] eqn:Hg; simpl.
    + intros [= <-]. destruct (IH _ Hg) as (p' & s' & Hsuf & Hk).
      exists p', s'. split; [by apply suffix_cons_r|done].
    + intros Hk. by exists prev, (c :: s).
Qed.

Lemma lazy_star_reaches (k : cls) (prev : option ascii) (s : str) (cs : caps)
    (kont : mcont) (res : str * caps) :
  lazy_star k prev s cs kont = Some res ->
  exists p' s', s' `suffix_of` s /\ kont p' s' cs = Some res.
Proof.
  revert prev. induction s as [|c s IH]; intros prev; cbn [lazy_star].
  - destruct (kont prev [] cs) eqn:Hk; [|done]. intros [= <-]. by exists prev, [].
  - destruct (kont prev (c :: s) cs) eqn:Hk.
    + intros [= <-]. by exists prev, (c :: s).
    + destruct (cls_in k c); [|done]. intros Hl.
      destruct (IH _ Hl) as (p' & s' & Hsuf & Hk').
      exists p', s'. split; [by apply suffix_cons_r|done].
Qed.

Lemma rmatch_reaches (r : regex) (prev : option ascii) (s : str) (cs : caps)
    (kont : mcont) (res : str * caps) :
  rmatch r prev s cs kont = Some res ->
  exists p' s' cs', s' `suffix_of` s /\ kont p' s' cs' = Some res.
Proof.
  revert prev s cs kont res.
  induction r as [| k | | | r1 IH1 r2 IH2 | r1 IH1 | k | k | k | n r1 IH1];
    intros prev s cs kont res Hm; cbn [rmatch] in Hm.
  - by exists prev, s, cs.
  - destruct s as [|c s]; [done|]. destruct (cls_in k c); [|done].
    exists (Some c), s, cs. split; [by apply suffix_cons_r|done].
  - destruct (at_line_start prev); [|done]. by exists prev, s, cs.
  - destruct (at_line_end s); [|done]. by exists prev, s, cs.
  - apply IH1 in Hm as (p1 & s1 & cs1 & Hsuf1 & Hm).
    apply IH2 in Hm as (p2 & s2 & cs2 & Hsuf2 & Hm).
    exists p2, s2, cs2. split; [by etrans|done].
  - destruct (rmatch r1 prev s cs kont) as [x|] eqn:Hr; simpl in Hm.
    + injection Hm as <-. by apply IH1 in Hr.
    + by exists prev, s, cs.
  - destruct s as [|c s]; [done|]. destruct (cls_in k c); [|done].
    apply greedy_star_reaches in Hm as (p' & s' & Hsuf & Hk).
    exists p', s', cs. split; [by apply suffix_cons_r|done].
  - apply greedy_star_reaches in Hm as (p' & s' & Hsuf & Hk). by exists p', s', cs.
  - apply lazy_star_reaches in Hm as (p' & s' & Hsuf & Hk). by exists p', s', cs.
  - apply IH1 in Hm as (p1 & s1 & cs1 & Hsuf1 & Hm). by eexists p1, s1, _.
Qed.

Lemma suffix_elem (c : ascii) (s' s : str) : s' `suffix_of` s -> c ∈ s' -> c ∈ s.
Proof. intros [k ->] Hc. apply elem_of_app. by right. Qed.

(** Whatever ends with the closing fence needs a backtick in the subject. *)
Lemma closing_fence_needs_tick (r : regex) (prev : option ascii) (s : str)
    (cs : caps) (kont : mcont) (res : str * caps) :
  rmatch (RSeq r (rlit "```")) prev s cs kont = Some res -> "`"%char ∈ s.
Proof.
  cbn [rmatch]. intros Hm.
  apply rmatch_reaches in Hm as (p' & s' & cs' & Hsuf & Hm).
  apply rmatch_lit_prefix in Hm as (s'' & -> & _).
  eapply suffix_elem; [exact Hsuf|]. simpl. by left.
Qed.

Lemma word_char_not_markup (c : ascii) :
  is_word_char c = true -> c <> "`"%char /\ c <> "<"%char.
Proof. intros Hw. split; intros ->; done. Qed.

Lemma rmatch_seq (r1 r2 : regex) (prev : option ascii) (s : str) (cs : caps)
    (kont : mcont) :
  rmatch (RSeq r1 r2) prev s cs kont
  = rmatch r1 prev s cs (fun p s' cs' => rmatch r2 p s' cs' kont).
Proof. reflexivity. Qed.

Lemma rmatch_opt (r : regex) (prev : option ascii) (s : str) (cs : caps)
    (kont : mcont) :
  rmatch (ROpt r) prev s cs kont
  = or_else (rmatch r prev s cs kont) (kont prev s cs).
Proof. reflexivity. Qed.

Lemma rmatch_group_plus (n : nat) (k : cls) (prev : option ascii) (s : str)
    (cs : caps) (kont : mcont) (res : str * caps) :
  rmatch (RGroup n (RPlus k)) prev s cs kont = Some res ->
  exists c s1 p' s' cs', s = c :: s1 /\ cls_in k c = true /\
    s' `suffix_of` s1 /\ kont p' s' cs' = Some res.
Proof.
  cbn [rmatch]. destruct s as [|c s1]; [done|].
  destruct (cls_in k c) eqn:Hc; [|done]. intros Hg.
  apply greedy_star_reaches in Hg as (p' & s' & Hsuf & Hk).
  by eexists c, s1, p', s', _.
Qed.

Lemma rmatch_cls_seq (k : cls) (r : regex) (prev : option ascii) (s : str)
    (cs : caps) (kont : mcont) (res : str * caps) :
  rmatch (RSeq (RCls k) r) prev s cs kont = Some res ->
  exists c s1, s = c :: s1 /\ cls_in k c = true /\
    rmatch r (Some c) s1 cs kont = Some res.
Proof.
  cbn [rmatch]. destruct s as [|c s1]; [done|].
  destruct (cls_in k c) eqn:Hc; [|done]. intros Hr. by exists c, s1.
Qed.

(** The code-block rule finds no match in settled text. *)
Lemma fence_no_match_settled (prev : option ascii) (t : str) :
  settled t -> rexec re_fence prev t = None.
Proof.
  intros Hset. unfold rexec.
  destruct (rmatch re_fence prev t [] _) as [res|] eqn:Hm; [|done]. exfalso.
  unfold re_fence in Hm. cbn [rseq] in Hm. rewrite rmatch_seq in Hm.
  apply rmatch_lit_prefix in Hm as (t1 & -> & Hfull).
  destruct (Hfull eq_refl) as (p1 & cs1 & Hm). clear Hfull.
  assert (Hthird : forall c3 t2, t1 = c3 :: t2 -> c3 <> "`"%char -> c3 <> "<"%char ->
            "`"%char ∉ t2).
  { intros c3 t2 -> H1 H2. simpl in Hset. destruct Hset as (_ & _ & Hs & _).
    by apply Hs. }
  rewrite rmatch_seq, rmatch_opt in Hm.
  destruct (rmatch (RGroup 1 (RPlus CWord)) p1 t1 cs1 _) as [x|] eqn:Hopt;
    cbn [or_else] in Hm.
  - injection Hm as ->.
    apply rmatch_group_plus in Hopt
      as (c3 & t2 & p' & s' & cs' & -> & Hw & Hsuf & Hk).
    apply word_char_not_markup in Hw as [H1 H2].
    apply (Hthird c3 t2 eq_refl H1 H2).
    eapply suffix_elem; [exact Hsuf|].
    apply rmatch_cls_seq in Hk as (d & s1 & -> & _ & Hk).
    apply elem_of_cons. right.
    by apply closing_fence_needs_tick in Hk.
  - apply rmatch_cls_seq in Hm as (c3 & t2 & -> & Hnl & Hm).
    cbn [cls_in] in Hnl. apply Ascii.eqb_eq in Hnl as ->.
    apply (Hthird ch_nl t2 eq_refl); [done..|].
    by apply closing_fence_needs_tick in Hm.
Qed.

Lemma settled_positions (o : str) (prev : option ascii) :
  settled o -> Forall (fun pt => settled pt.2) (positions prev o).
Proof.
  revert prev. induction o as [|c o IH]; intros prev Hs.
  - by repeat constructor.
  - cbn [positions]. constructor; [done|]. apply IH. by destruct Hs.
Qed.

(** The code-block rule never fires: the inline-code rule, which runs
    before it, has taken the fences apart. *)
Lemma code_block_rule_dead (s : str) :
  fmt_code_block (fmt_inline_code s) = fmt_inline_code s.
Proof.
  unfold fmt_code_block. apply replace_all_no_match.
  eapply Forall_impl.
  - apply settled_positions. unfold fmt_inline_code, replace_all.
    by apply (inline_code_settled (length s)).
  - intros [p t] Hs. by apply fence_no_match_settled.
Qed.

Lemma replace_from_0 (r : regex) (f : str -> caps -> str) (prev : option ascii)
    (s : str) :
  replace_from r f prev s 0 =
    match rexec r prev s with
    | Some (len, cs) =>
        f (take len s) cs ++
        match s with
        | [] => []
        | c :: s' =>
            match len with
            | O => c :: replace_from r f (Some c) s' 0
            | S n => replace_from r f (Some c) s' n
            end
        end
    | None =>
        match s with
        | [] => []
        | c :: s' => c :: replace_from r f (Some c) s' 0
        end
    end.
Proof. by destruct s. Qed.

Lemma run_before_app (c : ascii) (t r : str) :
  c ∉ t -> run_before c (t ++ c :: r) = t /\ rest_from c (t ++ c :: r) = c :: r.
Proof.
  induction t as [|a t IH]; simpl.
  - intros _. by rewrite Ascii.eqb_refl.
  - intros [Hne Ht]%not_elem_of_cons.
    destruct (Ascii.eqb_spec a c); [congruence|].
    destruct (IH Ht) as [-> ->]. done.
Qed.

(** The inline-code rule copies the text between the backticks as it is. *)
Lemma inline_code_verbatim (t : str) :
  t <> [] -> "`"%char ∉ t ->
  fmt_inline_code ("`" ++ t ++ "`") =
    "<code class=" ++ q "inline-code" ++ ">" ++ t ++ "</code>".
Proof.
  intros Hne Ht. destruct t as [|b t2]; [done|].
  apply not_elem_of_cons in Ht as [Hb Ht2].
  unfold fmt_inline_code, replace_all.
  change (list_ascii_of_string "`" ++ (b :: t2) ++ list_ascii_of_string "`")
    with ("`"%char :: b :: t2 ++ ["`"%char]).
  rewrite replace_from_0, rexec_inline_code.
  destruct (run_before_app "`" t2 [] Ht2) as [Hrun Hrest].
  rewrite Hrun, Hrest.
  destruct (Ascii.eqb_spec b "`") as [->|_]; [done|].
  rewrite Ascii.eqb_refl. cbn [andb negb].
  destruct (replace_from_skip re_inline_code tmpl_inline_code (2 + length t2)
              (Some "`"%char) (b :: t2 ++ ["`"%char])) as [prev' Hskip].
  { cbn [length]. rewrite length_app. cbn [length]. lia. }
  change (3 + length t2) with (S (2 + length t2)). cbn iota. rewrite Hskip.
  replace (drop (2 + length t2) (b :: t2 ++ ["`"%char])) with (@nil ascii).
  2:{ symmetry. apply drop_ge. cbn [length]. rewrite length_app. cbn [length]. lia. }
  rewrite replace_from_0, rexec_inline_code.
  unfold tmpl_inline_code, cap_text. cbn [cap Nat.eqb default from_option id].
  by rewrite app_nil_r.
Qed.

(** C1, on the code: the text inside a code literal reaches the output
    unescaped.  The inline-code rule copies whatever stands between the
    backticks, markup included; [escapeHtml] is only called by the code-block
    rule, which the inline-code rule before it keeps from ever matching, so
    a fenced block is rendered by the inline rule as well. *)
Theorem code_literals_not_escaped :
  (forall t : str, t <> [] -> "`"%char ∉ t ->
     fmt_inline_code ("`" ++ t ++ "`") =
       "<code class=" ++ q "inline-code" ++ ">" ++ t ++ "</code>") /\
  formatMessage "`<img src=x onerror=alert(1)>`" =
    "<code class=" ++ q "inline-code" ++ "><img src=x onerror=alert(1)></code>" /\
  escapeHtml "<img src=x onerror=alert(1)>" =
    ("&lt;img src=x onerror=alert(1)&gt;" : str) /\
  formatMessage ("```html" ++ nl ++ "<b>hi</b>" ++ nl ++ "```") =
    "``<code class=" ++ q "inline-code" ++ ">html<br><b>hi</b><br></code>``".
Proof.
  split; [exact inline_code_verbatim|].
  split_and!; vm_compute; reflexivity.
Qed.

(** C2, on the code: the inline rules run first and the code-block rule
    after them, on what they left; it then never matches, whatever the
    input, and [formatMessage] is the chain of the other rules.  The bold
    rule therefore rewrites the body of a fenced block. *)
Theorem inline_rules_run_before_code_blocks :
  (forall s : str, fmt_code_block (fmt_inline_code s) = fmt_inline_code s) /\
  (forall c content,
     formatMessage (c :: content) =
       fmt_br (fmt_list_run (fmt_list_item (fmt_quote
         (fmt_inline_code (fmt_strike (fmt_italic (fmt_bold (c :: content))))))))) /\
  formatMessage ("```js" ++ nl ++ "x = a*b*c" ++ nl ++ "```") =
    "``<code class=" ++ q "inline-code" ++ ">js<br>x = a<strong class=" ++
    q "bold-text" ++ ">b</strong>c<br></code>``" /\
  fmt_code_block ("```js" ++ nl ++ "x = a*b*c" ++ nl ++ "```") =
    tmpl_code_block [] [(2, "x = a*b*c" ++ nl); (1, "js" : str)].
Proof.
  split; [exact code_block_rule_dead|]. split.
  - intros c content. unfold formatMessage. cbv zeta. by rewrite code_block_rule_dead.
  - split; vm_compute; reflexivity.
Qed.

(** ** Witnesses on the sample data *)

(** C10, witness: clearing the conversation of a first exchange. *)
Lemma clearCurrentChat_frame_witness :
  currentChatId demo_app2 = Some demo_id /\
  map_get demo_id (chats demo_app2) =
    Some (Chat.mk demo_id "Hello"
            [Msg.mk "user" "Hello" "text" None;
             Msg.mk "assistant" "Hi there" "text" None] "chat" demo_iso) /\
  map_get demo_id (chats (exec clearCurrentChat demo_app2)) =
    Some (Chat.mk demo_id "Hello" [] "chat" demo_iso).
Proof.
  split; [reflexivity|]. split; [reflexivity|].
  destruct (clearCurrentChat_frame demo_app2 demo_id
              (Chat.mk demo_id "Hello"
                 [Msg.mk "user" "Hello" "text" None;
                  Msg.mk "assistant" "Hi there" "text" None] "chat" demo_iso)
              eq_refl eq_refl) as (_ & Hc & _).
  exact Hc.
Defined.

(** C6, witness: the reveal of a reply of two lines is cancelled after two
    characters; the stored message is the whole reply. *)
Lemma typeMessage_witness :
  let st := set_isGenerating true demo_app in
  let reply : str := "Hi." ++ nl ++ "Bye" in
  let later := fun i => Nat.ltb i 1 in
  let st' := exec (typeMessage reply "assistant" "text" later) st in
  currentChatId st = Some demo_id /\
  map_get demo_id (chats st) = Some (fresh_chat demo_now demo_iso "chat") /\
  revealed st' = ("Hi" : str) /\
  map_get demo_id (chats st') =
    Some (Chat.mk demo_id "New Chat" [Msg.mk "assistant" reply "text" None]
            "chat" demo_iso).
Proof.
  split; [reflexivity|]. split; [reflexivity|].
  destruct (typeMessage_persists_full_text (set_isGenerating true demo_app) demo_id
              (fresh_chat demo_now demo_iso "chat") ("Hi." ++ nl ++ "Bye")
              "assistant" "text" (fun i => Nat.ltb i 1) eq_refl eq_refl)
    as (_ & _ & _ & _ & Himg).
  destruct Himg as (Hrev & _ & Hget); [discriminate|].
  split; [rewrite Hrev; reflexivity|exact Hget].
Defined.

(** C4, witness: a first message answered by HTTP 401. *)
Lemma sendMessage_on_401_witness :
  let st' := exec (sendMessage "Hello" (demo_failure 401 "Unauthorized") (fun _ => true))
               demo_app in
  isGenerating demo_app = false /\
  truthy (userApiKey demo_app) = true /\
  trim "Hello" <> [] /\
  currentChatId demo_app = Some demo_id /\
  map_get demo_id (chats demo_app) = Some (fresh_chat demo_now demo_iso "chat") /\
  userApiKey st' = None /\
  localStorage st' !! key_api = None /\
  apiKeyModalOpen st' = true.
Proof.
  assert (Htrim : trim "Hello" <> []) by (vm_compute; discriminate).
  split; [reflexivity|]. split; [reflexivity|]. split; [exact Htrim|].
  split; [reflexivity|]. split; [reflexivity|].
  destruct (sendMessage_on_401 demo_app demo_id (fresh_chat demo_now demo_iso "chat")
              "Hello" "Unauthorized" (mk_data false [] None []) (fun _ => true)
              eq_refl eq_refl Htrim eq_refl eq_refl)
    as (_ & _ & _ & Hkey & Hstore & Hmodal & _).
  split; [exact Hkey|]. split; [exact Hstore|exact Hmodal].
Defined.

(** ** The JSON host reads back what it wrote *)

Module JsonFacts.
Import Json.

Lemma parse_quote_char (c : ascii) (rest acc : str) :
  parse_chars (quote_char c ++ rest) acc = parse_chars rest (c :: acc).
Proof.
  destruct c as [[] [] [] [] [] [] [] []]; reflexivity.
Qed.

Lemma parse_chars_quoted (s rest acc : str) :
  parse_chars (flat_map quote_char s ++ ch_dq :: rest) acc = Some (rev acc ++ s, rest).
Proof.
  revert acc. induction s as [|c s IH]; intros acc.
  - simpl. by rewrite app_nil_r.
  - cbn [flat_map]. rewrite <- app_assoc, parse_quote_char, IH.
    simpl. by rewrite <- app_assoc.
Qed.

Lemma parses_str (s : str) : parses (Str s).
Proof.
  intros fuel rest Hfuel. destruct fuel as [|n]; [simpl in Hfuel; lia|].
  cbn [stringify]. unfold quote.
  change ((ch_dq :: flat_map quote_char s ++ [ch_dq]) ++ rest)
    with (ch_dq :: (flat_map quote_char s ++ [ch_dq]) ++ rest).
  rewrite <- app_assoc. cbn [parse_value skip_ws is_ws].
  change (is_ws ch_dq) with false. cbn iota.
  change (Ascii.eqb ch_dq ch_dq) with true. cbn iota.
  change ([ch_dq] ++ rest) with (ch_dq :: rest).
  by rewrite parse_chars_quoted.
Qed.

Lemma member_text (k : str) (v : value) (rest : str) :
  member (k, v) ++ rest =
    ch_dq :: flat_map quote_char k ++ ch_dq :: ":"%char :: stringify v ++ rest.
Proof.
  unfold member, quote. simpl. rewrite <- !app_assoc. reflexivity.
Qed.

Lemma member_length (k : str) (v : value) :
  length (member (k, v)) = 3 + length (flat_map quote_char k) + length (stringify v).
Proof.
  unfold member, quote. cbn [fst snd]. rewrite !length_app. cbn [length].
  rewrite !length_app. cbn [length].
  change (length (list_ascii_of_string ":")) with 1. lia.
Qed.

Lemma stringify_obj (l : list (str * value)) :
  stringify (Obj l) = "{" ++ join "," (map member l) ++ "}".
Proof. reflexivity. Qed.

Lemma stringify_arr (l : list value) :
  stringify (Arr l) = "[" ++ join "," (map stringify l) ++ "]".
Proof. reflexivity. Qed.

Lemma join_cons2 (sep x y : str) (l : list str) :
  join sep (x :: y :: l) = x ++ sep ++ join sep (y :: l).
Proof. reflexivity. Qed.

(** One member, then a comma or the closing brace. *)
Lemma parse_member_then (k : str) (v : value) (n : nat) (acc : list (str * value))
    (c : ascii) (rest : str) :
  parses v ->
  length (stringify v) <= n ->
  is_ws c = false ->
  parse_members (S n) (member (k, v) ++ c :: rest) acc =
    if Ascii.eqb c "," then parse_members n rest ((k, v) :: acc)
    else if Ascii.eqb c "}" then Some (rev ((k, v) :: acc), rest)
    else None.
Proof.
  intros Hv Hn Hc. rewrite member_text. cbn [parse_members skip_ws].
  change (is_ws ch_dq) with false. cbn iota.
  change (Ascii.eqb ch_dq ch_dq) with true. cbn iota.
  rewrite parse_chars_quoted. cbn [rev Datatypes.app skip_ws].
  change (is_ws ":") with false. cbn iota.
  change (Ascii.eqb ":" ":") with true. cbn iota.
  rewrite (Hv n (c :: rest) Hn). cbn [skip_ws]. by rewrite Hc.
Qed.

Lemma parse_members_ok (l : list (str * value)) :
  l <> [] ->
  Forall (fun kv => parses kv.2) l ->
  forall n acc rest,
    length (join "," (map member l)) <= n ->
    parse_members n (join "," (map member l) ++ "}" ++ rest) acc
    = Some (rev acc ++ l, rest).
Proof.
  induction l as [|[k v] l IH]; [done|]. intros _ Hall n acc rest Hn.
  apply Forall_cons in Hall as [Hv Hall]. cbn [snd] in Hv.
  destruct l as [|kv2 l].
  - cbn [map join] in *. rewrite member_length in Hn.
    destruct n as [|n]; [lia|].
    change (list_ascii_of_string "}" ++ rest) with ("}"%char :: rest).
    rewrite parse_member_then by (done || lia).
    change (Ascii.eqb "}" ",") with false. change (Ascii.eqb "}" "}") with true.
    reflexivity.
  - cbn [map] in *. rewrite join_cons2 in *.
    rewrite !length_app, member_length in Hn.
    change (length (list_ascii_of_string ",")) with 1 in Hn.
    destruct n as [|n]; [lia|].
    rewrite <- !app_assoc.
    change (list_ascii_of_string "," ++ ?x) with (","%char :: x).
    replace (list_ascii_of_string "," ++ join "," (member kv2 :: map member l) ++ "}" ++ rest)
      with (","%char :: join "," (member kv2 :: map member l) ++ "}" ++ rest) by reflexivity.
    rewrite parse_member_then by (done || lia).
    change (Ascii.eqb "," ",") with true. cbn iota.
    rewrite (IH ltac:(done) Hall) by (cbn [map]; lia).
    cbn [rev]. by rewrite <- app_assoc.
Qed.

Lemma parse_value_brace (n : nat) (r : str) :
  parse_value (S n) ("{"%char :: r) =
    match skip_ws r with
    | d :: r' =>
        if Ascii.eqb d "}" then Some (Obj [], r')
        else
          match parse_members n r [] with
          | Some (l, r'') => Some (Obj l, r'')
          | None => None
          end
    | [] => None
    end.
Proof. reflexivity. Qed.

Lemma parse_value_bracket (n : nat) (r : str) :
  parse_value (S n) ("["%char :: r) =
    match skip_ws r with
    | d :: r' =>
        if Ascii.eqb d "]" then Some (Arr [], r')
        else
          match parse_elements n r [] with
          | Some (l, r'') => Some (Arr l, r'')
          | None => None
          end
    | [] => None
    end.
Proof. reflexivity. Qed.

Lemma join_members_head (l : list (str * value)) (rest : str) :
  l <> [] -> exists t, join "," (map member l) ++ rest = ch_dq :: t.
Proof.
  destruct l as [|[k v] [|kv2 l]]; [done| |]; intros _.
  - cbn [map join]. rewrite member_text. by eexists.
  - cbn [map]. rewrite join_cons2, <- app_assoc, member_text. by eexists.
Qed.

Lemma parses_obj (l : list (str * value)) :
  l <> [] -> Forall (fun kv => parses kv.2) l -> parses (Obj l).
Proof.
  intros Hne Hall fuel rest Hfuel. rewrite stringify_obj in *.
  rewrite !length_app in Hfuel.
  change (length (list_ascii_of_string "{")) with 1 in Hfuel.
  destruct fuel as [|n]; [lia|].
  change (("{" ++ join "," (map member l) ++ "}") ++ rest)
    with ("{"%char :: (join "," (map member l) ++ list_ascii_of_string "}") ++ rest).
  rewrite <- app_assoc. rewrite parse_value_brace.
  rewrite (parse_members_ok l Hne Hall n [] rest) by lia.
  destruct (join_members_head l ("}" ++ rest) Hne) as [t ->].
  reflexivity.
Qed.

Lemma parse_element_then (v : value) (n : nat) (acc : list value)
    (c : ascii) (rest : str) :
  parses v ->
  length (stringify v) <= n ->
  is_ws c = false ->
  parse_elements (S n) (stringify v ++ c :: rest) acc =
    if Ascii.eqb c "," then parse_elements n rest (v :: acc)
    else if Ascii.eqb c "]" then Some (rev (v :: acc), rest)
    else None.
Proof.
  intros Hv Hn Hc. cbn [parse_elements].
  rewrite (Hv n (c :: rest) Hn). cbn [skip_ws]. by rewrite Hc.
Qed.

Lemma parse_elements_ok (l : list value) :
  l <> [] ->
  Forall parses l ->
  forall n acc rest,
    length (join "," (map stringify l)) < n ->
    parse_elements n (join "," (map stringify l) ++ "]" ++ rest) acc
    = Some (rev acc ++ l, rest).
Proof.
  induction l as [|v l IH]; [done|]. intros _ Hall n acc rest Hn.
  apply Forall_cons in Hall as [Hv Hall].
  destruct n as [|n]; [lia|].
  destruct l as [|v2 l].
  - cbn [map join] in *.
    change (list_ascii_of_string "]" ++ rest) with ("]"%char :: rest).
    rewrite parse_element_then by (done || lia).
    change (Ascii.eqb "]" ",") with false. change (Ascii.eqb "]" "]") with true.
    reflexivity.
  - cbn [map] in *. rewrite join_cons2 in *.
    rewrite !length_app in Hn.
    change (length (list_ascii_of_string ",")) with 1 in Hn.
    rewrite <- !app_assoc.
    replace (list_ascii_of_string "," ++ join "," (stringify v2 :: map stringify l) ++ "]" ++ rest)
      with (","%char :: join "," (stringify v2 :: map stringify l) ++ "]" ++ rest)
      by reflexivity.
    rewrite parse_element_then by (done || lia).
    change (Ascii.eqb "," ",") with true. cbn iota.
    rewrite (IH ltac:(done) Hall) by (cbn [map]; lia).
    cbn [rev]. by rewrite <- app_assoc.
Qed.

Lemma parses_arr (l : list value) :
  Forall (fun v => parses v /\ exists t, stringify v = "{"%char :: t) l ->
  parses (Arr l).
Proof.
  intros Hall fuel rest Hfuel. rewrite stringify_arr in *.
  rewrite !length_app in Hfuel.
  change (length (list_ascii_of_string "[")) with 1 in Hfuel.
  change (length (list_ascii_of_string "]")) with 1 in Hfuel.
  destruct fuel as [|n]; [lia|].
  change (("[" ++ join "," (map stringify l) ++ "]") ++ rest)
    with ("["%char :: (join "," (map stringify l) ++ list_ascii_of_string "]") ++ rest).
  rewrite <- app_assoc. rewrite parse_value_bracket.
  destruct l as [|v l]; [reflexivity|].
  rewrite (parse_elements_ok (v :: l)); [|done| |lia].
  2:{ eapply Forall_impl; [exact Hall|]. by intros ? [? _]. }
  apply Forall_cons in Hall as [[_ [t Ht]] _].
  assert (Hhead : exists t', join "," (map stringify (v :: l)) ++ "]" ++ rest
                           = "{"%char :: t').
  { destruct l as [|v2 l]; cbn [map]; [cbn [join]|rewrite join_cons2, <- app_assoc];
      rewrite Ht; by eexists. }
  destruct Hhead as [t' ->]. reflexivity.
Qed.

Lemma parses_msg (m : Msg.t) :
  parses (of_msg m) /\ exists t, stringify (of_msg m) = "{"%char :: t.
Proof.
  split; [|by eexists]. unfold of_msg. apply parses_obj; [done|].
  destruct (Msg.caption m); repeat (constructor; [apply parses_str|]); constructor.
Qed.

Lemma parses_chat (c : Chat.t) :
  parses (of_chat c) /\ exists t, stringify (of_chat c) = "{"%char :: t.
Proof.
  split; [|by eexists]. unfold of_chat. apply parses_obj; [done|].
  repeat (constructor; [first [ apply parses_str | cbn [snd] ]|]); try constructor.
  apply parses_arr. apply Forall_forall. intros v Hv.
  apply list_elem_of_In, in_map_iff in Hv as (m & <- & _). apply parses_msg.
Qed.

Lemma to_msg_of_msg (m : Msg.t) : to_msg (of_msg m) = Some m.
Proof. destruct m as [r c t [cap|]]; reflexivity. Qed.

Lemma all_some_map {A B} (f : A -> B) (g : B -> option A) (l : list A) :
  (forall x, g (f x) = Some x) -> all_some (map g (map f l)) = Some l.
Proof.
  intros Hgf. induction l as [|x l IH]; [done|]. simpl. by rewrite Hgf, IH.
Qed.

Lemma to_chat_of_chat (c : Chat.t) : to_chat (of_chat c) = Some c.
Proof.
  destruct c as [i t ms m ca]. unfold to_chat, of_chat. cbn [Chat.id Chat.title
    Chat.messages Chat.mode Chat.createdAt].
  change (field_str "id" _) with (Some i).
  change (field_str "title" _) with (Some t).
  change (field "messages" _) with (Some (Arr (map of_msg ms))).
  change (field_str "mode" _) with (Some m).
  change (field_str "createdAt" _) with (Some ca).
  cbn iota. by rewrite (all_some_map of_msg to_msg ms to_msg_of_msg).
Qed.

(** What [stringify] writes for strings, objects and arrays holds no escape
    above code unit 255. *)
Lemma beyond_quote_char (c : ascii) (rest : str) :
  beyond_8bit true (quote_char c ++ rest) = beyond_8bit true rest.
Proof.
  destruct c as [[] [] [] [] [] [] [] []]; reflexivity.
Qed.

Lemma beyond_quoted (s rest : str) :
  beyond_8bit true (flat_map quote_char s ++ ch_dq :: rest) = beyond_8bit false rest.
Proof.
  induction s as [|c s IH]; [reflexivity|].
  cbn [flat_map]. by rewrite <- app_assoc, beyond_quote_char.
Qed.

Lemma beyond_skip (c : ascii) (rest : str) :
  c <> ch_dq -> beyond_8bit false (c :: rest) = beyond_8bit false rest.
Proof.
  intros Hc. cbn [beyond_8bit]. by destruct (Ascii.eqb_spec c ch_dq).
Qed.

Lemma within_str (s : str) : within_8bit (Str s).
Proof. intros rest. cbn [stringify]. unfold quote. simpl. rewrite <- app_assoc.
  apply beyond_quoted.
Qed.

Lemma within_member (k : str) (v : value) (rest : str) :
  within_8bit v ->
  beyond_8bit false (member (k, v) ++ rest) = beyond_8bit false rest.
Proof.
  intros Hv. rewrite member_text. cbn [beyond_8bit]. rewrite Ascii.eqb_refl.
  rewrite beyond_quoted. rewrite beyond_skip by done. apply Hv.
Qed.

Lemma within_members (l : list (str * value)) (rest : str) :
  Forall (fun kv => within_8bit kv.2) l ->
  beyond_8bit false (join "," (map member l) ++ rest) = beyond_8bit false rest.
Proof.
  intros Hall. induction Hall as [|[k v] l Hv Hall IH]; [reflexivity|].
  destruct l as [|kv2 l].
  - cbn [map join]. by apply within_member.
  - cbn [map]. rewrite join_cons2, <- !app_assoc. rewrite within_member by done.
    change (list_ascii_of_string ",") with [","%char]. cbn [Datatypes.app].
    rewrite beyond_skip by done. exact IH.
Qed.

Lemma within_obj (l : list (str * value)) :
  Forall (fun kv => within_8bit kv.2) l -> within_8bit (Obj l).
Proof.
  intros Hall rest. rewrite stringify_obj.
  change (("{" ++ join "," (map member l) ++ "}") ++ rest)
    with ("{"%char :: (join "," (map member l) ++ list_ascii_of_string "}") ++ rest).
  rewrite beyond_skip by done. rewrite <- app_assoc.
  rewrite within_members by done. by apply beyond_skip.
Qed.

Lemma within_elements (l : list value) (rest : str) :
  Forall within_8bit l ->
  beyond_8bit false (join "," (map stringify l) ++ rest) = beyond_8bit false rest.
Proof.
  intros Hall. induction Hall as [|v l Hv Hall IH]; [reflexivity|].
  destruct l as [|v2 l].
  - cbn [map join]. apply Hv.
  - cbn [map]. rewrite join_cons2, <- !app_assoc. rewrite Hv.
    change (list_ascii_of_string ",") with [","%char]. cbn [Datatypes.app].
    rewrite beyond_skip by done. exact IH.
Qed.

Lemma within_arr (l : list value) : Forall within_8bit l -> within_8bit (Arr l).
Proof.
  intros Hall rest. rewrite stringify_arr.
  change (("[" ++ join "," (map stringify l) ++ "]") ++ rest)
    with ("["%char :: (join "," (map stringify l) ++ list_ascii_of_string "]") ++ rest).
  rewrite beyond_skip by done. rewrite <- app_assoc.
  rewrite within_elements by done. by apply beyond_skip.
Qed.

Lemma within_msg (m : Msg.t) : within_8bit (of_msg m).
Proof.
  unfold of_msg. apply within_obj.
  destruct (Msg.caption m); repeat (constructor; [apply within_str|]); constructor.
Qed.

Lemma within_chat (c : Chat.t) : within_8bit (of_chat c).
Proof.
  unfold of_chat. apply within_obj.
  repeat (constructor; [first [ apply within_str | cbn [snd] ]|]); try constructor.
  apply within_arr. apply Forall_forall. intros v Hv.
  apply list_elem_of_In, in_map_iff in Hv as (m & <- & _). apply within_msg.
Qed.

Lemma no_null_chats (cs : list Chat.t) : existsb is_null (map of_chat cs) = false.
Proof. by induction cs. Qed.

(** The array that [stringify_chats] writes is never empty text and is read
    back by [parse_chats]. *)
Lemma chats_round_trip (cs : list Chat.t) :
  stringify_chats cs <> [] /\ parse_chats (stringify_chats cs) = Records cs.
Proof.
  split; [done|]. unfold parse_chats.
  assert (Hw : beyond_8bit false (stringify_chats cs) = false).
  { rewrite <- (app_nil_r (stringify_chats cs)). unfold stringify_chats.
    rewrite within_arr; [done|]. apply Forall_forall. intros v Hv.
    apply list_elem_of_In, in_map_iff in Hv as (c & <- & _). apply within_chat. }
  rewrite Hw. unfold parse, stringify_chats.
  assert (Hp : parses (Arr (map of_chat cs))).
  { apply parses_arr, Forall_forall. intros v Hv.
    apply list_elem_of_In, in_map_iff in Hv as (c & <- & _). apply parses_chat. }
  rewrite <- (app_nil_r (stringify (Arr (map of_chat cs)))) at 2.
  rewrite Hp by lia. cbn [skip_ws]. rewrite no_null_chats.
  rewrite (all_some_map of_chat to_chat cs to_chat_of_chat).
  by rewrite bool_decide_eq_true_2.
Qed.

End JsonFacts.

(** On the JSON host the round trip needs no assumption: what [saveChats]
    writes is read back by a fresh instance, for every two messages. *)
Corollary browser_round_trip
    (st0 : app) (now : N) (iso : str)
    (role1 content1 type1 role2 content2 type2 : str) (retitle : bool)
    (now' : N) (iso' : str) :
  wf_chats (chats st0) ->
  let st := exec (two_appends now iso role1 content1 type1 role2 content2 type2 retitle) st0 in
  let st' := exec (loadChats now' iso') (new_app (localStorage st)) in
  chats st' = chats st /\
  currentChatId st' = Some (chat_id_at now) /\
  Chat.mk (chat_id_at now)
    (if retitle then truncateText content1 25 else "New Chat")
    [Msg.mk role1 content1 type1 None; Msg.mk role2 content2 type2 None]
    (currentMode st0) iso ∈ list_chats st'.
Proof.
  intros Hwf st st'.
  destruct (JsonFacts.chats_round_trip (map_values (chats st))) as [Hne Hrt].
  destruct (two_appends_spec now iso role1 content1 type1 role2 content2 type2
              retitle st0 Hwf) as (_ & Hwf' & Hcur & Hget & Hsaved & Hptr).
  fold st in Hwf', Hcur, Hget, Hsaved, Hptr.
  assert (Hload : loadChats now' iso' (new_app (localStorage st)) =
    (Ok tt, set_currentChatId (Some (chat_id_at now))
              (set_chats (chats st) (new_app (localStorage st))))).
  { apply (loadChats_from_saved _ _ (JSON_stringify (map_values (chats st))));
      try done.
    unfold map_has. by rewrite Hget. }
  subst st'. unfold exec at 1 2 3. rewrite Hload. cbn [snd].
  split_and!; trivial.
  unfold list_chats. rewrite sort_chats_perm. simpl.
  apply list_elem_of_In. eapply map_get_In. exact Hget.
Qed.

(** * Further properties *)

Section Invariants.
Context `{Host}.
Context (I : app -> Prop).

Lemma inv_ret {A} (a : A) : invariant I (ret a).
Proof. by intros st. Qed.

Lemma inv_throw {A} (e : exn) : invariant I (@throw A e).
Proof. by intros st. Qed.

Lemma inv_get : invariant I get.
Proof. by intros st. Qed.

Lemma inv_modify (f : app -> app) :
  (forall st, I st -> I (f st)) -> invariant I (modify f).
Proof. intros Hf st. apply Hf. Qed.

Lemma inv_bind {A B} (c : M A) (k : A -> M B) :
  invariant I c -> (forall a, invariant I (k a)) -> invariant I (bind c k).
Proof.
  intros Hc Hk st Hst. specialize (Hc st Hst). unfold exec, bind in *.
  destruct (c st) as [[a|e] st1]; simpl in *; [|done]. by apply Hk.
Qed.

Lemma inv_try {A} (c : M A) (h : exn -> M A) :
  invariant I c -> (forall e, invariant I (h e)) -> invariant I (try_catch c h).
Proof.
  intros Hc Hh st Hst. specialize (Hc st Hst). unfold exec, try_catch in *.
  destruct (c st) as [[a|e] st1]; simpl in *; [done|]. by apply Hh.
Qed.

Lemma inv_chat_of id : invariant I (chat_of id).
Proof.
  intros st Hst. unfold exec, chat_of, bind, get. simpl.
  destruct id as [k|]; [destruct (map_get k (chats st))|]; done.
Qed.

End Invariants.

(** One step of a proof that a handler keeps an invariant; [prim] settles
    the calls that are not unfolded. *)
Ltac inv_step prim :=
  match goal with
  | |- forall _, _ => intros
  | |- invariant _ (bind _ _) => apply inv_bind
  | |- invariant _ (try_catch _ _) => apply inv_try
  | |- invariant _ (ret _) => apply inv_ret
  | |- invariant _ (throw _) => apply inv_throw
  | |- invariant _ get => apply inv_get
  | |- invariant _ (chat_of _) => apply inv_chat_of
  | |- invariant _ (match ?x with _ => _ end) => destruct x
  | |- invariant _ _ => prim
  end.

Ltac unfold_flows :=
  unfold sendMessage, generateImage, editImage, generateAIResponse, typeMessage,
    updateChatTitleFromFirstMessage, clearCurrentChat, switchChat,
    addMessage, addImageMessage, showToast, openApiKeyModal, closeApiKeyModal,
    showTypingIndicator, removeTypingIndicator.

Section Evolution.
Context `{Host}.
Context (Rm : list Msg.t -> list Msg.t -> Prop).
Context (Rm_refl : forall l, Rm l l).
Context (Rm_trans : forall l1 l2 l3, Rm l1 l2 -> Rm l2 l3 -> Rm l1 l3).

Lemma evolves_refl st : evolves Rm st st.
Proof. split; [done|]. intros k c Hc. exists c. by split_and!. Qed.

Lemma evolves_trans st1 st2 st3 :
  evolves Rm st1 st2 -> evolves Rm st2 st3 -> evolves Rm st1 st3.
Proof.
  intros [Hk12 H12] [Hk23 H23]. split; [by rewrite Hk23|].
  intros k c Hc. destruct (H12 k c Hc) as (c2 & Hc2 & Hi & Hm & Hd & Hr).
  destruct (H23 k c2 Hc2) as (c3 & Hc3 & Hi3 & Hm3 & Hd3 & Hr3).
  exists c3. split_and!; try congruence. by eapply Rm_trans.
Qed.

Lemma evolves_chats st st' : chats st' = chats st -> evolves Rm st st'.
Proof. intros Hc. split; [by rewrite Hc|]. intros k c Hk. exists c. rewrite Hc. by split_and!. Qed.

Lemma evolves_alter (f : Chat.t -> Chat.t) st :
  (forall c, Chat.id (f c) = Chat.id c /\ Chat.mode (f c) = Chat.mode c /\
             Chat.createdAt (f c) = Chat.createdAt c /\
             Rm (Chat.messages c) (Chat.messages (f c))) ->
  evolves Rm st (exec (alter_current f) st).
Proof.
  intros Hf. unfold exec, alter_current, modify. simpl.
  destruct (currentChatId st) as [k0|]; [|apply evolves_refl].
  split; [apply map_keys_alter|]. simpl. intros k c Hc.
  destruct (decide (k = k0)) as [->|Hne].
  - exists (f c). rewrite map_get_alter_eq, Hc. split; [done|]. apply Hf.
  - exists c. rewrite map_get_alter_ne by done. by split_and!.
Qed.

Lemma inv_evolves_modify st0 (f : app -> app) :
  (forall st, chats (f st) = chats st) -> invariant (evolves Rm st0) (modify f).
Proof.
  intros Hf st Hst. eapply evolves_trans; [exact Hst|]. by apply evolves_chats.
Qed.

Lemma inv_evolves_alter st0 (f : Chat.t -> Chat.t) :
  (forall c, Chat.id (f c) = Chat.id c /\ Chat.mode (f c) = Chat.mode c /\
             Chat.createdAt (f c) = Chat.createdAt c /\
             Rm (Chat.messages c) (Chat.messages (f c))) ->
  invariant (evolves Rm st0) (alter_current f).
Proof.
  intros Hf st Hst. eapply evolves_trans; [exact Hst|]. by apply evolves_alter.
Qed.

End Evolution.

Section Evolution2.
Context `{Host}.
Context (Rm : list Msg.t -> list Msg.t -> Prop).
Context (Rm_refl : forall l, Rm l l).
Context (Rm_trans : forall l1 l2 l3, Rm l1 l2 -> Rm l2 l3 -> Rm l1 l3).
Context (Rm_push : forall l m, msg_ok m -> Rm l (l ++ [m])).

Ltac msg_ok_tac :=
  split_and!; simpl;
  [ repeat first [apply list_elem_of_here | apply list_elem_of_further]
  | repeat first [apply list_elem_of_here | apply list_elem_of_further]
  | first [reflexivity | by intros [? ?]] ].

Ltac evolves_prim :=
  first
    [ apply inv_evolves_alter; [assumption..|]; intros ?; split_and!;
      solve [done | apply Rm_refl | apply Rm_push; msg_ok_tac]
    | apply inv_evolves_modify; [assumption..|]; done ].

Lemma flows_evolve (o : op) (st : app) :
  o <> OpClear -> evolves Rm st (exec (run_op o) st).
Proof.
  intros Ho.
  assert (Hinv : invariant (evolves Rm st) (run_op o)).
  { destruct o; simpl; try done; unfold_flows; unfold saveChats;
      repeat inv_step evolves_prim. }
  apply Hinv, evolves_refl; done.
Qed.

End Evolution2.

Section StoreShape.
Context `{Host}.

Lemma clear_evolves Rm (st : app) :
  (forall l, Rm l l) -> (forall l1 l2 l3, Rm l1 l2 -> Rm l2 l3 -> Rm l1 l3) ->
  (forall l, Rm l []) ->
  evolves Rm st (exec clearCurrentChat st).
Proof.
  intros Hrefl Htrans Hclear.
  assert (Hinv : invariant (evolves Rm st) clearCurrentChat).
  { unfold clearCurrentChat, saveChats.
    repeat inv_step ltac:(first
      [ apply inv_evolves_alter; [done..|]; intros ?; by split_and!
      | apply inv_evolves_modify; [done..|]; done ]). }
  by apply Hinv, evolves_refl.
Qed.

Lemma op_evolves Rm (o : op) (st : app) :
  (forall l, Rm l l) -> (forall l1 l2 l3, Rm l1 l2 -> Rm l2 l3 -> Rm l1 l3) ->
  (forall l m, msg_ok m -> Rm l (l ++ [m])) -> (forall l, Rm l []) ->
  evolves Rm st (exec (run_op o) st).
Proof.
  intros Hrefl Htrans Hpush Hclear.
  destruct o; try (by apply clear_evolves); by apply flows_evolve.
Qed.

Lemma op_evolves_any (o : op) (st : app) :
  evolves any_messages st (exec (run_op o) st).
Proof. by apply op_evolves. Qed.

Lemma op_keeps_ok (o : op) (st : app) : evolves keeps_ok st (exec (run_op o) st).
Proof.
  apply op_evolves; unfold keeps_ok.
  - done.
  - auto.
  - intros l m Hm Hl. apply Forall_app. split; [done|]. by constructor.
  - intros l _. constructor.
Qed.

Lemma map_get_elem {V} (k : str) (v : V) (m : list (str * V)) :
  map_get k m = Some v -> (k, v) ∈ m.
Proof.
  induction m as [|[k0 v0] m IH]; simpl; [done|].
  destruct (decide (k = k0)) as [->|Hne].
  - intros [= ->]. apply elem_of_cons. by left.
  - intros Hg. apply elem_of_cons. right. by apply IH.
Qed.

Lemma elem_map_get {V} (k : str) (v : V) (m : list (str * V)) :
  NoDup (map_keys m) -> (k, v) ∈ m -> map_get k m = Some v.
Proof.
  induction m as [|[k0 v0] m IH]; simpl; [by intros _ ?%elem_of_nil|].
  intros Hnd Hin. apply NoDup_cons in Hnd as [Hk0 Hnd].
  apply elem_of_cons in Hin as [[= -> ->]|Hin].
  - by rewrite decide_True.
  - destruct (decide (k = k0)) as [->|Hne]; [|by apply IH].
    exfalso. apply Hk0. unfold map_keys.
    apply list_elem_of_In, in_map_iff. exists (k0, v). split; [done|].
    by apply list_elem_of_In.
Qed.

Lemma map_has_keys {V} (k : str) (m : list (str * V)) :
  map_has k m = true <-> k ∈ map_keys m.
Proof.
  unfold map_has. pose proof (map_get_None_keys k m) as Hn.
  destruct (map_get k m) eqn:Hg.
  - split; [intros _|done]. destruct (decide (k ∈ map_keys m)); [done|].
    by apply Hn in n.
  - split; [done|]. intros Hin. by apply Hn in Hin.
Qed.

Lemma evolves_wf Rm (st st' : app) :
  evolves Rm st st' -> wf_chats (chats st) -> wf_chats (chats st').
Proof.
  intros [Hkeys Hev] [Hnd Hid]. split; [by rewrite Hkeys|].
  apply Forall_forall. intros [k v'] Hin. simpl.
  assert (Hg' : map_get k (chats st') = Some v').
  { apply elem_map_get; [by rewrite Hkeys|done]. }
  assert (Hk : k ∈ map_keys (chats st)).
  { rewrite <- Hkeys. apply list_elem_of_In, in_map_iff. exists (k, v').
    split; [done|]. by apply list_elem_of_In. }
  apply map_has_keys in Hk. unfold map_has in Hk.
  destruct (map_get k (chats st)) as [v|] eqn:Hg; [|done].
  destruct (Hev k v Hg) as (c' & Hc' & Hi & _).
  assert (c' = v') by congruence. subst c'.
  rewrite Hi. rewrite Forall_forall in Hid.
  apply (Hid (k, v)). by apply map_get_elem.
Qed.

Lemma trace_Forall (P : app -> app -> Prop) (ops : list op) (st : app) :
  (forall s1 s2 s3, P s1 s2 -> P s2 s3 -> P s1 s3) ->
  Forall (fun o => forall s, P s (exec (run_op o) s)) ops ->
  Forall (P st) (trace ops st).
Proof.
  intros Htrans Hall. revert st.
  induction Hall as [|o ops Ho Hall IH]; intros st; simpl; constructor.
  - apply Ho.
  - eapply Forall_impl; [apply IH|]. intros s Hs. simpl in Hs.
    eapply Htrans; [apply Ho|exact Hs].
Qed.

End StoreShape.

(** X1.  No operation adds, removes or reorders a conversation, and none
    changes the identifier, the mode tag or the creation timestamp of one:
    along every sequence of operations each state holds the identifiers of
    the first in the same order, with these fields as they were. *)
Theorem operations_keep_store_shape `{Host} (ops : list op) (st : app) :
  Forall (evolves any_messages st) (trace ops st).
Proof.
  apply trace_Forall.
  - intros s1 s2 s3. by apply evolves_trans.
  - apply Forall_forall. intros o _ s. apply op_evolves_any.
Qed.

(** X2.  The message sequences are append-only.  Along a sequence of
    operations without [clearCurrentChat], the messages that a conversation
    held at the start remain, in their order, the first messages of that
    conversation in every later state. *)
Theorem messages_append_only `{Host} (ops : list op) (st : app) :
  Forall (fun o => o <> OpClear) ops ->
  Forall (evolves prefix st) (trace ops st).
Proof.
  intros Hops. apply trace_Forall.
  - intros s1 s2 s3. apply evolves_trans. intros l1 l2 l3. apply PreOrder_Transitive.
  - eapply Forall_impl; [exact Hops|]. intros o Ho s. simpl.
    apply flows_evolve; try done.
    + intros l1 l2 l3. apply PreOrder_Transitive.
    + intros l m _. by apply prefix_app_r.
Qed.

Lemma messages_append_only_witness :
  let ops := [OpSend "Hello" (demo_reply "Hi there") (fun _ => true);
              OpSwitch "chat_0";
              OpGenerateImage "a cat" (demo_failure 500 "Server Error")] in
  Forall (fun o => o <> OpClear) ops /\
  Forall (evolves prefix demo_app) (trace ops demo_app).
Proof.
  split; [by repeat constructor|].
  apply (messages_append_only _ demo_app). by repeat constructor.
Defined.

(** X3.  Every operation keeps the map well formed: the identifiers stay
    distinct and every conversation stays under its own identifier. *)
Theorem operations_keep_wf `{Host} (ops : list op) (st : app) :
  wf_chats (chats st) ->
  Forall (fun s => wf_chats (chats s)) (trace ops st).
Proof.
  intros Hwf. eapply Forall_impl.
  - apply (trace_Forall (evolves any_messages) ops st).
    + intros s1 s2 s3. by apply evolves_trans.
    + apply Forall_forall. intros o _ s. apply op_evolves_any.
  - intros s Hs. simpl in Hs. by eapply evolves_wf.
Qed.

Lemma operations_keep_wf_witness :
  let ops := [OpSend "Hello" (demo_reply "Hi there") (fun _ => true); OpClear] in
  wf_chats (chats demo_app) /\
  Forall (fun s => wf_chats (chats s)) (trace ops demo_app).
Proof.
  assert (Hwf : wf_chats (chats demo_app)).
  { split; [apply NoDup_singleton|]. by repeat constructor. }
  split; [exact Hwf|]. by apply (operations_keep_wf _ demo_app).
Defined.

(** ** The active pointer *)

Section Pointer.
Context `{Host}.

Lemma inv_pointer_modify (p : option str) (f : app -> app) :
  (forall st, currentChatId (f st) = currentChatId st) ->
  invariant (fun s => currentChatId s = p) (modify f).
Proof. intros Hf st Hst. unfold exec, modify. simpl. by rewrite Hf. Qed.

Lemma inv_pointer_alter (p : option str) (f : Chat.t -> Chat.t) :
  invariant (fun s => currentChatId s = p) (alter_current f).
Proof.
  intros st Hst. unfold exec, alter_current, modify. simpl.
  destruct (currentChatId st) eqn:E; simpl; congruence.
Qed.

Lemma pointer_kept (o : op) (st : app) :
  (forall id, o <> OpSwitch id) ->
  currentChatId (exec (run_op o) st) = currentChatId st.
Proof.
  intros Ho.
  assert (Hinv : invariant (fun s => currentChatId s = currentChatId st) (run_op o)).
  { destruct o; simpl; try (by destruct (Ho chatId));
      unfold_flows; unfold saveChats;
      repeat inv_step ltac:(first
        [ apply inv_pointer_alter | apply inv_pointer_modify; done ]). }
  by apply Hinv.
Qed.

End Pointer.

(** X4.  Only [switchChat] moves the active pointer, and the pointer stays
    valid: when it names a conversation of the map, it still does after
    every operation other than a switch to an identifier that is not in the
    map. *)
Theorem active_pointer_stays_valid `{Host} (o : op) (st : app) :
  has_current st = true ->
  match o with OpSwitch id => map_has id (chats st) = true | _ => True end ->
  has_current (exec (run_op o) st) = true /\
  currentChatId (exec (run_op o) st) =
    match o with OpSwitch id => Some id | _ => currentChatId st end.
Proof.
  intros Hcur Ho.
  assert (Hkeys : map_keys (chats (exec (run_op o) st)) = map_keys (chats st)).
  { apply (op_evolves_any o st). }
  assert (Hptr : currentChatId (exec (run_op o) st) =
                 match o with OpSwitch id => Some id | _ => currentChatId st end).
  { destruct o; try (by apply pointer_kept).
    unfold exec, run_op, switchChat, chat_of. munfold. rewrite saveChats_spec. simpl.
    unfold map_has in Ho. by destruct (map_get chatId (chats st)). }
  split; [|exact Hptr].
  unfold has_current in *. rewrite Hptr.
  destruct o; try (destruct (currentChatId st) as [k|]; [|done]);
    apply map_has_keys; rewrite Hkeys; by apply map_has_keys.
Qed.

Lemma active_pointer_stays_valid_witness :
  has_current demo_app = true /\
  has_current (exec (run_op (OpSend "Hello" (demo_reply "Hi") (fun _ => true))) demo_app)
    = true.
Proof.
  split; [reflexivity|].
  apply (active_pointer_stays_valid
           (OpSend "Hello" (demo_reply "Hi") (fun _ => true)) demo_app);
    [reflexivity|exact Logic.I].
Defined.

(** ** The generation flag *)

Section Flag.
Context `{Host}.


Lemma clears_low {A} (c : M A) : clears c -> invariant flag_clear c.
Proof. intros Hc st _. apply Hc. Qed.












(** With the flag cleared the loop of [typeMessage] stops at its first
    test. *)
Lemma reveal_cancelled (later : nat -> bool) (i : nat) (todo shown : str) :
  reveal false later i todo shown = (shown, false).
Proof. by destruct todo. Qed.









End Flag.



(** ** Write-through *)

Section WriteThrough.
Context `{Host}.

Lemma synced_saved (st : app) : synced (exec saveChats st).
Proof.
  unfold synced, exec. rewrite saveChats_spec. simpl. split.
  - rewrite lookup_insert_ne by done. by rewrite lookup_insert_eq.
  - by rewrite lookup_insert_eq.
Qed.

Lemma synced_modify (f : app -> app) :
  (forall st, chats (f st) = chats st /\ currentChatId (f st) = currentChatId st /\
              localStorage (f st) !! key_chats = localStorage st !! key_chats /\
              localStorage (f st) !! key_current = localStorage st !! key_current) ->
  invariant synced (modify f).
Proof.
  intros Hf st [Hc Hp]. destruct (Hf st) as (H1 & H2 & H3 & H4).
  unfold synced, exec, modify. simpl. by rewrite H1, H2, H3, H4.
Qed.

(** A mutation of the current chat followed by [saveChats]. *)
Lemma synced_alter_save (f : Chat.t -> Chat.t) :
  invariant synced (alter_current f;; saveChats).
Proof. intros st _. apply (synced_saved (exec (alter_current f) st)). Qed.

Ltac sync_prim :=
  apply synced_modify; intros ?; simpl; split_and!; try done;
  by rewrite lookup_delete_ne.

Ltac sync_with prim :=
  repeat first
    [ match goal with
      | |- invariant _ (bind (alter_current _) (fun _ => saveChats)) =>
          apply synced_alter_save
      end
    | inv_step prim ].

Ltac sync := sync_with ltac:(idtac; sync_prim).

Lemma synced_addMessage role content type : invariant synced (addMessage role content type).
Proof. unfold addMessage. sync. Qed.

Lemma synced_addImageMessage url caption role :
  invariant synced (addImageMessage url caption role).
Proof. unfold addImageMessage. sync. Qed.

Lemma synced_updateChatTitle text :
  invariant synced (updateChatTitleFromFirstMessage text).
Proof. unfold updateChatTitleFromFirstMessage. sync. Qed.

Lemma synced_switchChat chatId : invariant synced (switchChat chatId).
Proof.
  intros st _. unfold exec, switchChat, chat_of. munfold.
  pose proof (synced_saved (set_currentChatId (Some chatId) st)) as Hs.
  unfold exec in Hs. destruct (saveChats _) as [[[]|e] st1] eqn:Hsave;
    rewrite saveChats_spec in Hsave; [|done].
  injection Hsave as <-. simpl in *.
  by destruct (map_get chatId (chats st)).
Qed.

Ltac sync_call :=
  match goal with
  | |- invariant _ (addMessage _ _ _) => apply synced_addMessage
  | |- invariant _ (addImageMessage _ _ _) => apply synced_addImageMessage
  | |- invariant _ (updateChatTitleFromFirstMessage _) => apply synced_updateChatTitle
  | |- invariant _ (modify _) => sync_prim
  end.

Ltac sync_flow := sync_with ltac:(idtac; sync_call).

Lemma synced_op (o : op) : invariant synced (run_op o).
Proof.
  destruct o; simpl.
  - unfold sendMessage, generateAIResponse, typeMessage, showToast, openApiKeyModal,
      showTypingIndicator, removeTypingIndicator. sync_flow.
  - unfold generateImage, showToast, openApiKeyModal,
      showTypingIndicator, removeTypingIndicator. sync_flow.
  - unfold editImage, showToast, openApiKeyModal,
      showTypingIndicator, removeTypingIndicator. sync_flow.
  - sync_prim.
  - unfold clearCurrentChat. sync_flow.
  - apply synced_switchChat.
Qed.

End WriteThrough.

(** X6.  Every mutation is written through.  When the local store holds the
    serialized conversations and the active pointer of the state, it still
    does after every operation, whatever the operation changed and however
    it ended.  [createNewChat] brings this about from any state. *)
Theorem operations_write_through `{Host} (ops : list op) (st : app) (now : N) (iso : str) :
  synced (exec (createNewChat now iso) st) /\
  (synced st -> Forall synced (trace ops st)).
Proof.
  split.
  - unfold exec at 1. rewrite createNewChat_spec. apply synced_saved.
  - revert st. induction ops as [|o ops IH]; intros st Hst; simpl; constructor.
    + by apply (synced_op o).
    + apply IH. by apply (synced_op o).
Qed.

Lemma operations_write_through_witness :
  synced demo_app /\
  Forall synced
    (trace [OpSend "Hello" (demo_failure 401 "Unauthorized") (fun _ => true); OpClear]
       demo_app).
Proof.
  assert (Hs : synced demo_app) by (split; vm_compute; reflexivity).
  split; [exact Hs|].
  by apply (operations_write_through _ demo_app demo_now demo_iso).
Defined.

(** ** Start-up *)

Section Startup.
Context `{Host}.

Lemma wf_fold_set (cs : list Chat.t) (m : list (str * Chat.t)) :
  wf_chats m ->
  wf_chats (fold_left (fun m chat => map_set (Chat.id chat) chat m) cs m).
Proof.
  revert m. induction cs as [|c cs IH]; intros m Hwf; simpl; [done|].
  by apply IH, wf_map_set.
Qed.

Lemma wf_map_of_chats (cs : list Chat.t) : wf_chats (map_of_chats cs).
Proof. apply wf_fold_set. split; [constructor|constructor]. Qed.

(** The second half of [loadChats]: the choice of the active pointer. *)
Lemma pointer_choice (now : N) (iso : str) (saved : option str) (st : app) :
  wf_chats (chats st) ->
  let c := if truthy saved && map_has (default [] saved) (chats st)
           then modify (set_currentChatId saved)
           else match map_keys (chats st) with
                | k :: _ => modify (set_currentChatId (Some k))
                | [] => createNewChat now iso
                end in
  wf_chats (chats (exec c st)) /\ has_current (exec c st) = true /\
  isGenerating (exec c st) = isGenerating st /\
  userApiKey (exec c st) = userApiKey st /\
  currentMode (exec c st) = currentMode st.
Proof.
  intros Hwf c. subst c.
  destruct (truthy saved && map_has (default [] saved) (chats st)) eqn:Hs.
  - apply andb_true_iff in Hs as [Ht Hh].
    destruct saved as [[|a k]|]; try done.
  - destruct (map_keys (chats st)) as [|k ks] eqn:Hk.
    + unfold exec. rewrite createNewChat_spec. unfold exec. rewrite saveChats_spec. simpl.
      split_and!; trivial.
      * by apply (wf_map_set (fresh_chat now iso (currentMode st))).
      * unfold has_current, map_has. simpl. by rewrite map_get_set_eq.
    + unfold exec, modify. simpl. split_and!; trivial.
      unfold has_current. simpl. apply map_has_keys. rewrite Hk.
      apply elem_of_cons. by left.
Qed.

Lemma loadChats_establishes (now : N) (iso : str) (st : app) :
  wf_chats (chats st) ->
  followed (localStorage st) ->
  let st' := exec (loadChats now iso) st in
  wf_chats (chats st') /\ has_current st' = true /\
  isGenerating st' = isGenerating st /\ userApiKey st' = userApiKey st /\
  currentMode st' = currentMode st.
Proof.
  intros Hwf Hfol st'. subst st'.
  set (saved := localStorage st !! key_current).
  assert (Hsplit : exists st1,
    wf_chats (chats st1) /\ isGenerating st1 = isGenerating st /\
    userApiKey st1 = userApiKey st /\ currentMode st1 = currentMode st /\
    loadChats now iso st =
      (if truthy saved && map_has (default [] saved) (chats st1)
       then modify (set_currentChatId saved)
       else match map_keys (chats st1) with
            | k :: _ => modify (set_currentChatId (Some k))
            | [] => createNewChat now iso
            end) st1).
  { unfold loadChats. unfold bind at 1. unfold get at 1. fold saved.
    unfold followed in Hfol.
    destruct (localStorage st !! key_chats) as [[|c blob]|]; simpl.
    - exists st. by split_and!.
    - rewrite Hfol. unfold bind, get, try_catch.
      destruct (JSON_parse (c :: blob)) as [cs| |]; simpl; [| |done].
      + exists (set_chats (map_of_chats cs) st). split_and!; trivial.
        apply wf_map_of_chats.
      + exists (set_chats [] st). split_and!; trivial. apply (wf_map_of_chats []).
    - exists st. by split_and!. }
  destruct Hsplit as (st1 & Hwf1 & Hg & Hk & Hm & Heq).
  unfold exec. rewrite Heq, <- Hg, <- Hk, <- Hm.
  exact (pointer_choice now iso saved st1 Hwf1).
Qed.

End Startup.

(** X7.  After start-up the store is in order.  When the chat entry of the
    local store is missing or empty, raises in the [try] block of
    [loadChats] or is an array of chat objects, [initializeApp] returns
    normally, the rendering of the sidebar included; the map is then well
    formed, the active pointer names a conversation of the map, no request
    is outstanding, the mode is [chat], and the credential is the stored
    one.  (On an array of other values the constructor may end in a
    [TypeError] of [updateChatHistory]; the model does not follow these.) *)
Theorem startup_invariants `{Host} (storage : gmap str str) (now : N) (iso : str) :
  followed storage ->
  let st := exec (initializeApp now iso) (new_app storage) in
  outcome (initializeApp now iso) (new_app storage) = Ok tt /\
  wf_chats (chats st) /\
  has_current st = true /\
  isGenerating st = false /\
  currentMode st = "chat" /\
  userApiKey st = storage !! key_api /\
  length (updateChatHistory st) = length (chats st).
Proof.
  intros Hfol st. subst st.
  set (st0 := set_userApiKey (storage !! key_api) (new_app storage)).
  assert (Hinit : initializeApp now iso (new_app storage)
                  = (loadChats now iso;; setMode "chat") st0).
  { unfold initializeApp, loadUserSettings, bind, modify, get.
    change (set_userApiKey (localStorage (new_app storage) !! key_api) (new_app storage))
      with st0.
    destruct (loadChats now iso st0) as [[[]|e] st1]; reflexivity. }
  pose proof (loadChats_returns now iso st0) as Hret.
  assert (Hwf0 : wf_chats (chats st0)) by (split; constructor).
  pose proof (loadChats_establishes now iso st0 Hwf0 Hfol) as (Hwf & Hcur & Hgen & Hkey & _).
  unfold exec, outcome in *. rewrite Hinit. unfold bind, setMode, modify.
  destruct (loadChats now iso st0) as [[[]|e] st1]; simpl in *; [|done].
  split_and!; trivial.
  unfold updateChatHistory, list_chats. rewrite length_map.
  rewrite (Permutation_length (sort_chats_perm _)). unfold map_values.
  by rewrite length_map.
Qed.

(** X7, witness: a store with a stale pointer and a chat entry that is not
    an array. *)
Lemma startup_invariants_witness :
  let storage : gmap str str :=
    <[key_current := "chat_9" : str]> (<[key_chats := "{}" : str]> ∅) in
  followed storage /\
  has_current (exec (initializeApp demo_now demo_iso) (new_app storage)) = true.
Proof.
  intros storage.
  assert (Hfol : followed storage) by (vm_compute; reflexivity).
  split; [exact Hfol|].
  exact (proj1 (proj2 (proj2 (startup_invariants storage demo_now demo_iso Hfol)))).
Defined.

(** ** Creating a conversation *)

(** X8.  [createNewChat] returns normally and makes the new conversation,
    empty and under the sentinel title and the current mode, the active
    one; the other conversations are untouched.  A new identifier goes to
    the end of the map; an identifier already in use (a second creation
    within the same millisecond) keeps its place and loses its
    conversation to the new one. *)
Theorem createNewChat_effect `{Host} (now : N) (iso : str) (st : app) :
  let st' := exec (createNewChat now iso) st in
  let id := chat_id_at now in
  outcome (createNewChat now iso) st = Ok tt /\
  currentChatId st' = Some id /\
  map_get id (chats st') = Some (Chat.mk id "New Chat" [] (currentMode st) iso) /\
  (forall k, k <> id -> map_get k (chats st') = map_get k (chats st)) /\
  map_keys (chats st') =
    (if map_has id (chats st) then map_keys (chats st) else map_keys (chats st) ++ [id]) /\
  localStorage st' !! key_current = Some id.
Proof.
  intros st' id. subst st' id. unfold exec, outcome.
  rewrite createNewChat_spec. unfold exec. rewrite saveChats_spec. simpl.
  split_and!; trivial.
  - apply map_get_set_eq.
  - intros k Hne. by apply map_get_set_ne.
  - apply map_keys_set.
  - by rewrite lookup_insert_eq.
Qed.

(** ** The guards of the flows *)

Section Guards.
Context `{Host}.

Lemma untouched_refl st : untouched st st.
Proof. by split_and!. Qed.

End Guards.

(** X9.  A gated flow does nothing to the store and asks nothing of the
    network.  While a request is outstanding, without a credential, or on
    blank input, [sendMessage], [generateImage] and [editImage] return
    normally with the conversations, the local store, the pointer, the
    credential and the flag as they were, and with the same result whatever
    the network would have answered; [editImage] is gated as well while no
    image is attached.  A missing credential, when nothing else gates the
    flow, is signalled: the credential dialog is opened and a toast asks
    for the key. *)
Theorem gated_flows_leave_the_store `{Host}
    (st : app) (input : str) (net net' : fetch_outcome) (later later' : nat -> bool) :
  gated st input ->
  (outcome (sendMessage input net later) st = Ok tt /\
   untouched st (exec (sendMessage input net later) st) /\
   sendMessage input net later st = sendMessage input net' later' st) /\
  (outcome (generateImage input net) st = Ok tt /\
   untouched st (exec (generateImage input net) st) /\
   generateImage input net st = generateImage input net' st) /\
  (outcome (editImage input net) st = Ok tt /\
   untouched st (exec (editImage input net) st) /\
   editImage input net st = editImage input net' st) /\
  (isGenerating st = false -> truthy (userApiKey st) = false ->
   let st' := set_apiKeyModalOpen true
                (set_toasts (toasts st ++ ["Please configure your API key first" : str]) st) in
   exec (sendMessage input net later) st = st' /\
   exec (generateImage input net) st = st' /\
   (uploadedImage st = true -> exec (editImage input net) st = st')).
Proof.
  intros Hg. unfold gated in Hg.
  unfold sendMessage, generateImage, editImage, showToast, openApiKeyModal.
  unfold exec, outcome. munfold. simpl.
  destruct (isGenerating st) eqn:Hgen; simpl.
  { split_and!; try done. }
  destruct (truthy (userApiKey st)) eqn:Hkey; simpl.
  - destruct Hg as [?|[?|Ht]]; try done. rewrite Ht. simpl.
    destruct (uploadedImage st); simpl; split_and!; try done.
  - destruct (uploadedImage st); simpl; split_and!; try done.
Qed.

Lemma gated_flows_witness :
  let st := new_app ∅ in
  gated st "Hello" /\
  untouched st (exec (sendMessage "Hello" (demo_reply "Hi") (fun _ => true)) st) /\
  apiKeyModalOpen (exec (sendMessage "Hello" (demo_reply "Hi") (fun _ => true)) st) = true.
Proof.
  assert (Hg : gated (new_app ∅) "Hello") by (right; left; reflexivity).
  pose proof (gated_flows_leave_the_store (new_app ∅) "Hello" (demo_reply "Hi")
                (demo_reply "Hi") (fun _ => true) (fun _ => true) Hg)
    as ((_ & Hu & _) & _ & _ & Hsig).
  split; [exact Hg|]. split; [exact Hu|].
  destruct (Hsig eq_refl eq_refl) as (-> & _). reflexivity.
Defined.

(** X10.  A flow that is not gated and finds no active conversation ends
    with a TypeError before anything is recorded: the first append is made
    outside the [try] block of the flow, so the message is not stored, no
    request is made and no failure is reported in the conversation. *)
Theorem flows_need_a_conversation `{Host}
    (st : app) (input : str) (net : fetch_outcome) (later : nat -> bool) :
  has_current st = false ->
  isGenerating st = false ->
  truthy (userApiKey st) = true ->
  trim input <> [] ->
  sendMessage input net later st = (Throw TypeError, st) /\
  generateImage input net st = (Throw TypeError, st) /\
  (uploadedImage st = true -> editImage input net st = (Throw TypeError, st)).
Proof.
  intros Hcur Hgen Hkey Htrim.
  assert (Habs : match currentChatId st with
                 | Some k => map_get k (chats st) = None
                 | None => True
                 end).
  { unfold has_current, map_has in Hcur. destruct (currentChatId st) as [k|]; [|done].
    by destruct (map_get k (chats st)). }
  unfold sendMessage, generateImage, editImage.
  destruct (trim input) as [|a m]; [done|].
  split_and!; [| |intros Hup].
  all: unfold bind at 1; unfold get at 1; rewrite Hgen, Hkey, ?Hup; simpl.
  all: unfold bind at 1; by rewrite addMessage_absent.
Qed.

Lemma flows_need_a_conversation_witness :
  let st := exec (switchChat "chat_0") demo_app in
  has_current st = false /\
  sendMessage "Hello" (demo_reply "Hi") (fun _ => true) st = (Throw TypeError, st).
Proof.
  intros st.
  assert (H1 : has_current st = false) by (vm_compute; reflexivity).
  assert (H2 : isGenerating st = false) by (vm_compute; reflexivity).
  assert (H3 : truthy (userApiKey st) = true) by (vm_compute; reflexivity).
  assert (H4 : trim "Hello" <> []) by (vm_compute; discriminate).
  split; [exact H1|].
  exact (proj1 (flows_need_a_conversation st "Hello" (demo_reply "Hi") (fun _ => true)
                  H1 H2 H3 H4)).
Defined.

(** ** Requests that do not deliver *)

Section Failures.
Context `{Host}.





End Failures.



Section ImageFlows.
Context `{Host}.

Lemma title_after_two (text : str) (st : app) (k : str) (c : Chat.t) (mu ma : Msg.t) :
  currentChatId st = Some k ->
  map_get k (chats st) = Some (push_message ma (push_message mu c)) ->
  exists st',
    updateChatTitleFromFirstMessage text st = (Ok tt, st') /\
    map_get k (chats st') =
      Some (Chat.mk (Chat.id c) (title_after text c) (Chat.messages c ++ [mu; ma])
              (Chat.mode c) (Chat.createdAt c)) /\
    isGenerating st' = isGenerating st /\ userApiKey st' = userApiKey st /\
    revealed st' = revealed st /\ streamHtml st' = streamHtml st.
Proof.
  intros Hcur Hget. unfold title_after. case_bool_decide as Hfirst.
  - destruct Hfirst as [Hmsgs Htitle].
    eexists. split.
    + apply (updateChatTitle_fires _ st k _ Hcur Hget); [|done].
      simpl. by rewrite Hmsgs.
    + unfold exec. rewrite saveChats_spec. simpl.
      rewrite map_get_alter_eq, Hget. simpl. split_and!; trivial.
      unfold Chat.set_title, push_message, Chat.set_messages. simpl.
      by rewrite <- app_assoc.
  - exists st. split.
    + apply (updateChatTitle_skips _ st k _ Hcur Hget).
      apply not_and_l in Hfirst as [Hmsgs|Htitle]; [left|by right].
      simpl. rewrite !length_app. simpl. destruct (Chat.messages c); [done|].
      simpl. lia.
    + rewrite Hget. split_and!; trivial.
      unfold push_message, Chat.set_messages. simpl. by rewrite <- app_assoc.
Qed.




End ImageFlows.







(** ** An answered exchange on the screen *)

Section Animation.
Context `{Host}.

Lemma sendMessage_answered_state (st : app) (k : str) (c : Chat.t)
    (input statusText : str) (status : nat) (data : api_data) (later : nat -> bool) :
  isGenerating st = false ->
  truthy (userApiKey st) = true ->
  trim input <> [] ->
  currentChatId st = Some k ->
  map_get k (chats st) = Some c ->
  response_ok status = true ->
  success data = true ->
  exists st',
    sendMessage input (Response status statusText data) later st = (Ok tt, st') /\
    revealed st' = [] /\ streamHtml st' = formatMessage (d_content data).
Proof.
  intros Hgen Hkey Htrim Hcur Hget Hok Hsucc.
  unfold sendMessage. destruct (trim input) as [|a m] eqn:Em; [done|].
  unfold bind at 1. unfold get at 1. rewrite Hgen, Hkey. cbn [negb].
  erewrite bind_ok by (by apply (addMessage_ok st k c)).
  set (mu := Msg.mk "user" (a :: m) "text" None).
  unfold showTypingIndicator. erewrite bind_ok by reflexivity.
  set (st1 := set_isGenerating true (pushed mu k st)).
  assert (Hcur1 : currentChatId st1 = Some k) by done.
  assert (Hget1 : map_get k (chats st1) = Some (push_message mu c)).
  { subst st1. simpl. by rewrite map_get_alter_eq, Hget. }
  unfold try_catch.
  erewrite bind_ok by (by apply (generateAIResponse_ok st1 k _ _ _ _ _ Hcur1 Hget1)).
  unfold removeTypingIndicator. erewrite bind_ok by reflexivity.
  set (st2 := set_isGenerating false st1).
  erewrite bind_ok by (by apply (typeMessage_text_eq st2 k _ _ _ _ Hcur1 Hget1)).
  change (isGenerating st2) with false. rewrite reveal_cancelled. cbn [fst snd].
  set (ma := Msg.mk "assistant" (d_content data) "text" None).
  set (st3 := pushed ma k _).
  destruct (title_after_two (a :: m) st3 k c mu ma) as (st' & Heq & _ & _ & _ & Hr & Hs).
  { done. }
  { subst st3. by apply pushed_get. }
  exists st'. rewrite Heq. split; [done|]. by rewrite Hr, Hs.
Qed.

End Animation.

(** X15.  The reply of an answered exchange is never typed out.
    [sendMessage] removes the typing indicator, and with it clears the
    generation flag, before it calls [typeMessage], whose loop tests the
    flag before the first character: whatever happens during the delays,
    no character is revealed one at a time, and the message element shows
    the rendering of the whole reply at once. *)
Theorem reply_is_never_animated `{Host} (st : app) (k : str) (c : Chat.t)
    (input statusText : str) (status : nat) (data : api_data) (later : nat -> bool) :
  isGenerating st = false ->
  truthy (userApiKey st) = true ->
  trim input <> [] ->
  currentChatId st = Some k ->
  map_get k (chats st) = Some c ->
  response_ok status = true ->
  success data = true ->
  let st' := exec (sendMessage input (Response status statusText data) later) st in
  revealed st' = [] /\
  streamHtml st' = formatMessage (d_content data).
Proof.
  intros Hgen Hkey Htrim Hcur Hget Hok Hsucc st'. subst st'.
  destruct (sendMessage_answered_state st k c input statusText status data later)
    as (st' & Heq & Hr & Hs); try done.
  unfold exec. by rewrite Heq.
Qed.

Lemma reply_is_never_animated_witness :
  let st' := exec (sendMessage "Hello" (demo_reply "Hi *there*") (fun _ => true)) demo_app in
  isGenerating demo_app = false /\
  revealed st' = [] /\
  streamHtml st' = "Hi <strong class=" ++ q "bold-text" ++ ">there</strong>".
Proof.
  intros st'.
  assert (H1 : isGenerating demo_app = false) by (vm_compute; reflexivity).
  assert (H2 : truthy (userApiKey demo_app) = true) by (vm_compute; reflexivity).
  assert (H3 : trim "Hello" <> []) by (vm_compute; discriminate).
  assert (H4 : currentChatId demo_app = Some demo_id) by (vm_compute; reflexivity).
  assert (H5 : map_get demo_id (chats demo_app)
               = Some (Chat.mk demo_id "New Chat" [] "chat" demo_iso))
    by (vm_compute; reflexivity).
  split; [exact H1|].
  destruct (reply_is_never_animated demo_app demo_id _ "Hello" "OK" 200
              (mk_data true "Hi *there*" None []) (fun _ => true)
              H1 H2 H3 H4 H5 eq_refl eq_refl) as (Hr & Hs).
  split; [exact Hr|].
  etransitivity; [exact Hs|]. vm_compute; reflexivity.
Defined.

(** ** Hydration *)

Section Hydration.
Context `{Host}.

Lemma head_keys_set (k : str) (c : Chat.t) (m : list (str * Chat.t)) :
  m <> [] -> head (map_keys (map_set k c m)) = head (map_keys m).
Proof.
  destruct m as [|[k0 c0] m]; [done|]. intros _. simpl.
  destruct (decide (k = k0)) as [->|Hne]; reflexivity.
Qed.

Lemma map_set_nonempty (k : str) (c : Chat.t) (m : list (str * Chat.t)) :
  map_set k c m <> [].
Proof. destruct m as [|[k0 c0] m]; simpl; [done|]. by destruct (decide (k = k0)). Qed.

Lemma head_keys_fold (cs : list Chat.t) (m : list (str * Chat.t)) :
  m <> [] ->
  head (map_keys (fold_left (fun m chat => map_set (Chat.id chat) chat m) cs m))
  = head (map_keys m).
Proof.
  revert m. induction cs as [|c cs IH]; intros m Hm; simpl; [done|].
  rewrite IH by apply map_set_nonempty. by apply head_keys_set.
Qed.

Lemma head_keys_map_of_chats (c : Chat.t) (cs : list Chat.t) :
  head (map_keys (map_of_chats (c :: cs))) = Some (Chat.id c).
Proof. unfold map_of_chats. simpl. by rewrite head_keys_fold. Qed.

End Hydration.

(** X17.  Which conversation is active after hydration.  When the local
    store holds a chat array that parses and is not empty, [loadChats]
    builds the map from it, creates no conversation and writes nothing;
    the saved pointer is restored when it names a conversation of the map,
    and otherwise, stale or missing, the first conversation of the array
    becomes active, while the stale pointer stays in the local store. *)
Theorem loadChats_restores_pointer `{Host} (storage : gmap str str) (blob : str)
    (c : Chat.t) (cs : list Chat.t) (now : N) (iso : str) :
  storage !! key_chats = Some blob ->
  blob <> [] ->
  JSON_parse blob = Records (c :: cs) ->
  let st' := exec (loadChats now iso) (new_app storage) in
  let saved := storage !! key_current in
  chats st' = map_of_chats (c :: cs) /\
  localStorage st' = storage /\
  currentChatId st' =
    (if truthy saved && map_has (default [] saved) (map_of_chats (c :: cs))
     then saved else Some (Chat.id c)).
Proof.
  intros Hblob Hne Hparse st' saved. subst st'.
  assert (Heq : loadChats now iso (new_app storage) =
    (if truthy saved && map_has (default [] saved) (map_of_chats (c :: cs))
     then modify (set_currentChatId saved)
     else match map_keys (map_of_chats (c :: cs)) with
          | k :: _ => modify (set_currentChatId (Some k))
          | [] => createNewChat now iso
          end) (set_chats (map_of_chats (c :: cs)) (new_app storage))).
  { unfold loadChats. unfold bind at 1. unfold get at 1.
    change (localStorage (new_app storage)) with storage. rewrite Hblob.
    destruct blob as [|b blob]; [done|]. cbn [truthy default from_option id].
    rewrite Hparse. reflexivity. }
  unfold exec. rewrite Heq.
  pose proof (head_keys_map_of_chats c cs) as Hhead.
  destruct (truthy saved && map_has (default [] saved) (map_of_chats (c :: cs))); [done|].
  destruct (map_keys (map_of_chats (c :: cs))) as [|k ks]; [done|].
  injection Hhead as ->. done.
Qed.

Lemma loadChats_restores_pointer_witness :
  let c1 := Chat.mk "chat_1" "First" [] "chat" "2024-01-01T00:00:00.000Z" in
  let c2 := Chat.mk "chat_2" "Second" [] "chat" "2024-01-02T00:00:00.000Z" in
  let blob := JSON_stringify [c1; c2] in
  let storage : gmap str str :=
    <[key_current := "chat_9" : str]> (<[key_chats := blob]> ∅) in
  let st' := exec (loadChats 0 []) (new_app storage) in
  JSON_parse blob = Records [c1; c2] /\
  currentChatId st' = Some ("chat_1" : str) /\
  localStorage st' !! key_current = Some ("chat_9" : str).
Proof.
  intros c1 c2 blob storage st'.
  assert (Hp : JSON_parse blob = Records [c1; c2]) by (vm_compute; reflexivity).
  assert (Hb : storage !! key_chats = Some blob) by (vm_compute; reflexivity).
  assert (Hne : blob <> []) by (vm_compute; discriminate).
  split; [exact Hp|].
  destruct (loadChats_restores_pointer storage blob c1 [c2] 0 [] Hb Hne Hp)
    as (_ & Hs & Hc).
  split.
  - etransitivity; [exact Hc|]. vm_compute; reflexivity.
  - fold st' in Hs. rewrite Hs. vm_compute; reflexivity.
Defined.

(** X18.  The round trip of the whole store on the JSON host.  When the
    local store is in step with a well-formed map whose active pointer
    names one of its conversations, a fresh instance hydrated from that
    local store holds the same conversations, with every message and every
    title, under the same pointer, and lists them as before. *)
Theorem store_round_trip (st : app) (k : str) (now : N) (iso : str) :
  synced st ->
  wf_chats (chats st) ->
  currentChatId st = Some k ->
  k <> [] ->
  map_has k (chats st) = true ->
  let st' := exec (loadChats now iso) (new_app (localStorage st)) in
  chats st' = chats st /\
  currentChatId st' = Some k /\
  list_chats st' = list_chats st.
Proof.
  intros [Hsc Hsp] Hwf Hcur Hk Hhas st'. subst st'.
  destruct (JsonFacts.chats_round_trip (map_values (chats st))) as [Hne Hrt].
  rewrite Hcur in Hsp. simpl in Hsp.
  unfold exec.
  rewrite (loadChats_from_saved (chats st) k (JSON_stringify (map_values (chats st)))
             (localStorage st) now iso); try done.
Qed.

Lemma store_round_trip_witness :
  synced demo_app2 /\
  chats (exec (loadChats 0 []) (new_app (localStorage demo_app2))) = chats demo_app2.
Proof.
  assert (Hs : synced demo_app2) by (split; vm_compute; reflexivity).
  assert (Hwf : wf_chats (chats demo_app2)).
  { split; [apply NoDup_singleton|]. by repeat constructor. }
  assert (Hc : currentChatId demo_app2 = Some demo_id) by (vm_compute; reflexivity).
  assert (Hk : demo_id <> []) by discriminate.
  assert (Hh : map_has demo_id (chats demo_app2) = true) by (vm_compute; reflexivity).
  split; [exact Hs|].
  exact (proj1 (store_round_trip demo_app2 demo_id 0 [] Hs Hwf Hc Hk Hh)).
Defined.

(** ** The credential *)

(** X19.  Only a validated key is taken, and it survives a reload.
    [saveApiKey] returns normally and leaves the conversations and the
    pointer alone.  When the key field holds a key and the validation
    answers [success], the trimmed key becomes the credential, is stored,
    is read back by a fresh instance, and the dialog is closed; on a blank
    field, a rejected request or an answer without [success], the
    credential, the local store and the dialog are as before.
    [saveUserSettings] itself never erases: with no credential in memory
    the stored one stays and is what a fresh instance reads. *)
Theorem saveApiKey_takes_validated_keys `{Host}
    (st : app) (input : str) (net : fetch_outcome) :
  let st' := exec (saveApiKey input net) st in
  outcome (saveApiKey input net) st = Ok tt /\
  chats st' = chats st /\ currentChatId st' = currentChatId st /\
  userApiKey (exec loadUserSettings (new_app (localStorage (exec saveUserSettings st))))
  = (if truthy (userApiKey st) then userApiKey st else localStorage st !! key_api) /\
  if validated input net
  then userApiKey st' = Some (trim input) /\
       localStorage st' = <[key_api := trim input]> (localStorage st) /\
       apiKeyModalOpen st' = false /\
       userApiKey (exec loadUserSettings (new_app (localStorage st'))) = Some (trim input) /\
       truthy (userApiKey st') = true
  else userApiKey st' = userApiKey st /\
       localStorage st' = localStorage st /\
       apiKeyModalOpen st' = apiKeyModalOpen st.
Proof.
  intros st'. subst st'.
  assert (Hsettings :
    userApiKey (exec loadUserSettings (new_app (localStorage (exec saveUserSettings st))))
    = (if truthy (userApiKey st) then userApiKey st else localStorage st !! key_api)).
  { unfold exec, loadUserSettings, saveUserSettings, modify. simpl.
    destruct (userApiKey st) as [[|a k]|]; simpl; try done.
    by rewrite lookup_insert_eq. }
  unfold validated, saveApiKey.
  destruct (trim input) as [|a k]; [done|].
  destruct net as [e|status txt data]; [done|].
  unfold exec, outcome, showToast, closeApiKeyModal, saveUserSettings, loadUserSettings.
  munfold. simpl.
  destruct (success data); simpl; split_and!; try done.
  by rewrite lookup_insert_eq.
Qed.

(** ** The sidebar *)

Section Sidebar.
Context `{Host}.

Lemma newer_first_dated (a b : Chat.t) :
  dated a -> dated b -> newer_first a b = (time_of b - time_of a)%Z.
Proof.
  unfold dated, newer_first, time_of. intros [ta ->] [tb ->]. reflexivity.
Qed.

Lemma sort_insert_sorted (x : Chat.t) (l : list Chat.t) :
  dated x -> Forall dated l ->
  StronglySorted (fun a b => (time_of b <= time_of a)%Z) l ->
  StronglySorted (fun a b => (time_of b <= time_of a)%Z) (sort_insert x l).
Proof.
  intros Hx Hl Hs. induction Hs as [|y l Hs IH Hy]; simpl.
  - constructor; constructor.
  - apply Forall_cons in Hl as [Hdy Hl].
    rewrite (newer_first_dated y x) by done.
    destruct (Z.ltb_spec 0 (time_of x - time_of y)) as [Hlt|Hge].
    + constructor; [by constructor|]. constructor; [lia|].
      eapply Forall_impl; [exact Hy|]. intros z Hz. simpl in Hz. lia.
    + constructor; [by apply IH|].
      rewrite sort_insert_perm. constructor; [lia|exact Hy].
Qed.

Lemma sort_insert_dated (x : Chat.t) (l : list Chat.t) :
  dated x -> Forall dated l -> Forall dated (sort_insert x l).
Proof. intros Hx Hl. rewrite sort_insert_perm. by constructor. Qed.

Lemma fold_insert_sorted (l acc : list Chat.t) :
  Forall dated l -> Forall dated acc ->
  StronglySorted (fun a b => (time_of b <= time_of a)%Z) acc ->
  StronglySorted (fun a b => (time_of b <= time_of a)%Z)
    (fold_left (fun acc x => sort_insert x acc) l acc).
Proof.
  revert acc. induction l as [|x l IH]; intros acc Hl Hacc Hs; simpl; [done|].
  apply Forall_cons in Hl as [Hx Hl].
  apply IH; [done|by apply sort_insert_dated|by apply sort_insert_sorted].
Qed.

Lemma no_value_without_key (k : str) (m : list (str * Chat.t)) :
  Forall (fun kv => kv.1 = Chat.id kv.2) m -> k ∉ map_keys m ->
  filter (fun c => Some (Chat.id c) = Some k) (map_values m) = [].
Proof.
  intros Hid Hk. induction Hid as [|[k0 c0] m Hc0 Hid IH]; [done|].
  simpl in *. apply not_elem_of_cons in Hk as [Hne Hk].
  rewrite filter_cons_False by congruence. by apply IH.
Qed.

(** In a well-formed map exactly one conversation carries a given key. *)
Lemma one_value_per_key (k : str) (m : list (str * Chat.t)) :
  wf_chats m -> map_has k m = true ->
  length (filter (fun c => Some (Chat.id c) = Some k) (map_values m)) = 1.
Proof.
  intros [Hnd Hid] Hhas. induction m as [|[k0 c0] m IH]; [done|].
  apply NoDup_cons in Hnd as [Hk0 Hnd]. apply Forall_cons in Hid as [Hc0 Hid].
  simpl in *. subst k0. unfold map_has in Hhas. simpl in Hhas.
  destruct (decide (k = Chat.id c0)) as [->|Hne].
  - rewrite filter_cons_True by done. by rewrite no_value_without_key.
  - rewrite filter_cons_False by congruence. by apply IH.
Qed.

End Sidebar.

(** X20.  The sidebar lists the conversations newest first.  [list_chats],
    the sorted array of [updateChatHistory], holds the conversations of the
    map, each once; when every creation timestamp is a valid date, a
    conversation never comes after an older one. *)
Theorem sidebar_lists_newest_first `{Host} (st : app) :
  Forall dated (map_values (chats st)) ->
  Permutation (list_chats st) (map_values (chats st)) /\
  StronglySorted (fun a b => (time_of b <= time_of a)%Z) (list_chats st) /\
  map item_id (updateChatHistory st) = map Chat.id (list_chats st).
Proof.
  intros Hd. split_and!.
  - apply sort_chats_perm.
  - apply fold_insert_sorted; [done|constructor|constructor].
  - unfold updateChatHistory. by rewrite map_map.
Qed.

Lemma sidebar_lists_newest_first_witness :
  let c1 := Chat.mk "chat_1" "First" [] "chat" "2024-01-01T00:00:00.000Z" in
  let c2 := Chat.mk "chat_2" "Second" [] "chat" "2024-03-01T00:00:00.000Z" in
  let c3 := Chat.mk "chat_3" "Third" [] "chat" "2024-02-01T00:00:00.000Z" in
  let st := set_chats (map_of_chats [c1; c2; c3]) (new_app ∅) in
  Forall dated (map_values (chats st)) /\
  list_chats st = [c2; c3; c1] /\
  StronglySorted (fun a b => (time_of b <= time_of a)%Z) (list_chats st).
Proof.
  intros c1 c2 c3 st.
  assert (Hd : Forall dated (map_values (chats st))).
  { repeat constructor; by eexists. }
  split; [exact Hd|]. split; [vm_compute; reflexivity|].
  exact (proj1 (proj2 (sidebar_lists_newest_first st Hd))).
Defined.

(** X21.  Exactly one entry of the sidebar is marked active.  In a
    well-formed map whose active pointer names one of its conversations,
    one [chat-item] carries the class [active], and it is the entry of
    that conversation. *)
Theorem one_sidebar_entry_is_active `{Host} (st : app) (k : str) :
  wf_chats (chats st) ->
  currentChatId st = Some k ->
  map_has k (chats st) = true ->
  exists it,
    filter (fun it => item_active it = true) (updateChatHistory st) = [it] /\
    item_id it = k.
Proof.
  intros Hwf Hcur Hhas.
  assert (Hlen : length (filter (fun c => Some (Chat.id c) = Some k) (list_chats st)) = 1).
  { rewrite <- (one_value_per_key k (chats st) Hwf Hhas).
    apply Permutation_length, filter_Permutation, sort_chats_perm. }
  unfold updateChatHistory. rewrite Hcur.
  induction (list_chats st) as [|c l IH]; [done|].
  simpl. case_bool_decide as Hc.
  - rewrite filter_cons_True in Hlen by done.
    rewrite filter_cons_True by done. simpl in Hlen.
    injection Hlen as Hlen. apply length_zero_iff_nil in Hlen.
    eexists. split.
    + f_equal. clear IH Hc. induction l as [|d l IH]; [done|].
      destruct (decide (Some (Chat.id d) = Some k)) as [Hd|Hd].
      * by rewrite filter_cons_True in Hlen.
      * rewrite filter_cons_False in Hlen by done. simpl.
        rewrite filter_cons_False; [by apply IH|].
        simpl. by rewrite bool_decide_eq_false_2.
    + simpl. by injection Hc.
  - rewrite filter_cons_False in Hlen by done.
    rewrite filter_cons_False by (simpl; congruence). by apply IH.
Qed.

Lemma one_sidebar_entry_witness :
  wf_chats (chats demo_app2) /\
  filter (fun it => item_active it = true) (updateChatHistory demo_app2)
  = [mk_item demo_id true "fa-comment" "Hello"].
Proof.
  assert (Hwf : wf_chats (chats demo_app2)).
  { split; [apply NoDup_singleton|]. by repeat constructor. }
  assert (Hc : currentChatId demo_app2 = Some demo_id) by (vm_compute; reflexivity).
  assert (Hh : map_has demo_id (chats demo_app2) = true) by (vm_compute; reflexivity).
  split; [exact Hwf|].
  destruct (one_sidebar_entry_is_active demo_app2 demo_id Hwf Hc Hh) as (it & Hf & Hid).
  vm_compute; reflexivity.
Defined.

(** ** Truncation *)

(** X22.  [truncateText] cuts after [maxLength] characters.  The result
    begins with the first [maxLength] characters of the text; a text of at
    most [maxLength] characters keeps its length and a longer one comes out
    with [maxLength] characters and three dots, which for a text one or two
    characters over the limit is longer than the text.  Truncating a
    truncation to a shorter length is truncating the text: the label of
    the sidebar, cut at 20, of a title that was cut at 25 is the first
    message cut at 20. *)
Theorem truncateText_cuts (text : str) (n m : nat) :
  take n (truncateText text n) = take n text /\
  length (truncateText text n) =
    (if decide (length text <= n) then length text else n + 3) /\
  (n <= m -> truncateText (truncateText text m) n = truncateText text n).
Proof.
  unfold truncateText. split_and!.
  - destruct (Nat.ltb_spec n (length text)); [|done].
    rewrite take_app_le by (rewrite length_take; lia). by rewrite take_take, Nat.min_id.
  - destruct (Nat.ltb_spec n (length text)).
    + rewrite decide_False by lia. rewrite length_app, length_take. simpl. lia.
    + by rewrite decide_True by lia.
  - intros Hnm.
    destruct (Nat.ltb_spec m (length text)) as [Hm|Hm]; [|done].
    rewrite length_app, length_take. simpl.
    destruct (Nat.ltb_spec n (Nat.min m (length text) + 3)); [|lia].
    destruct (Nat.ltb_spec n (length text)); [|lia].
    f_equal. rewrite take_app_le by (rewrite length_take; lia).
    rewrite take_take. f_equal. lia.
Qed.

Lemma truncateText_cuts_witness :
  20 <= 25 /\
  truncateText (truncateText "What is the capital of France?" 25) 20
  = ("What is the capital ..." : str).
Proof.
  split; [lia|].
  etransitivity;
    [apply (truncateText_cuts "What is the capital of France?" 20 25); lia|].
  reflexivity.
Defined.

(** ** The form of the stored messages *)

Section MessageForm.
Context `{Host}.

Lemma evolves_messages_ok (st st' : app) :
  evolves keeps_ok st st' -> messages_ok st -> messages_ok st'.
Proof.
  intros [Hkeys Hev] Hok k c' Hc'.
  assert (Hk : map_has k (chats st) = true).
  { apply map_has_keys. rewrite <- Hkeys. apply map_has_keys.
    unfold map_has. by rewrite Hc'. }
  unfold map_has in Hk. destruct (map_get k (chats st)) as [c|] eqn:Hc; [|done].
  destruct (Hev k c Hc) as (c2 & Hc2 & _ & _ & _ & Hkeep).
  assert (c2 = c') by congruence. subst c2.
  apply Hkeep. by apply (Hok k c).
Qed.

Lemma trace_messages_ok (ops : list op) (st : app) :
  messages_ok st -> Forall messages_ok (trace ops st).
Proof.
  revert st. induction ops as [|o ops IH]; intros st Hst; simpl; constructor.
  - eapply evolves_messages_ok; [apply op_keeps_ok|done].
  - apply IH. eapply evolves_messages_ok; [apply op_keeps_ok|done].
Qed.

Lemma typeIcon_ok (c : Chat.t) :
  Forall msg_ok (Chat.messages c) ->
  typeIcon c = (if existsb (fun m => bool_decide (Msg.type m = "image")) (Chat.messages c)
                then "fa-image" else "fa-comment").
Proof.
  intros Hok. unfold typeIcon.
  destruct (existsb (fun m => bool_decide (Msg.type m = "image")) _); [done|].
  destruct (existsb (fun m => bool_decide (Msg.type m = "edit")) _) eqn:He; [|done].
  apply existsb_exists in He as (m & Hm & Hty). apply bool_decide_eq_true in Hty.
  rewrite Forall_forall in Hok. apply list_elem_of_In, Hok in Hm as (_ & Hin & _).
  rewrite Hty in Hin.
  repeat (apply elem_of_cons in Hin as [?|Hin]; [done|]).
  by apply elem_of_nil in Hin.
Qed.

End MessageForm.

(** X23.  The handlers only store messages of the documented form.  When
    every stored message has the role [user] or [assistant], one of the
    types [text], [image], [image_generation] and [image_edit], and a
    caption only under the type [image], this is still so after every
    sequence of operations. *)
Theorem stored_messages_keep_their_form `{Host} (ops : list op) (st : app) :
  messages_ok st -> Forall messages_ok (trace ops st).
Proof. apply trace_messages_ok. Qed.

Lemma stored_messages_witness :
  messages_ok demo_app /\
  Forall messages_ok
    (trace [OpSend "Hello" (demo_reply "Hi") (fun _ => true);
            OpGenerateImage "a cat" (Response 200 "OK" (mk_data true [] None "/img/1.png"))]
       demo_app).
Proof.
  assert (Hok : messages_ok demo_app).
  { intros k c Hc. change (chats demo_app) with
      [(demo_id, Chat.mk demo_id "New Chat" [] "chat" demo_iso)] in Hc.
    simpl in Hc. destruct (decide (k = demo_id)); [|done].
    injection Hc as <-. constructor. }
  split; [exact Hok|]. by apply (stored_messages_keep_their_form _ demo_app).
Defined.

(** X24.  The edit icon of the sidebar is never shown.  [updateChatHistory]
    looks for a message of type [edit], which no handler stores: along
    every run from a well-formed store of well-formed messages each entry
    carries the image icon when its conversation holds an [image] message,
    and the comment icon otherwise. *)
Theorem edit_icon_is_never_shown `{Host} (ops : list op) (st : app) :
  wf_chats (chats st) ->
  messages_ok st ->
  Forall (fun s =>
            Forall (fun it => item_icon it = ("fa-image" : str) \/
                              item_icon it = ("fa-comment" : str))
              (updateChatHistory s))
    (trace ops st).
Proof.
  intros Hwf Hst.
  assert (Hinv : Forall (fun s => wf_chats (chats s) /\ messages_ok s) (trace ops st)).
  { revert st Hwf Hst. induction ops as [|o ops IH]; intros st Hwf Hst; simpl;
      constructor.
    - split; [eapply evolves_wf|eapply evolves_messages_ok]; try apply op_keeps_ok; done.
    - apply IH; [eapply evolves_wf|eapply evolves_messages_ok];
        try apply op_keeps_ok; done. }
  eapply Forall_impl; [exact Hinv|].
  intros s [[Hnd _] Hs]. simpl. unfold updateChatHistory.
  apply Forall_forall. intros it Hit.
  apply list_elem_of_In, in_map_iff in Hit as (c & <- & Hc). simpl.
  assert (Hok : Forall msg_ok (Chat.messages c)).
  { apply list_elem_of_In in Hc. unfold list_chats in Hc.
    rewrite sort_chats_perm in Hc. unfold map_values in Hc.
    apply list_elem_of_In, in_map_iff in Hc as ([k c0] & <- & Hin).
    apply list_elem_of_In in Hin. simpl.
    apply (Hs k). by apply elem_map_get. }
  rewrite typeIcon_ok by done.
  destruct (existsb _ _); [by left|by right].
Qed.

Lemma edit_icon_witness :
  let st := exec (run_op OpUpload) demo_app in
  let ops := [OpEditImage "brighter" (Response 200 "OK" (mk_data true [] None "/img/2.png"))] in
  wf_chats (chats st) /\ messages_ok st /\
  map item_icon (updateChatHistory (exec (run_op (OpEditImage "brighter"
    (Response 200 "OK" (mk_data true [] None "/img/2.png")))) st)) = [("fa-image" : str)] /\
  Forall (fun s =>
            Forall (fun it => item_icon it = ("fa-image" : str) \/
                              item_icon it = ("fa-comment" : str))
              (updateChatHistory s))
    (trace ops st).
Proof.
  intros st ops.
  assert (Hwf : wf_chats (chats st)).
  { split; [apply NoDup_singleton|]. by repeat constructor. }
  assert (Hok : messages_ok st).
  { intros k c Hc. change (chats st) with
      [(demo_id, Chat.mk demo_id "New Chat" [] "chat" demo_iso)] in Hc.
    simpl in Hc. destruct (decide (k = demo_id)); [|done].
    injection Hc as <-. constructor. }
  split; [exact Hwf|]. split; [exact Hok|]. split; [vm_compute; reflexivity|].
  exact (edit_icon_is_never_shown ops st Hwf Hok).
Defined.

(** ** The renderer *)

(** X25.  The rendering holds no line feed.  The last rule of
    [formatMessage] replaces every line feed that the rules before it have
    left or produced, those of the code-block template included, by a
    [br] element. *)
Theorem formatMessage_has_no_line_feed (content : str) :
  ch_nl ∉ formatMessage content.
Proof.
  unfold formatMessage. destruct content as [|c content]; [apply not_elem_of_nil|].
  cbv zeta. rewrite fmt_br_nl2br. intros Hin.
  apply nl2br_chars in Hin as [[_ Hne]|Hbr]; [done|].
  simpl in Hbr. rewrite !elem_of_cons in Hbr. rewrite elem_of_nil in Hbr.
  destruct Hbr as [?|[?|[?|[?|[]]]]]; done.
Qed.

Section Escape.

Lemma escape_char_cases (c : ascii) :
  (c = "&"%char /\ escape_char c = "&amp;") \/
  (c = "<"%char /\ escape_char c = "&lt;") \/
  (c = ">"%char /\ escape_char c = "&gt;") \/
  (c = ascii_of_nat 160 /\ escape_char c = "&nbsp;") \/
  (c <> "&"%char /\ c <> "<"%char /\ c <> ">"%char /\ escape_char c = [c]).
Proof.
  unfold escape_char.
  destruct (Ascii.eqb_spec c "&"); [by left|].
  destruct (Ascii.eqb_spec c "<"); [right; left; done|].
  destruct (Ascii.eqb_spec c ">"); [right; right; left; done|].
  destruct (Ascii.eqb_spec c (ascii_of_nat 160)); [right; right; right; left; done|].
  right; right; right; right; done.
Qed.

End Escape.

(** X26.  [escapeHtml] neutralises markup and loses nothing.  Its result
    holds no angle bracket, so that no tag can start in it; different texts
    have different results; and a text without [&], [<], [>] and no-break
    space is left as it is. *)
Theorem escapeHtml_is_safe_and_faithful (text text' : str) :
  ("<"%char ∉ escapeHtml text) /\
  (">"%char ∉ escapeHtml text) /\
  (escapeHtml text = escapeHtml text' -> text = text') /\
  (Forall (fun c => c ∉ [("&"%char : ascii); "<"%char; ">"%char; ascii_of_nat 160]) text ->
   escapeHtml text = text).
Proof.
  unfold escapeHtml. split_and!.
  - induction text as [|c text IH]; [apply not_elem_of_nil|]. simpl.
    intros [Hin|Hin]%elem_of_app; [|done].
    destruct (escape_char_cases c) as [[_ H]|[[_ H]|[[_ H]|[[_ H]|(_ & Hlt & _ & H)]]]];
      rewrite H in Hin; simpl in Hin;
      repeat (apply elem_of_cons in Hin as [Hin|Hin]; [congruence|]);
      by apply elem_of_nil in Hin.
  - induction text as [|c text IH]; [apply not_elem_of_nil|]. simpl.
    intros [Hin|Hin]%elem_of_app; [|done].
    destruct (escape_char_cases c) as [[_ H]|[[_ H]|[[_ H]|[[_ H]|(_ & _ & Hgt & H)]]]];
      rewrite H in Hin; simpl in Hin;
      repeat (apply elem_of_cons in Hin as [Hin|Hin]; [congruence|]);
      by apply elem_of_nil in Hin.
  - revert text'. induction text as [|c text IH]; intros [|c' text'] Heq; simpl in Heq.
    + done.
    + destruct (escape_char_cases c') as [[_ H]|[[_ H]|[[_ H]|[[_ H]|(_ & _ & _ & H)]]]];
        rewrite H in Heq; done.
    + destruct (escape_char_cases c) as [[_ H]|[[_ H]|[[_ H]|[[_ H]|(_ & _ & _ & H)]]]];
        rewrite H in Heq; done.
    + destruct (escape_char_cases c) as
        [[-> H]|[[-> H]|[[-> H]|[[-> H]|(Ha & Hl & Hg & H)]]]];
      destruct (escape_char_cases c') as
        [[-> H']|[[-> H']|[[-> H']|[[-> H']|(Ha' & Hl' & Hg' & H')]]]];
      rewrite ?H, ?H' in Heq; simpl in Heq; simplify_eq; try done;
      f_equal; by apply IH.
  - intros Hall. induction Hall as [|c text Hc Hall IH]; [done|]. simpl. rewrite IH.
    rewrite !not_elem_of_cons in Hc. destruct Hc as (H1 & H2 & H3 & H4 & _).
    unfold escape_char.
    destruct (Ascii.eqb_spec c "&"); [done|].
    destruct (Ascii.eqb_spec c "<"); [done|].
    destruct (Ascii.eqb_spec c ">"); [done|].
    destruct (Ascii.eqb_spec c (ascii_of_nat 160)); [done|]. done.
Qed.

Section Emphasis.

Lemma rexec_wrap (d : ascii) (prev : option ascii) (s : str) :
  rexec (re_wrap d) prev s =
    match s with
    | a :: b :: s2 =>
        if Ascii.eqb a d && negb (Ascii.eqb b d)
        then
          match rest_from d s2 with
          | _ :: _ => Some (3 + length (run_before d s2), [(1, b :: run_before d s2)])
          | [] => None
          end
        else None
    | _ => None
    end.
Proof.
  unfold rexec, re_wrap. cbn [rseq rmatch cls_in].
  destruct s as [|a [|b s2]]; [done| |].
  - by destruct (Ascii.eqb a d).
  - destruct (Ascii.eqb a d); [|done]. cbn [andb negb].
    destruct (Ascii.eqb b d); [done|]. cbn [negb].
    rewrite greedy_star_not.
    2:{ intros p s' cs' Hhd. destruct s' as [|e s']; [done|].
        simpl. destruct (Ascii.eqb_spec e d) as [->|]; [done|done]. }
    pose proof (run_rest d s2) as Hsplit.
    destruct (rest_from d s2) as [|e r] eqn:Hrest; [done|].
    destruct (rest_from_cases d s2) as [[Hr _]|[r' Hr]]; [congruence|].
    rewrite Hrest in Hr. injection Hr as -> ->.
    rewrite Ascii.eqb_refl. f_equal. f_equal.
    + rewrite <- Hsplit at 1. cbn [length]. rewrite length_app. cbn [length]. lia.
    + f_equal. f_equal. rewrite <- Hsplit at 1 2. cbn [length].
      rewrite length_app. cbn [length].
      replace (S (length (run_before d s2) + S (length r')) - S (length r'))
        with (S (length (run_before d s2))) by lia.
      cbn [take]. f_equal. by rewrite take_app_length.
Qed.

Lemma wrap_match (d : ascii) (prev : option ascii) (t v : str) :
  t <> [] -> d ∉ t ->
  rexec (re_wrap d) prev (d :: t ++ d :: v) = Some (2 + length t, [(1, t)]).
Proof.
  intros Hne Ht. destruct t as [|b t2]; [done|].
  apply not_elem_of_cons in Ht as [Hb Ht2].
  rewrite rexec_wrap. cbn [Datatypes.app].
  destruct (run_before_app d t2 v Ht2) as [-> ->].
  rewrite Ascii.eqb_refl. destruct (Ascii.eqb_spec b d); [congruence|]. done.
Qed.

(** The bold expression on a run without asterisks: the two optional
    asterisks of the group stay empty. *)
Lemma bold_match (prev : option ascii) (t v : str) :
  t <> [] -> "*"%char ∉ t -> head v <> Some "*"%char ->
  rexec re_bold prev ("*"%char :: t ++ "*"%char :: v) = Some (2 + length t, [(1, t)]).
Proof.
  intros Hne Ht Hv. destruct t as [|b t2]; [done|].
  apply not_elem_of_cons in Ht as [Hb Ht2].
  unfold rexec, re_bold. cbn [rseq rmatch cls_in Datatypes.app or_else].
  rewrite Ascii.eqb_refl.
  destruct (Ascii.eqb_spec b "*"); [congruence|]. cbn [negb or_else].
  rewrite greedy_star_not.
  2:{ intros p s' cs' Hhd. destruct s' as [|e s']; [done|].
      simpl. destruct (Ascii.eqb_spec e "*") as [->|]; [done|done]. }
  destruct (run_before_app "*" t2 v Ht2) as [_ ->].
  rewrite Ascii.eqb_refl.
  assert (Hlen : length (b :: t2 ++ "*"%char :: v) - length ("*"%char :: v)
                 = S (length t2)).
  { cbn [length]. rewrite length_app. cbn [length]. lia. }
  assert (Htake : take (S (length t2)) (b :: t2 ++ "*"%char :: v) = b :: t2).
  { cbn [take]. f_equal. by rewrite take_app_length. }
  destruct v as [|c v].
  - cbn [or_else]. rewrite Hlen, Htake. f_equal. f_equal.
    cbn [length]. rewrite length_app. cbn [length]. lia.
  - simpl in Hv. destruct (Ascii.eqb_spec c "*"); [congruence|].
    cbn [or_else]. rewrite Hlen, Htake. f_equal. f_equal.
    cbn [length]. rewrite length_app. cbn [length]. lia.
Qed.

End Emphasis.

Section Stages.

Lemma replace_prefix_free (r : regex) (f : str -> caps -> str) (c : ascii) (p : str)
    (prev : option ascii) (u s : str) :
  (lit_prefix r).1 = c :: p -> c ∉ u ->
  replace_from r f prev (u ++ s) 0 = u ++ replace_from r f (prev_after prev u) s 0.
Proof.
  intros Hp. revert prev. induction u as [|a u IH]; intros prev Hu; [done|].
  apply not_elem_of_cons in Hu as [Hne Hu].
  cbn [Datatypes.app]. rewrite replace_from_0.
  rewrite rexec_lit_prefix by (rewrite Hp; simpl; congruence).
  rewrite IH by done. by rewrite prev_after_cons.
Qed.

(** A rule that wraps its only capture, at a delimited run. *)
Lemma emphasis_stage (r : regex) (f : str -> caps -> str) (d : ascii)
    (opening closing u t v : str) :
  (lit_prefix r).1 = [d] ->
  (forall prev, rexec r prev (d :: t ++ d :: v) = Some (2 + length t, [(1, t)])) ->
  (forall m cs, f m cs = opening ++ cap_text 1 cs ++ closing) ->
  d ∉ u -> d ∉ v ->
  replace_all r f (u ++ d :: t ++ d :: v) = u ++ opening ++ t ++ closing ++ v.
Proof.
  intros Hp Hmatch Hf Hu Hv. unfold replace_all.
  rewrite (replace_prefix_free r f d []) by done. f_equal.
  rewrite replace_from_0, Hmatch, Hf. cbn [cap_text cap Nat.eqb default from_option id].
  rewrite <- !app_assoc. f_equal. f_equal. f_equal.
  change (2 + length t) with (S (S (length t))). cbn iota.
  destruct (replace_from_skip r f (S (length t)) (Some d) (t ++ d :: v)) as [prev' ->].
  { rewrite length_app. cbn [length]. lia. }
  replace (drop (S (length t)) (t ++ d :: v)) with v.
  2:{ change (S (length t)) with (1 + length t). rewrite Nat.add_comm.
      rewrite <- drop_drop, drop_app_length. reflexivity. }
  apply replace_from_no_match. by eapply no_match_without_first_char.
Qed.

Lemma starts_with_head (a : ascii) (p : str) (c : ascii) (s : str) :
  c <> a -> starts_with (a :: p) (c :: s) = false.
Proof. intros Hne. unfold starts_with. apply bool_decide_eq_false. simpl. congruence. Qed.

Lemma starts_with_second (a b : ascii) (d : ascii) (s : str) :
  d <> b -> starts_with [a; b] (a :: d :: s) = false.
Proof. intros Hne. unfold starts_with. apply bool_decide_eq_false. simpl. congruence. Qed.

Lemma calm_inside (p : option ascii) (s : str) :
  at_line_start p = false -> head s <> Some "<"%char -> calm (p, s).
Proof.
  intros Hp Hs. unfold calm. cbn [fst snd]. rewrite Hp. split_and!; try done.
  destruct s as [|c s]; [done|]. apply starts_with_head. simpl in Hs. congruence.
Qed.

Lemma calm_tag (p : option ascii) (c : ascii) (s : str) :
  c <> "l"%char -> calm (p, "<"%char :: c :: s).
Proof.
  intros Hc. unfold calm. cbn [fst snd]. split_and!.
  - apply andb_false_iff. right. by apply starts_with_head.
  - apply andb_false_iff. right. by apply starts_with_head.
  - by apply (starts_with_second "<" "l").
Qed.

Lemma calm_run (x b : str) (p : option ascii) :
  at_line_start p = false ->
  Forall (fun a => is_line_terminator a = false /\ a <> "<"%char /\
                   emph_char a = false) x ->
  Forall calm (positions (prev_after p x) b) ->
  Forall calm (positions p (x ++ b)).
Proof.
  intros Hp Hx. revert p Hp.
  induction Hx as [|c x (Hc & Hlt & _) Hx IH]; intros p Hp Hb; [done|].
  cbn [Datatypes.app positions]. constructor.
  - apply calm_inside; [done|]. simpl. congruence.
  - rewrite prev_after_cons in Hb. by apply IH.
Qed.

Lemma calm_tag_then (tag b : str) (p : option ascii) :
  is_tag tag ->
  Forall calm (positions (prev_after p tag) b) ->
  Forall calm (positions p (tag ++ b)).
Proof.
  intros (c & rest & -> & Hc & Hall) Hb.
  cbn [Datatypes.app positions]. constructor; [by apply calm_tag|].
  rewrite prev_after_cons in Hb.
  by apply (calm_run (c :: rest) b (Some "<"%char)).
Qed.

(** Plain text before a tag or at the end of the subject. *)
Lemma calm_plain_then (a b : str) (p p' : option ascii) :
  (at_line_start p = true -> at_line_start p' = true) ->
  (forall c, c ∈ a -> markup_char c = false) ->
  list_line_from p' a = false ->
  (b = [] \/ exists c r, b = "<"%char :: c :: r) ->
  Forall calm (positions (prev_after p a) b) ->
  Forall calm (positions p (a ++ b)).
Proof.
  revert p p'. induction a as [|c a IH]; intros p p' Hline Hall Hl Hnext Hb; [done|].
  cbn [list_line_from] in Hl. apply orb_false_iff in Hl as [Hhd Htl].
  assert (Hc : markup_char c = false) by (apply Hall; by left).
  apply markup_char_false in Hc as (_ & _ & _ & _ & Hlt & Hgt).
  cbn [Datatypes.app positions]. constructor.
  - unfold calm. cbn [fst snd]. split_and!.
    + apply andb_false_iff. right. by apply starts_with_head.
    + destruct (at_line_start p) eqn:Hp; [|done]. rewrite (Hline eq_refl) in Hhd.
      rewrite andb_true_l in *.
      destruct (Ascii.eqb_spec c "-") as [->|Hne]; [|by apply starts_with_head].
      destruct a as [|e a].
      * destruct Hnext as [->|(e & r & ->)]; [done|]. by apply starts_with_second.
      * apply starts_with_second. intros ->. done.
    + by apply starts_with_head.
  - rewrite prev_after_cons in Hb. apply (IH (Some c) (Some c)); try done.
    intros e He. apply Hall. by right.
Qed.

Lemma calm_end (p : option ascii) : Forall calm (positions p []).
Proof.
  constructor; [|constructor]. unfold calm. cbn [fst snd].
  rewrite !andb_false_r. done.
Qed.

(** The three line rules leave a subject of calm positions as it is. *)
Lemma calm_stages (s : str) :
  Forall calm (positions None s) ->
  fmt_list_run (fmt_list_item (fmt_quote s)) = s.
Proof.
  intros Hpos. unfold fmt_quote, fmt_list_item, fmt_list_run.
  rewrite (replace_all_no_match re_quote _ s).
  2:{ eapply Forall_impl; [exact Hpos|]. intros [p t] (Hq' & _ & _).
      by apply rexec_line_rule. }
  rewrite (replace_all_no_match re_list_item _ s).
  2:{ eapply Forall_impl; [exact Hpos|]. intros [p t] (_ & Hli' & _).
      by apply rexec_line_rule. }
  rewrite (replace_all_no_match re_list_run _ s).
  2:{ eapply Forall_impl; [exact Hpos|]. intros [p t] (_ & _ & Hlr').
      apply rexec_lit_prefix. cbn [fst snd] in *.
      apply starts_with_false in Hlr'.
      apply (take_mismatch "<l" ("i class=" ++ q "list-item" ++ ">") t Hlr'). }
  done.
Qed.

Lemma nl2br_app (a b : str) : nl2br (a ++ b) = nl2br a ++ nl2br b.
Proof. unfold nl2br. apply flat_map_app. Qed.

(** A plain run between two tags, in plain text. *)
Lemma calm_wrapped (opening closing u t v : str) :
  is_tag opening -> is_tag closing ->
  is_plain u = true -> is_plain t = true -> is_plain v = true ->
  Forall calm (positions None (u ++ opening ++ t ++ closing ++ v)).
Proof.
  intros Ho Hc [Hu Hul]%plain_chars [Ht Htl]%plain_chars [Hv Hvl]%plain_chars.
  apply (calm_plain_then u _ None None); try done.
  { right. destruct Ho as (c & rest & -> & _). by eexists _, _. }
  apply calm_tag_then; [done|].
  apply (calm_plain_then t _ _ None); try done.
  { right. destruct Hc as (c & rest & -> & _). by eexists _, _. }
  apply calm_tag_then; [done|].
  rewrite <- (app_nil_r v).
  apply (calm_plain_then v [] _ None); try done.
  { by left. }
  apply calm_end.
Qed.

Lemma emph_not_in_tag (m : ascii) (tag : str) :
  emph_char m = true -> is_tag tag -> m ∉ tag.
Proof.
  intros Hm (c & rest & -> & _ & Hall). apply not_elem_of_cons. split.
  - intros ->. done.
  - intros Hin. rewrite Forall_forall in Hall. apply Hall in Hin as (_ & _ & He).
    congruence.
Qed.

Lemma emph_not_in_plain (m : ascii) (x : str) :
  emph_char m = true -> is_plain x = true -> m ∉ x.
Proof.
  intros Hm [Hall _]%plain_chars. apply not_markup; [done|].
  unfold emph_char, markup_char in *. simpl in *.
  repeat (destruct (Ascii.eqb m _); [done|]). done.
Qed.

Lemma emph_not_in_wrapped (m : ascii) (opening closing u t v : str) :
  emph_char m = true -> is_tag opening -> is_tag closing ->
  is_plain u = true -> is_plain t = true -> is_plain v = true ->
  m ∉ u ++ opening ++ t ++ closing ++ v.
Proof.
  intros Hm Ho Hc Hu Ht Hv. rewrite !not_elem_of_app. split_and!;
    first [by apply emph_not_in_tag | by apply emph_not_in_plain].
Qed.

Lemma nl2br_tag (tag : str) : is_tag tag -> nl2br tag = tag.
Proof.
  intros (c & rest & -> & _ & Hall). apply nl2br_no_nl.
  apply not_elem_of_cons. split; [done|]. intros Hin.
  rewrite Forall_forall in Hall. apply Hall in Hin as (Hl & _). done.
Qed.

(** The stages after an inline rule has wrapped a plain run. *)
Lemma line_stages_wrapped (opening closing u t v : str) :
  is_tag opening -> is_tag closing ->
  is_plain u = true -> is_plain t = true -> is_plain v = true ->
  let o := u ++ opening ++ t ++ closing ++ v in
  fmt_br (fmt_list_run (fmt_list_item (fmt_quote (fmt_code_block o)))) =
    nl2br u ++ opening ++ nl2br t ++ closing ++ nl2br v.
Proof.
  intros Ho Hc Hu Ht Hv o.
  destruct first_chars as (_ & _ & _ & _ & Hf & _).
  unfold fmt_code_block.
  rewrite (replace_all_without_first_char re_fence _ _ _ _ Hf)
    by (by apply emph_not_in_wrapped).
  rewrite calm_stages by (by apply calm_wrapped).
  rewrite fmt_br_nl2br. subst o. rewrite !nl2br_app.
  by rewrite (nl2br_tag opening Ho), (nl2br_tag closing Hc).
Qed.

Lemma formatMessage_stages (s : str) :
  s <> [] ->
  formatMessage s =
    fmt_br (fmt_list_run (fmt_list_item (fmt_quote (fmt_code_block
      (fmt_inline_code (fmt_strike (fmt_italic (fmt_bold s)))))))).
Proof. by destruct s. Qed.

Lemma tags_are_tags :
  is_tag ("<strong class=" ++ q "bold-text" ++ ">") /\ is_tag "</strong>" /\
  is_tag ("<em class=" ++ q "italic-text" ++ ">") /\ is_tag "</em>" /\
  is_tag ("<del class=" ++ q "strike-text" ++ ">") /\ is_tag "</del>" /\
  is_tag ("<code class=" ++ q "inline-code" ++ ">") /\ is_tag "</code>".
Proof.
  split_and!; eexists _, _; (split; [reflexivity|]); (split; [done|]);
    repeat (constructor; [by split_and!|]); constructor.
Qed.

End Stages.

Lemma inline_rules_render (u t v : str) :
  is_plain u = true -> is_plain t = true -> is_plain v = true -> t <> [] ->
  formatMessage (u ++ "*" ++ t ++ "*" ++ v) =
    nl2br u ++ ("<strong class=" ++ q "bold-text" ++ ">") ++ nl2br t
    ++ "</strong>" ++ nl2br v /\
  formatMessage (u ++ "_" ++ t ++ "_" ++ v) =
    nl2br u ++ ("<em class=" ++ q "italic-text" ++ ">") ++ nl2br t
    ++ "</em>" ++ nl2br v /\
  formatMessage (u ++ "~" ++ t ++ "~" ++ v) =
    nl2br u ++ ("<del class=" ++ q "strike-text" ++ ">") ++ nl2br t
    ++ "</del>" ++ nl2br v /\
  formatMessage (u ++ "`" ++ t ++ "`" ++ v) =
    nl2br u ++ ("<code class=" ++ q "inline-code" ++ ">") ++ nl2br t
    ++ "</code>" ++ nl2br v.
Proof.
  intros Hu Ht Hv Hne.
  destruct tags_are_tags as (Hb1 & Hb2 & Hi1 & Hi2 & Hs1 & Hs2 & Hc1 & Hc2).
  destruct first_chars as (Hb & Hi & Hst & Hc & _).
  assert (Hfree : forall m d : ascii, emph_char m = true -> m <> d ->
            m ∉ u ++ [d] ++ t ++ [d] ++ v).
  { intros m d Hm Hmd. rewrite !not_elem_of_app. split_and!;
      first [ by apply emph_not_in_plain
            | apply not_elem_of_cons; split; [done|apply not_elem_of_nil] ]. }
  change (u ++ "*" ++ t ++ "*" ++ v) with (u ++ "*"%char :: t ++ "*"%char :: v).
  change (u ++ "_" ++ t ++ "_" ++ v) with (u ++ "_"%char :: t ++ "_"%char :: v).
  change (u ++ "~" ++ t ++ "~" ++ v) with (u ++ "~"%char :: t ++ "~"%char :: v).
  change (u ++ "`" ++ t ++ "`" ++ v) with (u ++ "`"%char :: t ++ "`"%char :: v).
  assert (Hfree' : forall m d : ascii, emph_char m = true -> m <> d ->
            m ∉ u ++ d :: t ++ d :: v) by exact Hfree.
  split_and!; rewrite formatMessage_stages by (by destruct u).
  - unfold fmt_bold at 1.
    rewrite (emphasis_stage re_bold tmpl_bold "*"
               ("<strong class=" ++ q "bold-text" ++ ">") "</strong>" u t v);
      [|done| |done| |].
    2:{ intros prev. apply bold_match; [done|by apply emph_not_in_plain|].
        destruct v as [|c v]; [done|]. simpl. intros [= ->].
        by apply (emph_not_in_plain "*" ("*"%char :: v)) in Hv; [apply Hv; left|]. }
    2, 3: by apply emph_not_in_plain.
    unfold fmt_italic, fmt_strike, fmt_inline_code.
    rewrite (replace_all_without_first_char re_italic _ _ _ _ Hi)
      by (by apply emph_not_in_wrapped).
    rewrite (replace_all_without_first_char re_strike _ _ _ _ Hst)
      by (by apply emph_not_in_wrapped).
    rewrite (replace_all_without_first_char re_inline_code _ _ _ _ Hc)
      by (by apply emph_not_in_wrapped).
    by apply line_stages_wrapped.
  - unfold fmt_bold, fmt_italic at 1.
    rewrite (replace_all_without_first_char re_bold _ _ _ _ Hb) by (by apply Hfree').
    rewrite (emphasis_stage re_italic tmpl_italic "_"
               ("<em class=" ++ q "italic-text" ++ ">") "</em>" u t v);
      [|done| |done| |].
    2:{ intros prev. apply (wrap_match "_"); [done|by apply emph_not_in_plain]. }
    2, 3: by apply emph_not_in_plain.
    unfold fmt_strike, fmt_inline_code.
    rewrite (replace_all_without_first_char re_strike _ _ _ _ Hst)
      by (by apply emph_not_in_wrapped).
    rewrite (replace_all_without_first_char re_inline_code _ _ _ _ Hc)
      by (by apply emph_not_in_wrapped).
    by apply line_stages_wrapped.
  - unfold fmt_bold, fmt_italic, fmt_strike at 1.
    rewrite (replace_all_without_first_char re_bold _ _ _ _ Hb) by (by apply Hfree').
    rewrite (replace_all_without_first_char re_italic _ _ _ _ Hi) by (by apply Hfree').
    rewrite (emphasis_stage re_strike tmpl_strike "~"
               ("<del class=" ++ q "strike-text" ++ ">") "</del>" u t v);
      [|done| |done| |].
    2:{ intros prev. apply (wrap_match "~"); [done|by apply emph_not_in_plain]. }
    2, 3: by apply emph_not_in_plain.
    unfold fmt_inline_code.
    rewrite (replace_all_without_first_char re_inline_code _ _ _ _ Hc)
      by (by apply emph_not_in_wrapped).
    by apply line_stages_wrapped.
  - unfold fmt_bold, fmt_italic, fmt_strike, fmt_inline_code at 1.
    rewrite (replace_all_without_first_char re_bold _ _ _ _ Hb) by (by apply Hfree').
    rewrite (replace_all_without_first_char re_italic _ _ _ _ Hi) by (by apply Hfree').
    rewrite (replace_all_without_first_char re_strike _ _ _ _ Hst) by (by apply Hfree').
    rewrite (emphasis_stage re_inline_code tmpl_inline_code "`"
               ("<code class=" ++ q "inline-code" ++ ">") "</code>" u t v);
      [|done| |done| |].
    2:{ intros prev. apply (wrap_match "`"); [done|by apply emph_not_in_plain]. }
    2, 3: by apply emph_not_in_plain.
    by apply line_stages_wrapped.
Qed.

(** X27.  Each inline rule renders a delimited run.  In a message that is
    plain text but for one run of plain text between two asterisks, two
    underscores, two tildes or two backticks, [formatMessage] puts the run
    into the element of the rule, [strong], [em], [del] or [code], drops
    the delimiters, and, as everywhere, turns the line feeds into [br]
    elements; nothing else is changed. *)
Theorem emphasis_is_rendered (u t v : str) :
  is_plain u = true -> is_plain t = true -> is_plain v = true -> t <> [] ->
  formatMessage (u ++ "*" ++ t ++ "*" ++ v) =
    nl2br u ++ ("<strong class=" ++ q "bold-text" ++ ">") ++ nl2br t
    ++ "</strong>" ++ nl2br v /\
  formatMessage (u ++ "_" ++ t ++ "_" ++ v) =
    nl2br u ++ ("<em class=" ++ q "italic-text" ++ ">") ++ nl2br t
    ++ "</em>" ++ nl2br v /\
  formatMessage (u ++ "~" ++ t ++ "~" ++ v) =
    nl2br u ++ ("<del class=" ++ q "strike-text" ++ ">") ++ nl2br t
    ++ "</del>" ++ nl2br v /\
  formatMessage (u ++ "`" ++ t ++ "`" ++ v) =
    nl2br u ++ ("<code class=" ++ q "inline-code" ++ ">") ++ nl2br t
    ++ "</code>" ++ nl2br v.
Proof. apply inline_rules_render. Qed.

Lemma emphasis_witness :
  is_plain "Say " = true /\ is_plain "hello there" = true /\ is_plain "!" = true /\
  formatMessage "Say _hello there_!" =
    "Say <em class=" ++ q "italic-text" ++ ">hello there</em>!".
Proof.
  split; [reflexivity|]. split; [reflexivity|]. split; [reflexivity|].
  destruct (emphasis_is_rendered "Say " "hello there" "!" eq_refl eq_refl eq_refl)
    as (_ & Hi & _); [done|].
  exact Hi.
Defined.

(** ** The toolbar *)

Section Toolbar.

Lemma substring_ordered (s : str) (a b : nat) :
  a <= b -> b <= length s -> substring s a b = take (b - a) (drop a s).
Proof.
  intros Hab Hb. unfold substring.
  replace (Nat.min a (length s)) with a by lia.
  replace (Nat.min b (length s)) with b by lia.
  replace (Nat.max a b) with b by lia.
  by replace (Nat.min a b) with a by lia.
Qed.

Lemma substring_selected (u t v : str) :
  substring (u ++ t ++ v) (length u) (length u + length t) = t /\
  substring (u ++ t ++ v) 0 (length u) = u /\
  drop (length u + length t) (u ++ t ++ v) = v.
Proof.
  split_and!.
  - rewrite substring_ordered by (rewrite ?length_app; lia).
    rewrite drop_app_length.
    replace (length u + length t - length u) with (length t) by lia.
    by rewrite take_app_length.
  - rewrite substring_ordered by (rewrite ?length_app; lia).
    rewrite Nat.sub_0_r, drop_0. by rewrite take_app_length.
  - rewrite <- drop_drop, drop_app_length. by rewrite drop_app_length.
Qed.

End Toolbar.

(** X28.  A toolbar button wraps the selection and nothing else.
    [applyFormatting] puts the two wrappers of the format around the
    selected text, leaves the text before and after it as it is, and
    places the caret behind the closing wrapper. *)
Theorem applyFormatting_wraps_the_selection (type : format) (u t v : str) :
  let textarea := applyFormatting type (selected u t v) in
  Textarea.value textarea = u ++ (wrappers type).1 ++ t ++ (wrappers type).2 ++ v /\
  Textarea.selectionStart textarea
    = length (u ++ (wrappers type).1 ++ t ++ (wrappers type).2) /\
  Textarea.selectionEnd textarea = Textarea.selectionStart textarea.
Proof.
  unfold applyFormatting, selected. cbn [Textarea.value Textarea.selectionStart
    Textarea.selectionEnd].
  destruct (substring_selected u t v) as (-> & -> & ->).
  destruct (wrappers type) as [sw ew]. cbn [fst snd Textarea.value
    Textarea.selectionStart Textarea.selectionEnd].
  rewrite <- !app_assoc. split_and!; trivial.
  rewrite !length_app. lia.
Qed.

Section LineRules.

(** A greedy run over characters of the class ends where the rest of the
    expression matches behind them. *)
Lemma greedy_star_over (k : cls) (prev : option ascii) (t w : str) (cs : caps)
    (kont : mcont) (x : str * caps) :
  Forall (fun c => cls_in k c = true) t ->
  greedy_star k (prev_after prev t) w cs kont = Some x ->
  greedy_star k prev (t ++ w) cs kont = Some x.
Proof.
  intros Ht. revert prev. induction Ht as [|c t Hc Ht IH]; intros prev Hw; [done|].
  cbn [Datatypes.app greedy_star]. rewrite Hc.
  rewrite prev_after_cons in Hw. by rewrite (IH _ Hw).
Qed.

Lemma one_line_dot (t : str) :
  one_line t -> Forall (fun c => cls_in CDot c = true) t.
Proof.
  intros Ht. eapply Forall_impl; [exact Ht|]. intros c Hc. simpl. by rewrite Hc.
Qed.

Lemma line_match (a b : ascii) (prev : option ascii) (t : str) :
  at_line_start prev = true -> one_line t ->
  rexec (re_line a b) prev (a :: b :: t) = Some (2 + length t, [(1, t)]).
Proof.
  intros Hp Ht. unfold rexec, re_line. cbn [rseq rlit rmatch cls_in].
  rewrite Hp, !Ascii.eqb_refl.
  rewrite <- (app_nil_r t) at 1.
  erewrite greedy_star_over; [|by apply one_line_dot|reflexivity].
  cbv beta iota. cbn [length]. rewrite !Nat.sub_0_r, firstn_all. reflexivity.
Qed.

Lemma replace_whole (r : regex) (f : str -> caps -> str) (s : str) (cs : caps) :
  s <> [] ->
  rexec r None s = Some (length s, cs) ->
  (forall p, rexec r p [] = None) ->
  replace_all r f s = f s cs.
Proof.
  intros Hne Hm Hend. destruct s as [|c s]; [done|].
  unfold replace_all. rewrite replace_from_0, Hm. cbn [length].
  destruct (replace_from_skip r f (length s) (Some c) s) as [prev' ->]; [done|].
  rewrite drop_all. rewrite replace_from_0, Hend.
  rewrite app_nil_r. f_equal. cbn [take]. by rewrite firstn_all.
Qed.

Lemma line_rule (a b : ascii) (f : str -> caps -> str) (t : str) :
  one_line t ->
  replace_all (re_line a b) f (a :: b :: t) = f (a :: b :: t) [(1, t)].
Proof.
  intros Ht. apply replace_whole.
  - done.
  - by apply line_match.
  - intros p. apply rexec_lit_prefix. done.
Qed.

Lemma plain_one_line_nl2br (t : str) : one_line t -> nl2br t = t.
Proof.
  intros Ht. apply nl2br_no_nl. intros Hin.
  unfold one_line in Ht. rewrite Forall_forall in Ht. by apply Ht in Hin.
Qed.

Lemma quote_tags :
  is_tag ("<blockquote class=" ++ q "quote-block" ++ ">") /\ is_tag "</blockquote>".
Proof.
  split_and!; eexists _, _; (split; [reflexivity|]); (split; [done|]);
    repeat (constructor; [by split_and!|]); constructor.
Qed.

Lemma inline_stages_marked (a b : ascii) (t : str) :
  emph_char a = false -> emph_char b = false -> is_plain t = true ->
  fmt_code_block (fmt_inline_code (fmt_strike (fmt_italic (fmt_bold (a :: b :: t)))))
  = a :: b :: t.
Proof.
  intros Ha Hb Ht.
  destruct first_chars as (Hbo & Hi & Hst & Hc & Hf & _).
  assert (Hfree : forall m : ascii, emph_char m = true -> m ∉ a :: b :: t).
  { intros m Hm. rewrite !not_elem_of_cons. split_and!; try congruence.
    by apply emph_not_in_plain. }
  unfold fmt_bold, fmt_italic, fmt_strike, fmt_inline_code, fmt_code_block.
  rewrite (replace_all_without_first_char re_bold _ _ _ _ Hbo) by (by apply Hfree).
  rewrite (replace_all_without_first_char re_italic _ _ _ _ Hi) by (by apply Hfree).
  rewrite (replace_all_without_first_char re_strike _ _ _ _ Hst) by (by apply Hfree).
  rewrite (replace_all_without_first_char re_inline_code _ _ _ _ Hc) by (by apply Hfree).
  by rewrite (replace_all_without_first_char re_fence _ _ _ _ Hf) by (by apply Hfree).
Qed.

Lemma calm_list_stages (s : str) :
  Forall calm (positions None s) ->
  fmt_list_run (fmt_list_item s) = s.
Proof.
  intros Hpos. unfold fmt_list_item, fmt_list_run.
  rewrite (replace_all_no_match re_list_item _ s).
  2:{ eapply Forall_impl; [exact Hpos|]. intros [p t] (_ & Hli' & _).
      by apply rexec_line_rule. }
  rewrite (replace_all_no_match re_list_run _ s).
  2:{ eapply Forall_impl; [exact Hpos|]. intros [p t] (_ & _ & Hlr').
      apply rexec_lit_prefix. cbn [fst snd] in *.
      apply starts_with_false in Hlr'.
      apply (take_mismatch "<l" ("i class=" ++ q "list-item" ++ ">") t Hlr'). }
  done.
Qed.

Lemma quote_line_renders (t : str) :
  is_plain t = true -> one_line t ->
  formatMessage ("> " ++ t) =
    ("<blockquote class=" ++ q "quote-block" ++ ">") ++ t ++ "</blockquote>".
Proof.
  intros Hp Ht. destruct quote_tags as [Ho Hc].
  change (list_ascii_of_string "> " ++ t) with (">"%char :: " "%char :: t).
  rewrite formatMessage_stages by done.
  rewrite inline_stages_marked by done.
  unfold fmt_quote at 1. change re_quote with (re_line ">" " ").
  rewrite line_rule by done.
  unfold tmpl_quote, cap_text. cbn [cap Nat.eqb default from_option id].
  pose proof (calm_wrapped _ _ [] t [] Ho Hc eq_refl Hp eq_refl) as Hcalm.
  rewrite app_nil_r in Hcalm. cbn [Datatypes.app] in Hcalm.
  set (opening := "<blockquote class=" ++ q "quote-block" ++ ">") in *.
  change (fmt_br (fmt_list_run (fmt_list_item (opening ++ t ++ "</blockquote>")))
          = opening ++ t ++ "</blockquote>").
  rewrite calm_list_stages by exact Hcalm.
  rewrite fmt_br_nl2br, !nl2br_app, (nl2br_tag _ Ho), (nl2br_tag _ Hc).
  by rewrite plain_one_line_nl2br.
Qed.

Lemma rlit_match (w : str) (p : option ascii) (s : str) (cs : caps) (kont : mcont) :
  rmatch (rlit w) p (w ++ s) cs kont = kont (prev_after p w) s cs.
Proof.
  revert p. induction w as [|c w IH]; intros p; [done|].
  cbn [rlit rmatch Datatypes.app cls_in]. rewrite Ascii.eqb_refl.
  by rewrite IH, prev_after_cons.
Qed.

Lemma list_run_match (t : str) :
  one_line t ->
  let li := ("<li class=" ++ q "list-item" ++ ">") ++ t ++ "</li>" in
  rexec re_list_run None li = Some (length li, [(1, li)]).
Proof.
  intros Ht li. unfold rexec, re_list_run. cbn [rseq rmatch].
  subst li. rewrite rlit_match.
  erewrite greedy_star_over; [|by apply one_line_dot|].
  2:{ cbn [greedy_star cls_in is_line_terminator]. simpl. reflexivity. }
  cbv beta iota. cbn [length]. rewrite !Nat.sub_0_r, firstn_all. reflexivity.
Qed.

Lemma list_line_renders (t : str) :
  is_plain t = true -> one_line t ->
  formatMessage ("- " ++ t) =
    ("<ul class=" ++ q "styled-list" ++ ">")
    ++ (("<li class=" ++ q "list-item" ++ ">") ++ t ++ "</li>") ++ "</ul>".
Proof.
  intros Hp Ht.
  change (list_ascii_of_string "- " ++ t) with ("-"%char :: " "%char :: t).
  rewrite formatMessage_stages by done.
  rewrite inline_stages_marked by done.
  destruct first_chars as (_ & _ & _ & _ & _ & Hq & _).
  unfold fmt_quote.
  rewrite (replace_all_without_first_char re_quote _ _ _ _ Hq).
  2:{ rewrite !not_elem_of_cons. split_and!; try done.
      apply plain_chars in Hp as [Hall _]. by apply not_markup. }
  unfold fmt_list_item. change re_list_item with (re_line "-" " ").
  rewrite line_rule by done.
  unfold tmpl_list_item, cap_text. cbn [cap Nat.eqb default from_option id].
  set (li := "<li class=" ++ q "list-item" ++ ">" ++ t ++ "</li>").
  assert (Hli : li = ("<li class=" ++ q "list-item" ++ ">") ++ t ++ "</li>")
    by reflexivity.
  unfold fmt_list_run. rewrite (replace_whole re_list_run tmpl_list_run li [(1, li)]).
  - unfold tmpl_list_run, cap_text. cbn [cap Nat.eqb default from_option id].
    rewrite fmt_br_nl2br, plain_one_line_nl2br.
    + rewrite Hli. by rewrite <- !app_assoc.
    + rewrite Hli. unfold one_line. rewrite !Forall_app. split_and!; try done;
        repeat (constructor; [done|]); constructor.
  - done.
  - rewrite Hli. by apply list_run_match.
  - intros p. apply rexec_lit_prefix. done.
Qed.

End LineRules.

(** X29.  What the toolbar buttons produce is what the renderer reads.
    After the bold, italic or code button has been used on a selected run
    of plain text within plain text, [formatMessage] shows the run in the
    element of the format and the text around it unchanged; after the
    quote button has been used on a message of one line, the message is
    shown as a quotation. *)
Theorem toolbar_formats_are_rendered (u t v : str) :
  is_plain u = true -> is_plain t = true -> is_plain v = true -> t <> [] ->
  formatMessage (Textarea.value (applyFormatting FBold (selected u t v))) =
    nl2br u ++ ("<strong class=" ++ q "bold-text" ++ ">") ++ nl2br t
    ++ "</strong>" ++ nl2br v /\
  formatMessage (Textarea.value (applyFormatting FItalic (selected u t v))) =
    nl2br u ++ ("<em class=" ++ q "italic-text" ++ ">") ++ nl2br t
    ++ "</em>" ++ nl2br v /\
  formatMessage (Textarea.value (applyFormatting FCode (selected u t v))) =
    nl2br u ++ ("<code class=" ++ q "inline-code" ++ ">") ++ nl2br t
    ++ "</code>" ++ nl2br v /\
  (one_line t ->
   formatMessage (Textarea.value (applyFormatting FQuote (selected [] t []))) =
     ("<blockquote class=" ++ q "quote-block" ++ ">") ++ t ++ "</blockquote>").
Proof.
  intros Hu Ht Hv Hne.
  assert (Hval : forall type u v, Textarea.value (applyFormatting type (selected u t v))
                 = u ++ (wrappers type).1 ++ t ++ (wrappers type).2 ++ v).
  { intros type u' v'. unfold applyFormatting, selected. cbn [Textarea.value
      Textarea.selectionStart Textarea.selectionEnd].
    destruct (substring_selected u' t v') as (-> & -> & ->).
    destruct (wrappers type) as [sw ew]. cbn [fst snd Textarea.value].
    by rewrite <- !app_assoc. }
  rewrite !Hval. cbn [wrappers fst snd].
  destruct (inline_rules_render u t v Hu Ht Hv Hne) as (Hb & Hi & _ & Hc).
  split_and!; trivial.
  intros Hline. cbn [Datatypes.app]. rewrite app_nil_r.
  by apply quote_line_renders.
Qed.

Lemma toolbar_witness :
  is_plain "Say " = true /\ is_plain "hello" = true /\ is_plain [] = true /\
  formatMessage (Textarea.value (applyFormatting FBold (selected "Say " "hello" []))) =
    "Say <strong class=" ++ q "bold-text" ++ ">hello</strong>".
Proof.
  split; [reflexivity|]. split; [reflexivity|]. split; [reflexivity|].
  destruct (toolbar_formats_are_rendered "Say " "hello" [] eq_refl eq_refl eq_refl)
    as (Hb & _); [done|].
  exact Hb.
Defined.

Section Lines.

Lemma line_match_more (a b : ascii) (prev : option ascii) (t rest : str) :
  at_line_start prev = true -> one_line t ->
  rexec (re_line a b) prev (a :: b :: t ++ ch_nl :: rest) = Some (2 + length t, [(1, t)]).
Proof.
  intros Hp Ht. unfold rexec, re_line. cbn [rseq rlit rmatch cls_in].
  rewrite Hp, !Ascii.eqb_refl.
  erewrite greedy_star_over; [|by apply one_line_dot|reflexivity].
  cbv beta iota. cbn [length]. rewrite !length_app. cbn [length].
  replace (length t + S (length rest) - S (length rest)) with (length t) by lia.
  rewrite take_app_length. f_equal. f_equal. lia.
Qed.

Lemma replace_match (r : regex) (f : str -> caps -> str) (prev : option ascii)
    (s rest : str) (cs : caps) :
  s <> [] ->
  rexec r prev (s ++ rest) = Some (length s, cs) ->
  exists p', replace_from r f prev (s ++ rest) 0 = f s cs ++ replace_from r f p' rest 0.
Proof.
  intros Hne Hm. destruct s as [|c s]; [done|].
  cbn [Datatypes.app]. rewrite replace_from_0. cbn [Datatypes.app] in Hm. rewrite Hm.
  cbn [length].
  destruct (replace_from_skip r f (length s) (Some c) (s ++ rest)) as [p' ->].
  { rewrite length_app. lia. }
  exists p'. rewrite drop_app_length. f_equal.
  cbn [take]. by rewrite take_app_length.
Qed.

(** A rule that matches whole lines, on a subject made of such lines. *)
Lemma replace_lines (r : regex) (f : str -> caps -> str) (h : str -> str)
    (cs : str -> caps) (P : str -> Prop) (ls : list str) :
  (forall t rest p, P t -> at_line_start p = true ->
     rest = [] \/ (exists r', rest = ch_nl :: r') ->
     rexec r p (h t ++ rest) = Some (length (h t), cs t)) ->
  (forall t, P t -> h t <> []) ->
  (forall p s, rexec r p (ch_nl :: s) = None) ->
  (forall p, rexec r p [] = None) ->
  Forall P ls ->
  forall prev, at_line_start prev = true ->
  replace_from r f prev (Json.join nl (map h ls)) 0
  = Json.join nl (map (fun t => f (h t) (cs t)) ls).
Proof.
  intros Hm Hne Hnl Hend Hall.
  induction Hall as [|t ls Ht Hall IH]; intros prev Hp.
  - simpl. by rewrite Hend.
  - destruct ls as [|t2 ls].
    + cbn [map Json.join].
      rewrite <- (app_nil_r (h t)) at 1.
      destruct (replace_match r f prev (h t) [] (cs t)) as [p' ->].
      { by apply Hne. }
      { apply Hm; [done|done|by left]. }
      rewrite replace_from_0, Hend. by rewrite app_nil_r.
    + cbn [map] in *. rewrite !JsonFacts.join_cons2.
      change (nl ++ ?x) with (ch_nl :: x).
      destruct (replace_match r f prev (h t) (ch_nl :: Json.join nl (h t2 :: map h ls))
                  (cs t)) as [p' ->].
      { by apply Hne. }
      { apply Hm; [done|done|right; by eexists]. }
      f_equal. rewrite replace_from_0, Hnl. f_equal. by apply IH.
Qed.

Lemma inline_stages_free (s : str) :
  (forall m : ascii, emph_char m = true -> m ∉ s) ->
  fmt_code_block (fmt_inline_code (fmt_strike (fmt_italic (fmt_bold s)))) = s.
Proof.
  intros Hfree. destruct first_chars as (Hbo & Hi & Hst & Hc & Hf & _).
  unfold fmt_bold, fmt_italic, fmt_strike, fmt_inline_code, fmt_code_block.
  rewrite (replace_all_without_first_char re_bold _ _ _ _ Hbo) by (by apply Hfree).
  rewrite (replace_all_without_first_char re_italic _ _ _ _ Hi) by (by apply Hfree).
  rewrite (replace_all_without_first_char re_strike _ _ _ _ Hst) by (by apply Hfree).
  rewrite (replace_all_without_first_char re_inline_code _ _ _ _ Hc) by (by apply Hfree).
  by rewrite (replace_all_without_first_char re_fence _ _ _ _ Hf) by (by apply Hfree).
Qed.

Lemma not_in_lines (m a b : ascii) (ls : list str) :
  m <> a -> m <> b -> m <> ch_nl -> Forall (fun t => m ∉ t) ls ->
  m ∉ Json.join nl (map (fun t => a :: b :: t) ls).
Proof.
  intros Ha Hb Hn Hall. induction Hall as [|t ls Ht Hall IH]; [apply not_elem_of_nil|].
  destruct ls as [|t2 ls].
  - cbn [map Json.join]. rewrite !not_elem_of_cons. by split_and!.
  - cbn [map] in *. rewrite JsonFacts.join_cons2. unfold nl.
    rewrite !not_elem_of_app, !not_elem_of_cons. split_and!; try done.
    apply not_elem_of_nil.
Qed.

Lemma emph_not_in_lines (m a b : ascii) (ls : list str) :
  emph_char m = true -> emph_char a = false -> emph_char b = false ->
  Forall plain_line ls ->
  m ∉ Json.join nl (map (fun t => a :: b :: t) ls).
Proof.
  intros Hm Ha Hb Hall. apply not_in_lines; try (intros ->; congruence).
  - intros ->. done.
  - eapply Forall_impl; [exact Hall|]. intros t [Hp _]. by apply emph_not_in_plain.
Qed.

Lemma nl2br_lines (xs : list str) :
  Forall one_line xs -> nl2br (Json.join nl xs) = Json.join "<br>" xs.
Proof.
  intros Hall. induction Hall as [|x xs Hx Hall IH]; [done|].
  destruct xs as [|y xs].
  - cbn [Json.join]. by apply plain_one_line_nl2br.
  - rewrite !JsonFacts.join_cons2, !nl2br_app, IH.
    by rewrite plain_one_line_nl2br.
Qed.

Lemma one_line_app (a b : str) : one_line a -> one_line b -> one_line (a ++ b).
Proof. intros Ha Hb. by apply Forall_app. Qed.

Lemma one_line_tag (tag : str) : is_tag tag -> one_line tag.
Proof.
  intros (c & rest & -> & _ & Hall). constructor; [done|].
  eapply Forall_impl; [exact Hall|]. by intros a (Ha & _).
Qed.

Lemma run_match (w : str) (p : option ascii) (t rest : str) :
  one_line t ->
  rest = [] \/ (exists r', rest = ch_nl :: r') ->
  rmatch (RGroup 1 (RSeq (rlit w) (RSeq (RStar CDot) (rlit "</li>")))) p
    ((w ++ t ++ "</li>") ++ rest) [] (fun _ s' cs => Some (s', cs))
  = Some (rest, [(1, w ++ t ++ "</li>")]).
Proof.
  intros Ht Hrest. cbn [rmatch].
  assert (Hlen : length ((w ++ t ++ "</li>") ++ rest) - length rest
                 = length (w ++ t ++ "</li>")).
  { rewrite (length_app _ rest). lia. }
  assert (Htake : take (length (w ++ t ++ "</li>")) ((w ++ t ++ "</li>") ++ rest)
                  = w ++ t ++ "</li>") by apply take_app_length.
  set (subject := (w ++ t ++ "</li>") ++ rest) in *.
  assert (Hsub : subject = w ++ t ++ ("</li>" ++ rest)).
  { subst subject. by rewrite <- !app_assoc. }
  rewrite Hsub at 1. rewrite rlit_match.
  erewrite greedy_star_over; [reflexivity|by apply one_line_dot|].
  destruct Hrest as [->|[r' ->]]; simpl; simpl in Hlen, Htake; rewrite Hlen, Htake;
    reflexivity.
Qed.

Lemma list_run_match_more (p : option ascii) (t rest : str) :
  one_line t ->
  rest = [] \/ (exists r', rest = ch_nl :: r') ->
  rexec re_list_run p (li_of t ++ rest) = Some (length (li_of t), [(1, li_of t)]).
Proof.
  intros Ht Hrest. unfold rexec, li_of.
  change re_list_run with
    (RGroup 1 (RSeq (rlit ("<li class=" ++ q "list-item" ++ ">"))
                 (RSeq (RStar CDot) (rlit "</li>")))).
  rewrite run_match by done. f_equal. f_equal.
  rewrite (length_app _ rest). lia.
Qed.

Lemma calm_quote_lines (ls : list str) (prev : option ascii) :
  Forall plain_line ls ->
  Forall calm (positions prev (Json.join nl (map blockquote_of ls))).
Proof.
  intros Hall. revert prev. destruct quote_tags as [Ho Hc].
  induction Hall as [|t ls [Hp Ht] Hall IH]; intros prev; [apply calm_end|].
  apply plain_chars in Hp as [Hchars Hlist].
  assert (Hone : forall tail,
            Forall calm (positions (Some ">"%char) tail) ->
            Forall calm (positions prev (blockquote_of t ++ tail))).
  { intros tail Htail. unfold blockquote_of.
    set (opening := "<blockquote class=" ++ q "quote-block" ++ ">") in *.
    rewrite <- !app_assoc.
    apply calm_tag_then; [done|].
    apply (calm_plain_then t _ _ None); try done.
    { right. by eexists _, _. }
    apply calm_tag_then; [done|]. exact Htail. }
  destruct ls as [|t2 ls].
  - cbn [map Json.join]. rewrite <- (app_nil_r (blockquote_of t)).
    apply Hone, calm_end.
  - cbn [map] in *. rewrite JsonFacts.join_cons2. apply Hone.
    change (nl ++ ?x) with (ch_nl :: x). cbn [positions]. constructor.
    + by apply calm_inside.
    + apply IH.
Qed.

Lemma one_line_blockquote (t : str) : one_line t -> one_line (blockquote_of t).
Proof.
  intros Ht. unfold blockquote_of, one_line. rewrite !Forall_app.
  split_and!; try done; repeat (constructor; [done|]); constructor.
Qed.

Lemma one_line_ul (t : str) : one_line t -> one_line (ul_of (li_of t)).
Proof.
  intros Ht. unfold ul_of, li_of, one_line. rewrite !Forall_app.
  split_and!; try done; repeat (constructor; [done|]); constructor.
Qed.

Lemma quote_lines_render (ls : list str) :
  Forall plain_line ls ->
  formatMessage (Json.join nl (map (fun t => "> " ++ t) ls))
  = Json.join "<br>" (map blockquote_of ls).
Proof.
  intros Hall. destruct ls as [|t0 ls0]; [done|].
  remember (t0 :: ls0) as ls eqn:Hls.
  change (map (fun t => list_ascii_of_string "> " ++ t) ls)
    with (map (fun t => ">"%char :: " "%char :: t) ls).
  rewrite formatMessage_stages.
  2:{ subst ls. cbn [map]. by destruct ls0. }
  rewrite inline_stages_free by (intros m Hm; by apply emph_not_in_lines).
  unfold fmt_quote at 1, replace_all. change re_quote with (re_line ">" " ").
  rewrite (replace_lines (re_line ">" " ") tmpl_quote (fun t => ">"%char :: " "%char :: t)
             (fun t => [(1, t)]) one_line ls); try done.
  - change (map (fun t => tmpl_quote _ [(1, t)]) ls) with (map blockquote_of ls).
    rewrite calm_list_stages by (by apply calm_quote_lines).
    rewrite fmt_br_nl2br. apply nl2br_lines.
    apply Forall_map. eapply Forall_impl; [exact Hall|].
    intros t [_ Ht]. by apply one_line_blockquote.
  - intros t rest p Ht Hp [->|[r' ->]].
    + rewrite app_nil_r. by apply line_match.
    + by apply line_match_more.
  - intros p s. by apply rexec_lit_prefix.
  - intros p. by apply rexec_lit_prefix.
  - eapply Forall_impl; [exact Hall|]. by intros t [_ Ht].
Qed.

Lemma list_lines_render (ls : list str) :
  Forall plain_line ls ->
  formatMessage (Json.join nl (map (fun t => "- " ++ t) ls))
  = Json.join "<br>" (map (fun t => ul_of (li_of t)) ls).
Proof.
  intros Hall. destruct ls as [|t0 ls0]; [done|].
  remember (t0 :: ls0) as ls eqn:Hls.
  assert (Hlines : Forall one_line ls).
  { eapply Forall_impl; [exact Hall|]. by intros t [_ Ht]. }
  change (map (fun t => list_ascii_of_string "- " ++ t) ls)
    with (map (fun t => "-"%char :: " "%char :: t) ls).
  rewrite formatMessage_stages.
  2:{ subst ls. cbn [map]. by destruct ls0. }
  rewrite inline_stages_free by (intros m Hm; by apply emph_not_in_lines).
  destruct first_chars as (_ & _ & _ & _ & _ & Hq & _).
  unfold fmt_quote.
  rewrite (replace_all_without_first_char re_quote _ _ _ _ Hq).
  2:{ apply not_in_lines; try done. eapply Forall_impl; [exact Hall|].
      intros t [Hp _]. apply plain_chars in Hp as [Hchars _]. by apply not_markup. }
  unfold fmt_list_item at 1, replace_all. change re_list_item with (re_line "-" " ").
  rewrite (replace_lines (re_line "-" " ") tmpl_list_item
             (fun t => "-"%char :: " "%char :: t) (fun t => [(1, t)]) one_line ls);
    try done.
  - change (map (fun t => tmpl_list_item _ [(1, t)]) ls) with (map li_of ls).
    unfold fmt_list_run, replace_all.
    rewrite <- (map_id ls) at 1. rewrite map_map.
    rewrite (replace_lines re_list_run tmpl_list_run li_of (fun t => [(1, li_of t)])
               one_line ls); try done;
      [|intros t rest p Ht _ Hrest; by apply list_run_match_more].
    + change (map (fun t => tmpl_list_run (li_of t) [(1, li_of t)]) ls)
        with (map (fun t => ul_of (li_of t)) ls).
      rewrite fmt_br_nl2br. apply nl2br_lines.
      apply Forall_map. eapply Forall_impl; [exact Hlines|].
      intros t Ht. by apply one_line_ul.
  - intros t rest p Ht Hp [->|[r' ->]].
    + rewrite app_nil_r. by apply line_match.
    + by apply line_match_more.
  - intros p s. by apply rexec_lit_prefix.
  - intros p. by apply rexec_lit_prefix.
Qed.

End Lines.

(** X30.  The line rules render each marked line on its own.  A message
    whose lines are plain text behind the marker [> ] becomes one
    [blockquote] element per line, and one whose lines are plain text
    behind the marker [- ] becomes one list per line, each with a single
    item: consecutive list lines are not gathered into one list, because
    the expression of the list rule does not reach across a line feed.  The
    markers are dropped and the line feeds between the elements become
    [br] elements. *)
Theorem marked_lines_are_rendered (ls : list str) :
  Forall plain_line ls ->
  formatMessage (Json.join nl (map (fun t => "> " ++ t) ls))
  = Json.join "<br>" (map blockquote_of ls) /\
  formatMessage (Json.join nl (map (fun t => "- " ++ t) ls))
  = Json.join "<br>" (map (fun t => ul_of (li_of t)) ls).
Proof.
  intros Hall. split; [by apply quote_lines_render|by apply list_lines_render].
Qed.

Lemma marked_lines_witness :
  Forall plain_line [("milk" : str); ("eggs" : str)] /\
  formatMessage ("- milk" ++ nl ++ "- eggs") =
    "<ul class=" ++ q "styled-list" ++ "><li class=" ++ q "list-item"
    ++ ">milk</li></ul><br><ul class=" ++ q "styled-list" ++ "><li class="
    ++ q "list-item" ++ ">eggs</li></ul>".
Proof.
  assert (Hl : Forall plain_line [("milk" : str); ("eggs" : str)]).
  { repeat (constructor;
              [split; [reflexivity|repeat (constructor; [done|]); constructor]|]).
    constructor. }
  split; [exact Hl|].
  exact (proj2 (marked_lines_are_rendered [("milk" : str); ("eggs" : str)] Hl)).
Defined.

(** ** A second pass of the renderer *)

Section SecondPass.


















End SecondPass.



